(** * Cipherlink: a shallow embedding of the cryptographic core and the relay's
    anti-replay gate.

    The development follows the layout of the repository:
    - [Js], [Encoding], [Json]: the JavaScript values and the platform codecs the
      sources call ([TextEncoder], [TextDecoder], [btoa], [atob], [JSON.stringify]);
    - [Sha256], [Hkdf], [AesGcm]: the Web Crypto primitives, written out after
      FIPS 180-4, RFC 2104, RFC 5869, FIPS 197 and SP 800-38D;
    - [MessageEncryption]: client/src/crypto/messageEncryption.ts;
    - [KeyExchange]: client/src/crypto/keyExchange.ts and the handshake paths of
      the chat window;
    - [SignedForm]: the canonical form of the signed handshake bytes;
    - [MessageModel]: server/models/Message.js;
    - [ReplayProtection]: server/middleware/replayProtection.js;
    - [KeyExchangeRoutes]: server/routes/keyExchange.js;
    - [MessagesRoute]: server/routes/messages.js;
    - [GateLayers]: the conditions of the gate's three layers, one by one;
    - [Samples]: concrete requests, records and states;
    - [JsArray]: the stable sort of arrays and queries;
    - [FileEncryption]: client/src/crypto/fileEncryption.ts;
    - [KeyExchangeClient]: the confirmation, the key stores and the handling of
      a response in client/src/crypto/keyExchange.ts;
    - [KeyExchangeListing], [MessageQueries]: the listings of
      server/routes/keyExchange.js and server/routes/messages.js;
    - [ChatWindow]: client/src/services/messageService.ts and the sending step
      of the chat window;
    - [RelayRuns]: runs of requests over the gate and the store;
    - [MoreSamples]: further concrete inputs.

    Definitions come first, the theorems about them after. *)

From Stdlib Require Import ZArith List Lia Ascii String Bool Sorted.
From stdpp Require Import base option list gmap strings fin_maps.

Local Open Scope Z_scope.

(** ** JavaScript values *)

Module Js.

(** A JavaScript string is a sequence of UTF-16 code units. *)
Abbreviation jsstring := (list Z).

Definition code_unit (c : Z) : bool := (0 <=? c) && (c <? 65536).

Definition is_jsstring (s : jsstring) : bool := forallb code_unit s.

(** A string literal of the sources (ASCII). *)
Definition lit (s : string) : jsstring :=
  map (fun a => Z.of_N (N_of_ascii a)) (list_ascii_of_string s).

(** Bytes written in hexadecimal, two lower-case digits each. *)
Definition hex_value (c : Z) : Z := if c <? 58 then c - 48 else c - 87.

Fixpoint hex_pairs (s : jsstring) : list Z :=
  match s with
  | a :: b :: t => hex_value a * 16 + hex_value b :: hex_pairs t
  | _ => []
  end.

Definition hex (s : string) : list Z := hex_pairs (lit s).

(** [ToBoolean] on the three kinds of value the sources test: a string is
    falsy when empty, a number when zero, and [undefined] always. *)
Definition truthy_string (s : jsstring) : bool :=
  match s with [] => false | _ => true end.

Definition truthy_number (n : Z) : bool := negb (n =? 0).

Definition truthy_opt {A} (truthy : A -> bool) (v : option A) : bool :=
  match v with Some x => truthy x | None => false end.

(** Strings compare by code units, as [Array.prototype.sort] without a
    comparator does on strings. *)
Fixpoint string_ltb (a b : jsstring) : bool :=
  match a, b with
  | [], [] => false
  | [], _ :: _ => true
  | _ :: _, [] => false
  | x :: a', y :: b' => (x <? y) || ((x =? y) && string_ltb a' b')
  end.

(** [[a, b].sort()]: insertion sort on two elements swaps them only when the
    second is smaller than the first. *)
Definition sort2 (a b : jsstring) : jsstring * jsstring :=
  if string_ltb b a then (b, a) else (a, b).

(** [Number.isSafeInteger]: the integers between -(2^53 - 1) and 2^53 - 1,
    each of which is a Number of its own. What [Date.now()] returns is one. *)
Definition safe_integer (n : Z) : bool := (- (2 ^ 53 - 1) <=? n) && (n <=? 2 ^ 53 - 1).

(** [Number.prototype.toString] on an integer: the digits written out in
    full, as JavaScript does below 10^21 in magnitude. From there on it writes
    an exponent, which this function does not: it stands for [toString] on the
    safe integers. *)
Fixpoint digits_pos (fuel : nat) (n : Z) (acc : jsstring) : jsstring :=
  match fuel with
  | O => acc
  | S fuel' =>
      let acc' := (48 + n mod 10) :: acc in
      if n <? 10 then acc' else digits_pos fuel' (n / 10) acc'
  end.

Definition number_to_string (n : Z) : jsstring :=
  if n <? 0 then 45 :: digits_pos (Z.to_nat (Z.log2 (- n) + 1)) (- n) []
  else digits_pos (Z.to_nat (Z.log2 n + 1)) n [].

(** Surrogate code units. *)
Definition is_high (c : Z) : bool := (0xD800 <=? c) && (c <=? 0xDBFF).
Definition is_low (c : Z) : bool := (0xDC00 <=? c) && (c <=? 0xDFFF).

(** Conversion of a string to scalar values, as WebIDL's [USVString] does: a
    surrogate pair is one scalar, a lone surrogate becomes U+FFFD. *)
Fixpoint to_scalars (s : jsstring) : list Z :=
  match s with
  | [] => []
  | c :: t =>
      if is_high c then
        match t with
        | d :: t' =>
            if is_low d
            then (0x10000 + (c - 0xD800) * 0x400 + (d - 0xDC00)) :: to_scalars t'
            else 0xFFFD :: to_scalars t
        | [] => [0xFFFD]
        end
      else if is_low c then 0xFFFD :: to_scalars t
      else c :: to_scalars t
  end.

(** Scalar values back to code units. *)
Definition units_of_scalar (cp : Z) : jsstring :=
  if cp <? 0x10000 then [cp]
  else [0xD800 + (cp - 0x10000) / 0x400; 0xDC00 + (cp - 0x10000) mod 0x400].

Definition from_scalars (cps : list Z) : jsstring :=
  concat (map units_of_scalar cps).

(** A string with code units in range and every surrogate paired. *)
Fixpoint well_formed (s : jsstring) : bool :=
  match s with
  | [] => true
  | c :: t =>
      code_unit c &&
      (if is_high c then
         match t with
         | d :: t' => is_low d && well_formed t'
         | [] => false
         end
       else negb (is_low c) && well_formed t)
  end.

End Js.

(** ** Platform codecs: [TextEncoder], [TextDecoder], [btoa], [atob] *)

Module Encoding.
Import Js.

(** A byte, and a sequence of bytes. *)
Definition byte (b : Z) : Prop := 0 <= b < 256.

Definition bytes (bs : list Z) : Prop := Forall byte bs.

(** A scalar value: a code point that is no surrogate. *)
Definition scalar (cp : Z) : Prop :=
  0 <= cp < 0x110000 /\ ~ (0xD800 <= cp <= 0xDFFF).

(** The string does not start with U+FEFF. *)
Definition no_bom (s : jsstring) : bool :=
  match s with
  | c :: _ => negb (c =? 0xFEFF)
  | [] => true
  end.

(** *** UTF-8 (WHATWG Encoding) *)

Definition utf8_of_scalar (cp : Z) : list Z :=
  if cp <? 0x80 then [cp]
  else if cp <? 0x800 then [0xC0 + cp / 64; 0x80 + cp mod 64]
  else if cp <? 0x10000 then
    [0xE0 + cp / 4096; 0x80 + (cp / 64) mod 64; 0x80 + cp mod 64]
  else
    [0xF0 + cp / 262144; 0x80 + (cp / 4096) mod 64;
     0x80 + (cp / 64) mod 64; 0x80 + cp mod 64].

(** [new TextEncoder().encode(s)] *)
Definition text_encode (s : jsstring) : list Z :=
  concat (map utf8_of_scalar (to_scalars s)).

(** The decoder's state after a lead byte: the code point so far, the
    continuation bytes still needed, and the bounds of the next byte. *)
Record pending := Pending { p_cp : Z; p_need : nat; p_lo : Z; p_hi : Z }.

(** A byte read with no sequence pending: either a code point is emitted or a
    sequence starts. *)
Definition utf8_lead (b : Z) : Z + pending :=
  if (0 <=? b) && (b <=? 0x7F) then inl b
  else if (0xC2 <=? b) && (b <=? 0xDF) then inr (Pending (b - 0xC0) 1 0x80 0xBF)
  else if (0xE0 <=? b) && (b <=? 0xEF) then
    inr (Pending (b - 0xE0) 2
           (if b =? 0xE0 then 0xA0 else 0x80)
           (if b =? 0xED then 0x9F else 0xBF))
  else if (0xF0 <=? b) && (b <=? 0xF4) then
    inr (Pending (b - 0xF0) 3
           (if b =? 0xF0 then 0x90 else 0x80)
           (if b =? 0xF4 then 0x8F else 0xBF))
  else inl 0xFFFD.

(** The UTF-8 decoder in replacement mode: a malformed sequence yields U+FFFD
    and the offending byte is read again as a lead byte. *)
Fixpoint utf8_decode (st : option pending) (bs : list Z) : list Z :=
  match bs with
  | [] => match st with None => [] | Some _ => [0xFFFD] end
  | b :: t =>
      let restart :=
        match utf8_lead b with
        | inl cp => cp :: utf8_decode None t
        | inr p => utf8_decode (Some p) t
        end in
      match st with
      | None => restart
      | Some p =>
          if (p_lo p <=? b) && (b <=? p_hi p) then
            let cp := p_cp p * 64 + (b - 0x80) in
            match p_need p with
            | S (S n) => utf8_decode (Some (Pending cp (S n) 0x80 0xBF)) t
            | _ => cp :: utf8_decode None t
            end
          else 0xFFFD :: restart
      end
  end.

(** A leading byte order mark is dropped ([ignoreBOM] is false by default). *)
Definition strip_bom (bs : list Z) : list Z :=
  match bs with
  | a :: b :: c :: t =>
      if (a =? 0xEF) && (b =? 0xBB) && (c =? 0xBF) then t else bs
  | _ => bs
  end.

(** [new TextDecoder().decode(bytes)] *)
Definition text_decode (bs : list Z) : jsstring :=
  from_scalars (utf8_decode None (strip_bom bs)).

(** *** Base64 (RFC 4648, and the forgiving decoder of the HTML standard) *)

Definition b64_char (i : Z) : Z :=
  if i <? 26 then 65 + i
  else if i <? 52 then 97 + (i - 26)
  else if i <? 62 then 48 + (i - 52)
  else if i =? 62 then 43
  else 47.

Definition b64_index (c : Z) : option Z :=
  if (65 <=? c) && (c <=? 90) then Some (c - 65)
  else if (97 <=? c) && (c <=? 122) then Some (c - 97 + 26)
  else if (48 <=? c) && (c <=? 57) then Some (c - 48 + 52)
  else if c =? 43 then Some 62
  else if c =? 47 then Some 63
  else None.

Definition sextet (i : Z) : Prop := 0 <= i < 64.

(** The 6-bit groups of a byte sequence; a last group is filled with zero bits. *)
Fixpoint b64_sextets (bs : list Z) : list Z :=
  match bs with
  | a :: b :: c :: t =>
      a / 4 :: (a mod 4) * 16 + b / 16 :: (b mod 16) * 4 + c / 64 :: c mod 64
        :: b64_sextets t
  | [a; b] => [a / 4; (a mod 4) * 16 + b / 16; (b mod 16) * 4]
  | [a] => [a / 4; (a mod 4) * 16]
  | [] => []
  end.

Definition b64_padding (n : nat) : jsstring :=
  match (n mod 3)%nat with
  | 1%nat => [61; 61]
  | 2%nat => [61]
  | _ => []
  end.

Definition base64_encode (bs : list Z) : jsstring :=
  map b64_char (b64_sextets bs) ++ b64_padding (length bs).

(** [btoa(s)]: every code unit must be a byte. *)
Definition btoa (s : jsstring) : option jsstring :=
  if forallb (fun c => (0 <=? c) && (c <? 256)) s then Some (base64_encode s)
  else None.

(** [String.fromCharCode(...bytes)] keeps each byte as one code unit. *)
Definition from_char_codes (bs : list Z) : jsstring := map (fun b => b mod 65536) bs.

Definition ascii_whitespace (c : Z) : bool :=
  (c =? 9) || (c =? 10) || (c =? 12) || (c =? 13) || (c =? 32).

(** Up to two trailing [=] are removed. *)
Definition strip_padding (s : jsstring) : jsstring :=
  match rev s with
  | a :: b :: r =>
      if (a =? 61) && (b =? 61) then rev r
      else if a =? 61 then rev (b :: r)
      else s
  | [a] => if a =? 61 then [] else s
  | [] => s
  end.

Fixpoint b64_octets (l : list Z) : list Z :=
  match l with
  | a :: b :: c :: d :: t =>
      a * 4 + b / 16 :: (b mod 16) * 16 + c / 4 :: (c mod 4) * 64 + d :: b64_octets t
  | [a; b; c] => [a * 4 + b / 16; (b mod 16) * 16 + c / 4]
  | [a; b] => [a * 4 + b / 16]
  | _ => []
  end.

(** [atob(s)]: [None] stands for the [InvalidCharacterError] it throws. *)
Definition atob (s : jsstring) : option jsstring :=
  let s1 := List.filter (fun c => negb (ascii_whitespace c)) s in
  let s2 := if (Z.of_nat (length s1) mod 4 =? 0) then strip_padding s1 else s1 in
  if Z.of_nat (length s2) mod 4 =? 1 then None
  else b64_octets <$> mapM b64_index s2.

(** [Uint8Array.from(atob(s), c => c.charCodeAt(0))] *)
Definition bytes_of_base64 (s : jsstring) : option (list Z) := atob s.

(** What [btoa(String.fromCharCode(...bytes))] returns on an array of bytes,
    where [btoa] does not throw. *)
Definition base64_of_bytes (bs : list Z) : jsstring := base64_encode bs.

(** [btoa(String.fromCharCode(...bytes))] as it runs: the spread passes every
    byte as an argument of one call, and an engine takes only so many
    ([max_arguments], a number that differs from engine to engine and is far
    below the length a string may have); on a longer array the call throws a
    [RangeError], for which [None] stands. *)
Definition base64_of_spread (max_arguments : Z) (bs : list Z) : option jsstring :=
  if Z.of_nat (length bs) <=? max_arguments then Some (base64_of_bytes bs) else None.

End Encoding.

(** ** [JSON.stringify] on the flat objects the handshake signs *)

Module Json.
Import Js.

Definition hex_digit (d : Z) : Z := if d <? 10 then 48 + d else 97 + (d - 10).

(** [UnicodeEscape]: a backslash, [u] and four lower-case hexadecimal digits. *)
Definition unicode_escape (c : Z) : jsstring :=
  [92; 117; hex_digit (c / 4096 mod 16); hex_digit (c / 256 mod 16);
   hex_digit (c / 16 mod 16); hex_digit (c mod 16)].

(** One code point that is not part of a surrogate pair. *)
Definition quote_unit (c : Z) : jsstring :=
  if c =? 8 then [92; 98]
  else if c =? 9 then [92; 116]
  else if c =? 10 then [92; 110]
  else if c =? 12 then [92; 102]
  else if c =? 13 then [92; 114]
  else if c =? 34 then [92; 34]
  else if c =? 92 then [92; 92]
  else if (c <? 32) || is_high c || is_low c then unicode_escape c
  else [c].

Fixpoint quote_body (s : jsstring) : jsstring :=
  match s with
  | [] => []
  | c :: t =>
      if is_high c then
        match t with
        | d :: t' =>
            if is_low d then c :: d :: quote_body t'
            else quote_unit c ++ quote_body t
        | [] => quote_unit c
        end
      else quote_unit c ++ quote_body t
  end.

(** [QuoteJSONString] *)
Definition quote (s : jsstring) : jsstring := 34 :: quote_body s ++ [34].

(** The values of the signed object: strings and (integral) numbers. *)
Inductive value :=
| VString (s : jsstring)
| VNumber (n : Z).

Definition serialize_value (v : value) : jsstring :=
  match v with
  | VString s => quote s
  | VNumber n => number_to_string n
  end.

(** [sep] stands between a key and its value, [delim] between two members. *)
Fixpoint members (delim sep : jsstring) (fields : list (jsstring * value)) : jsstring :=
  match fields with
  | [] => []
  | [(k, v)] => quote k ++ sep ++ serialize_value v
  | (k, v) :: rest =>
      quote k ++ sep ++ serialize_value v ++ delim ++ members delim sep rest
  end.

(** [JSON.stringify(obj)] with no [space] argument: members in insertion
    order, a colon after the key, a comma between members, nothing else. *)
Definition stringify (fields : list (jsstring * value)) : jsstring :=
  [123] ++ members [44] [58] fields ++ [125].

End Json.

(** ** SHA-256 (FIPS 180-4), HMAC (RFC 2104) and HKDF (RFC 5869) *)

Module Sha256.

Definition w32 (x : Z) : Z := x mod 2 ^ 32.

Definition rotr (n x : Z) : Z :=
  Z.lor (Z.shiftr x n) (w32 (Z.shiftl x (32 - n))).

Definition Ch (x y z : Z) : Z :=
  Z.lxor (Z.land x y) (Z.land (Z.lxor x (2 ^ 32 - 1)) z).

Definition Maj (x y z : Z) : Z :=
  Z.lxor (Z.lxor (Z.land x y) (Z.land x z)) (Z.land y z).

Definition Sigma0 (x : Z) : Z := Z.lxor (Z.lxor (rotr 2 x) (rotr 13 x)) (rotr 22 x).
Definition Sigma1 (x : Z) : Z := Z.lxor (Z.lxor (rotr 6 x) (rotr 11 x)) (rotr 25 x).
Definition sigma0 (x : Z) : Z := Z.lxor (Z.lxor (rotr 7 x) (rotr 18 x)) (Z.shiftr x 3).
Definition sigma1 (x : Z) : Z := Z.lxor (Z.lxor (rotr 17 x) (rotr 19 x)) (Z.shiftr x 10).

(** The constants are fractional parts of roots of the first primes: the
    first 32 bits of the cube roots of the first 64 primes for the rounds, of
    the square roots of the first 8 for the initial hash value. *)
Fixpoint cube_root_bits (b : nat) (n r : Z) : Z :=
  match b with
  | O => r
  | S b' =>
      let c := r + 2 ^ Z.of_nat b' in
      cube_root_bits b' n (if c * c * c <=? n then c else r)
  end.

Definition cube_root (n : Z) : Z := cube_root_bits 48 n 0.

Definition is_prime (n : nat) : bool :=
  forallb (fun d => negb (n mod d =? 0)%nat) (seq 2 (n - 2)).

Definition first_primes (n : nat) : list Z :=
  firstn n (map Z.of_nat (List.filter is_prime (seq 2 310))).

Definition K256 : list Z :=
  Eval vm_compute in map (fun p => cube_root (p * 2 ^ 96) mod 2 ^ 32) (first_primes 64).

Definition H0 : list Z :=
  Eval vm_compute in map (fun p => Z.sqrt (p * 2 ^ 64) mod 2 ^ 32) (first_primes 8).

(** Big-endian bytes of a number, [n] of them. *)
Fixpoint be_bytes (n : nat) (x : Z) : list Z :=
  match n with
  | O => []
  | S n' => (x / 256 ^ Z.of_nat n') mod 256 :: be_bytes n' x
  end.

Definition be_number (bs : list Z) : Z :=
  fold_left (fun acc b => acc * 256 + b) bs 0.

(** Padding: a one bit, zero bits, and the length in bits on 64 bits. *)
Definition pad (msg : list Z) : list Z :=
  let len := Z.of_nat (length msg) in
  let zeros := Z.to_nat ((55 - len) mod 64) in
  msg ++ [0x80] ++ repeat 0 zeros ++ be_bytes 8 (len * 8).

Fixpoint words (fuel : nat) (bs : list Z) : list Z :=
  match fuel, bs with
  | S f, a :: b :: c :: d :: t => be_number [a; b; c; d] :: words f t
  | _, _ => []
  end.

(** The message schedule: [w] holds the words so far, newest first. *)
Fixpoint schedule (n : nat) (w : list Z) : list Z :=
  match n with
  | O => w
  | S n' =>
      let x := w32 (sigma1 (nth 1 w 0) + nth 6 w 0 + sigma0 (nth 14 w 0) + nth 15 w 0) in
      schedule n' (x :: w)
  end.

Definition round (st : list Z) (kw : Z * Z) : list Z :=
  match st with
  | [a; b; c; d; e; f; g; h] =>
      let t1 := h + Sigma1 e + Ch e f g + fst kw + snd kw in
      let t2 := Sigma0 a + Maj a b c in
      [w32 (t1 + t2); a; b; c; w32 (d + t1); e; f; g]
  | _ => st
  end.

Definition compress (h : list Z) (block : list Z) : list Z :=
  let w := rev (schedule 48 (rev (words 16 block))) in
  let st := fold_left round (combine K256 w) h in
  map (fun p => w32 (fst p + snd p)) (combine h st).

Fixpoint blocks (fuel : nat) (h : list Z) (bs : list Z) : list Z :=
  match fuel with
  | O => h
  | S f =>
      match bs with
      | [] => h
      | _ => blocks f (compress h (firstn 64 bs)) (skipn 64 bs)
      end
  end.

Definition sha256 (msg : list Z) : list Z :=
  let p := pad msg in
  concat (map (be_bytes 4) (blocks (length p) H0 p)).

Definition xor_bytes (k : Z) (bs : list Z) : list Z := map (Z.lxor k) bs.

Definition hmac (key msg : list Z) : list Z :=
  let k := if (64 <? Z.of_nat (length key)) then sha256 key else key in
  let k := k ++ repeat 0 (64 - length k) in
  sha256 (xor_bytes 0x5c k ++ sha256 (xor_bytes 0x36 k ++ msg)).

End Sha256.

Module Hkdf.
Import Sha256.

Definition extract (salt ikm : list Z) : list Z := hmac salt ikm.

(** [T(1) | T(2) | ...], [n] blocks of it. *)
Fixpoint expand_blocks (n : nat) (prk info prev : list Z) (i : Z) : list Z :=
  match n with
  | O => []
  | S n' =>
      let t := hmac prk (prev ++ info ++ [i]) in
      t ++ expand_blocks n' prk info t (i + 1)
  end.

Definition expand (prk info : list Z) (len : nat) : list Z :=
  firstn len (expand_blocks ((len + 31) / 32) prk info [] 1).

(** HKDF-SHA-256 as [crypto.subtle.deriveKey] runs it: [len] bytes of output
    keying material. *)
Definition hkdf_sha256 (salt ikm info : list Z) (len : nat) : list Z :=
  expand (extract salt ikm) info len.

End Hkdf.

(** ** AES-256 (FIPS 197) and GCM (NIST SP 800-38D) *)

Module AesGcm.
Import Sha256.

(** *** The block cipher *)

Definition sbox : list Z :=
  [0x63; 0x7c; 0x77; 0x7b; 0xf2; 0x6b; 0x6f; 0xc5; 0x30; 0x01; 0x67; 0x2b;
   0xfe; 0xd7; 0xab; 0x76; 0xca; 0x82; 0xc9; 0x7d; 0xfa; 0x59; 0x47; 0xf0;
   0xad; 0xd4; 0xa2; 0xaf; 0x9c; 0xa4; 0x72; 0xc0; 0xb7; 0xfd; 0x93; 0x26;
   0x36; 0x3f; 0xf7; 0xcc; 0x34; 0xa5; 0xe5; 0xf1; 0x71; 0xd8; 0x31; 0x15;
   0x04; 0xc7; 0x23; 0xc3; 0x18; 0x96; 0x05; 0x9a; 0x07; 0x12; 0x80; 0xe2;
   0xeb; 0x27; 0xb2; 0x75; 0x09; 0x83; 0x2c; 0x1a; 0x1b; 0x6e; 0x5a; 0xa0;
   0x52; 0x3b; 0xd6; 0xb3; 0x29; 0xe3; 0x2f; 0x84; 0x53; 0xd1; 0x00; 0xed;
   0x20; 0xfc; 0xb1; 0x5b; 0x6a; 0xcb; 0xbe; 0x39; 0x4a; 0x4c; 0x58; 0xcf;
   0xd0; 0xef; 0xaa; 0xfb; 0x43; 0x4d; 0x33; 0x85; 0x45; 0xf9; 0x02; 0x7f;
   0x50; 0x3c; 0x9f; 0xa8; 0x51; 0xa3; 0x40; 0x8f; 0x92; 0x9d; 0x38; 0xf5;
   0xbc; 0xb6; 0xda; 0x21; 0x10; 0xff; 0xf3; 0xd2; 0xcd; 0x0c; 0x13; 0xec;
   0x5f; 0x97; 0x44; 0x17; 0xc4; 0xa7; 0x7e; 0x3d; 0x64; 0x5d; 0x19; 0x73;
   0x60; 0x81; 0x4f; 0xdc; 0x22; 0x2a; 0x90; 0x88; 0x46; 0xee; 0xb8; 0x14;
   0xde; 0x5e; 0x0b; 0xdb; 0xe0; 0x32; 0x3a; 0x0a; 0x49; 0x06; 0x24; 0x5c;
   0xc2; 0xd3; 0xac; 0x62; 0x91; 0x95; 0xe4; 0x79; 0xe7; 0xc8; 0x37; 0x6d;
   0x8d; 0xd5; 0x4e; 0xa9; 0x6c; 0x56; 0xf4; 0xea; 0x65; 0x7a; 0xae; 0x08;
   0xba; 0x78; 0x25; 0x2e; 0x1c; 0xa6; 0xb4; 0xc6; 0xe8; 0xdd; 0x74; 0x1f;
   0x4b; 0xbd; 0x8b; 0x8a; 0x70; 0x3e; 0xb5; 0x66; 0x48; 0x03; 0xf6; 0x0e;
   0x61; 0x35; 0x57; 0xb9; 0x86; 0xc1; 0x1d; 0x9e; 0xe1; 0xf8; 0x98; 0x11;
   0x69; 0xd9; 0x8e; 0x94; 0x9b; 0x1e; 0x87; 0xe9; 0xce; 0x55; 0x28; 0xdf;
   0x8c; 0xa1; 0x89; 0x0d; 0xbf; 0xe6; 0x42; 0x68; 0x41; 0x99; 0x2d; 0x0f;
   0xb0; 0x54; 0xbb; 0x16].

Definition sub_byte (b : Z) : Z := nth (Z.to_nat b) sbox 0.

(** Multiplication by [x] in GF(2^8) modulo [x^8 + x^4 + x^3 + x + 1]. *)
Definition xtime (b : Z) : Z :=
  let d := b * 2 in if d <? 256 then d else Z.lxor (d - 256) 0x1b.

Definition at_ (st : list Z) (i : nat) : Z := nth i st 0.

(** The state holds its sixteen bytes column by column. *)
Definition sub_bytes (st : list Z) : list Z := map sub_byte st.

Definition shift_rows (st : list Z) : list Z :=
  map (fun i => at_ st (i mod 4 + 4 * ((i / 4 + i mod 4) mod 4))%nat) (seq 0 16).

Definition mix_column (c : list Z) : list Z :=
  match c with
  | [a0; a1; a2; a3] =>
      [Z.lxor (Z.lxor (xtime a0) (Z.lxor (xtime a1) a1)) (Z.lxor a2 a3);
       Z.lxor (Z.lxor a0 (xtime a1)) (Z.lxor (Z.lxor (xtime a2) a2) a3);
       Z.lxor (Z.lxor a0 a1) (Z.lxor (xtime a2) (Z.lxor (xtime a3) a3));
       Z.lxor (Z.lxor (Z.lxor (xtime a0) a0) a1) (Z.lxor a2 (xtime a3))]
  | _ => c
  end.

Definition mix_columns (st : list Z) : list Z :=
  mix_column (firstn 4 st) ++ mix_column (firstn 4 (skipn 4 st)) ++
  mix_column (firstn 4 (skipn 8 st)) ++ mix_column (firstn 4 (skipn 12 st)).

Definition add_round_key (st rk : list Z) : list Z :=
  map (fun i => Z.lxor (at_ st i) (at_ rk i)) (seq 0 16).

Definition rcon : list Z := [0x01; 0x02; 0x04; 0x08; 0x10; 0x20; 0x40].

Definition xor_word (a b : list Z) : list Z :=
  map (fun i => Z.lxor (at_ a i) (at_ b i)) (seq 0 4).

Definition rot_word (w : list Z) : list Z :=
  [at_ w 1; at_ w 2; at_ w 3; at_ w 0].

(** Key expansion for a 256-bit key ([Nk] = 8): [ws] holds the words so far,
    newest first, and [i] is the index of the next word. *)
Fixpoint expand_key (n : nat) (i : nat) (ws : list (list Z)) : list (list Z) :=
  match n with
  | O => ws
  | S n' =>
      let prev := nth 0 ws [] in
      let temp :=
        if (i mod 8 =? 0)%nat then
          xor_word (map sub_byte (rot_word prev)) [nth (i / 8 - 1) rcon 0; 0; 0; 0]
        else if (i mod 8 =? 4)%nat then map sub_byte prev
        else prev in
      expand_key n' (S i) (xor_word (nth 7 ws []) temp :: ws)
  end.

Definition key_words (key : list Z) : list (list Z) :=
  map (fun i => map (fun j => at_ key (4 * i + j)) (seq 0 4)) (seq 0 8).

Definition round_keys (key : list Z) : list (list Z) :=
  let ws := rev (expand_key 52 8 (rev (key_words key))) in
  map (fun r => concat (firstn 4 (skipn (4 * r) ws))) (seq 0 15).

Definition aes_round (st rk : list Z) : list Z :=
  add_round_key (mix_columns (shift_rows (sub_bytes st))) rk.

(** AES-256 on one block of sixteen bytes. *)
Definition cipher (key block : list Z) : list Z :=
  let rks := round_keys key in
  let st := add_round_key block (nth 0 rks []) in
  let st := fold_left aes_round (firstn 13 (skipn 1 rks)) st in
  add_round_key (shift_rows (sub_bytes st)) (nth 14 rks []).

(** The cipher on blocks read as 128-bit numbers, most significant byte first. *)
Definition aes256 (key : list Z) (x : Z) : Z :=
  be_number (cipher key (be_bytes 16 x)).

(** *** GCM over a block cipher [E] on 128-bit numbers *)

Section Gcm.

Variable E : Z -> Z.

(** Multiplication in GF(2^128), bit 0 being the most significant bit. *)
Fixpoint gf_mul_loop (n : nat) (x v z : Z) : Z :=
  match n with
  | O => z
  | S n' =>
      let z' := if Z.testbit x (Z.of_nat n') then Z.lxor z v else z in
      let v' := if Z.testbit v 0
                then Z.lxor (Z.shiftr v 1) (Z.shiftl 0xE1 120)
                else Z.shiftr v 1 in
      gf_mul_loop n' x v' z'
  end.

Definition gf_mul (x y : Z) : Z := gf_mul_loop 128 x y 0.

(** The blocks of a byte string, the last one filled with zero bytes. *)
Fixpoint blocks_of (fuel : nat) (bs : list Z) : list Z :=
  match fuel with
  | O => []
  | S f =>
      match bs with
      | [] => []
      | _ => be_number (firstn 16 (bs ++ repeat 0 15)) :: blocks_of f (skipn 16 bs)
      end
  end.

Definition ghash_blocks (h : Z) (xs : list Z) : Z :=
  fold_left (fun y x => gf_mul (Z.lxor y x) h) xs 0.

(** [GHASH] of the additional data [a] and the text [c], lengths included. *)
Definition ghash (h : Z) (a c : list Z) : Z :=
  ghash_blocks h
    (blocks_of (length a) a ++ blocks_of (length c) c ++
     [Z.of_nat (length a) * 8 * 2 ^ 64 + Z.of_nat (length c) * 8]).

Definition hash_key : Z := E 0.

(** The pre-counter block. *)
Definition j0 (iv : list Z) : Z :=
  if (length iv =? 12)%nat then be_number iv * 2 ^ 32 + 1
  else ghash hash_key [] iv.

Definition inc32 (x : Z) : Z := (x / 2 ^ 32) * 2 ^ 32 + (x + 1) mod 2 ^ 32.

Fixpoint keystream (n : nat) (ctr : Z) : list Z :=
  match n with
  | O => []
  | S n' => be_bytes 16 (E ctr) ++ keystream n' (inc32 ctr)
  end.

(** [GCTR]: the text xored with the key stream of the counter blocks. *)
Definition gctr (ctr : Z) (bs : list Z) : list Z :=
  zip_with Z.lxor bs (keystream (length bs / 16 + 1) ctr).

Definition tag (iv c : list Z) : list Z :=
  be_bytes 16 (Z.lxor (ghash hash_key [] c) (E (j0 iv))).

(** Authenticated encryption with no additional data and a 128-bit tag: the
    ciphertext followed by the tag. *)
Definition gcm_encrypt (iv p : list Z) : list Z :=
  let c := gctr (inc32 (j0 iv)) p in
  c ++ tag iv c.

(** Authenticated decryption: [None] stands for the [OperationError]. *)
Definition gcm_decrypt (iv d : list Z) : option (list Z) :=
  if (length d <? 16)%nat then None
  else
    let c := firstn (length d - 16) d in
    let t := skipn (length d - 16) d in
    if bool_decide (t = tag iv c) then Some (gctr (inc32 (j0 iv)) c) else None.

End Gcm.

(** [crypto.subtle.encrypt] and [crypto.subtle.decrypt] with
    [{ name: 'AES-GCM', iv, tagLength: 128 }] under a 256-bit key. *)
Definition encrypt (key iv p : list Z) : list Z := gcm_encrypt (aes256 key) iv p.
Definition decrypt (key iv d : list Z) : option (list Z) := gcm_decrypt (aes256 key) iv d.

End AesGcm.

(** ** client/src/crypto/messageEncryption.ts *)

Module MessageEncryption.
Import Js Encoding.

(** The fields of the replay triple may be [undefined] on a record that comes
    off the wire, which is what the decoder's first test is for. *)
Record EncryptedMessage := {
  ciphertext : jsstring;
  iv : jsstring;
  tag : jsstring;
  timestamp : option Z;
  sequenceNumber : option Z;
  nonce : option jsstring
}.

(** What the module reads from its environment: the clock ([Date.now()]), the
    random source ([crypto.getRandomValues]), a stream of bytes with the
    position reached, and the number of arguments the engine takes in one
    call, which bounds the arrays [String.fromCharCode(...bytes)] can spread. *)
Record World := {
  now : Z;
  random : nat -> Z;
  drawn : nat;
  max_arguments : Z
}.

Definition getRandomValues (n : nat) (w : World) : list Z * World :=
  (map (fun i => random w (drawn w + i)%nat mod 256) (seq 0 n),
   {| now := now w; random := random w; drawn := (drawn w + n)%nat;
      max_arguments := max_arguments w |}).

(** [sequenceCounters]: conversation id to the last number handed out. *)
Abbreviation counters := (gmap jsstring Z).

(** [getSequenceNumber]: [sequenceCounters.get(id) || 0], plus one, stored. *)
Definition getSequenceNumber (conversationId : jsstring) (cs : counters)
  : Z * counters :=
  let current :=
    match cs !! conversationId with
    | Some n => if truthy_number n then n else 0
    | None => 0
    end in
  let next := current + 1 in
  (next, <[conversationId := next]> cs).

(** [generateNonce]: sixteen random bytes in base 64, or the [RangeError] of
    the spread. *)
Definition generateNonce (w : World) : option jsstring * World :=
  let '(nonceBytes, w') := getRandomValues 16 w in
  (base64_of_spread (max_arguments w') nonceBytes, w').

Definition b64_alphabet (c : Z) : bool :=
  match b64_index c with Some _ => true | None => false end.

Fixpoint drop_alphabet (s : jsstring) : jsstring :=
  match s with
  | c :: t => if b64_alphabet c then drop_alphabet t else s
  | [] => []
  end.

(** [/^[A-Za-z0-9+/]+=*$/.test(s)] *)
Definition nonce_pattern (s : jsstring) : bool :=
  match s with
  | c :: t => b64_alphabet c && forallb (Z.eqb 61) (drop_alphabet t)
  | [] => false
  end.

(** [validateNonce] *)
Definition validateNonce (nonce : jsstring) : bool :=
  (16 <=? Z.of_nat (length nonce)) && nonce_pattern nonce.

Inductive error :=
| RangeError
| InvalidNonceGenerated
| MissingReplayFields
| InvalidNonceFormat
| InvalidCharacter
| FailedToDecrypt.

(** [arr.slice(-16)] and [arr.slice(0, -16)] *)
Definition slice_last16 (bs : list Z) : list Z := skipn (length bs - 16) bs.
Definition slice_but_last16 (bs : list Z) : list Z := firstn (length bs - 16) bs.

(** [encryptMessage]: the record, or the error thrown. The ciphertext is as
    long as the plaintext's UTF-8 encoding, and the object literal of the
    [return] spreads it first: a message longer than the engine takes
    arguments leaves the function by a [RangeError], its sequence number
    already counted. *)
Definition encryptMessage (message : jsstring) (sessionKey : list Z)
    (conversationId : jsstring) (w : World) (cs : counters)
  : (error + EncryptedMessage) * World * counters :=
  let messageBytes := text_encode message in
  let '(ivBytes, w1) := getRandomValues 12 w in
  match generateNonce w1 with
  | (None, w2) => (inl RangeError, w2, cs)
  | (Some nonce_, w2) =>
      let '(sequenceNumber_, cs') := getSequenceNumber conversationId cs in
      let timestamp_ := now w2 in
      if negb (validateNonce nonce_) then (inl InvalidNonceGenerated, w2, cs')
      else
        let encryptedArray := AesGcm.encrypt sessionKey ivBytes messageBytes in
        let tag_ := slice_last16 encryptedArray in
        let ciphertext_ := slice_but_last16 encryptedArray in
        match base64_of_spread (max_arguments w2) ciphertext_,
              base64_of_spread (max_arguments w2) ivBytes,
              base64_of_spread (max_arguments w2) tag_ with
        | Some ciphertext64, Some iv64, Some tag64 =>
            (inr {| ciphertext := ciphertext64;
                    iv := iv64;
                    tag := tag64;
                    timestamp := Some timestamp_;
                    sequenceNumber := Some sequenceNumber_;
                    nonce := Some nonce_ |}, w2, cs')
        | _, _, _ => (inl RangeError, w2, cs')
        end
  end.

(** The two [console.warn] lines of the decoder. *)
Inductive warning := TimestampInFuture | MessageOld.

Definition age_warnings (age : Z) : list warning :=
  (if age <? 0 then [TimestampInFuture] else []) ++
  (if 10 * 60 * 1000 <? age then [MessageOld] else []).

(** [!encrypted.nonce || !encrypted.timestamp || !encrypted.sequenceNumber] *)
Definition replay_fields_missing (encrypted : EncryptedMessage) : bool :=
  negb (truthy_opt truthy_string (nonce encrypted))
  || negb (truthy_opt truthy_number (timestamp encrypted))
  || negb (truthy_opt truthy_number (sequenceNumber encrypted)).

(** [decryptMessage]: the warnings it prints and the plaintext or the error
    thrown. The three [atob] calls stand before the [try] block, so their
    exception leaves the function as it is. *)
Definition decryptMessage (encrypted : EncryptedMessage) (sessionKey : list Z)
    (w : World) : list warning * (error + jsstring) :=
  if replay_fields_missing encrypted then ([], inl MissingReplayFields)
  else
    let nonce_ := default [] (nonce encrypted) in
    if negb (validateNonce nonce_) then ([], inl InvalidNonceFormat)
    else
      let age := now w - default 0 (timestamp encrypted) in
      let warns := age_warnings age in
      match bytes_of_base64 (iv encrypted),
            bytes_of_base64 (ciphertext encrypted),
            bytes_of_base64 (tag encrypted) with
      | Some ivBytes, Some ciphertextBytes, Some tagBytes =>
          let combined := ciphertextBytes ++ tagBytes in
          match AesGcm.decrypt sessionKey ivBytes combined with
          | Some decrypted => (warns, inr (text_decode decrypted))
          | None => (warns, inl FailedToDecrypt)
          end
      | _, _, _ => (warns, inl InvalidCharacter)
      end.

(** The counters the module can hold: it only ever stores a number it has
    counted up to. *)
Definition counters_ok (cs : counters) : Prop :=
  forall id n, cs !! id = Some n -> 0 <= n.

(** What [decryptMessage] makes of what [encryptMessage] produced, the
    decoder's clock being [w']; nothing when [encryptMessage] throws. *)
Definition decrypt_encrypted (message : jsstring) (sessionKey : list Z)
    (conversationId : jsstring) (w : World) (cs : counters) (w' : World)
  : option (error + jsstring) :=
  match encryptMessage message sessionKey conversationId w cs with
  | (inr encrypted, _, _) => Some (snd (decryptMessage encrypted sessionKey w'))
  | (inl _, _, _) => None
  end.

(** The replay triple passes the decoder's two tests: the three fields are
    there and truthy, and the nonce has the format [validateNonce] asks for. *)
Definition triple_passes (encrypted : EncryptedMessage) : Prop :=
  exists n t q,
    nonce encrypted = Some n /\ timestamp encrypted = Some t
    /\ sequenceNumber encrypted = Some q
    /\ n <> [] /\ t <> 0 /\ q <> 0 /\ validateNonce n = true.

(** A copy of a record with another replay triple. *)
Definition with_triple (encrypted : EncryptedMessage) (nonce_ : option jsstring)
    (timestamp_ sequenceNumber_ : option Z) : EncryptedMessage :=
  {| ciphertext := ciphertext encrypted; iv := iv encrypted; tag := tag encrypted;
     timestamp := timestamp_; sequenceNumber := sequenceNumber_; nonce := nonce_ |}.

(** [resetSequenceCounter] and [getCurrentSequenceNumber] *)
Definition resetSequenceCounter (conversationId : jsstring) (cs : counters)
  : counters := delete conversationId cs.

Definition getCurrentSequenceNumber (conversationId : jsstring) (cs : counters) : Z :=
  match cs !! conversationId with
  | Some n => if truthy_number n then n else 0
  | None => 0
  end.

End MessageEncryption.

(** ** client/src/crypto/keyExchange.ts and the handshake of the chat window *)

Module KeyExchange.
Import Js Encoding Json.

Inductive message_type := Initiate | Response | Confirm.

Definition type_name (t : message_type) : jsstring :=
  match t with
  | Initiate => lit "initiate"
  | Response => lit "response"
  | Confirm => lit "confirm"
  end.

Record KeyExchangeMessage := {
  type : message_type;
  fromUserId : jsstring;
  toUserId : jsstring;
  publicKey : jsstring;
  signature : option jsstring;
  timestamp : Z;
  confirmationHash : option jsstring
}.

(** The object literal every signing and verifying site builds, in the order
    its properties are written. *)
Definition signed_object (ty fromId toId pk : jsstring) (ts : Z)
  : list (jsstring * value) :=
  [(lit "type", VString ty);
   (lit "fromUserId", VString fromId);
   (lit "toUserId", VString toId);
   (lit "publicKey", VString pk);
   (lit "timestamp", VNumber ts)].

(** [initiateKeyExchange]: [encoder.encode(JSON.stringify({...}))] over the
    message about to be signed. *)
Definition initiate_message (recipientId myUserId publicKeyBase64 : jsstring)
    (now : Z) : KeyExchangeMessage :=
  {| type := Initiate; fromUserId := myUserId; toUserId := recipientId;
     publicKey := publicKeyBase64; signature := None; timestamp := now;
     confirmationHash := None |}.

Definition initiate_signed_bytes (message : KeyExchangeMessage) : list Z :=
  text_encode
    (stringify (signed_object (type_name (type message)) (fromUserId message)
                  (toUserId message) (publicKey message) (timestamp message))).

(** [handleKeyExchangeResponse]: the bytes the signature is verified against. *)
Definition response_verified_bytes (response : KeyExchangeMessage) : list Z :=
  text_encode
    (stringify (signed_object (type_name (type response)) (fromUserId response)
                  (toUserId response) (publicKey response) (timestamp response))).

(** [establishSession], responder path: [responseData], signed by the
    responder, and [originalData], against which the initiator's signature is
    verified. *)
Definition responder_signed_bytes (userId recipientId myEcdhPublicKeyBase64 : jsstring)
    (responseTimestamp : Z) : list Z :=
  text_encode
    (stringify (signed_object (lit "response") userId recipientId
                  myEcdhPublicKeyBase64 responseTimestamp)).

Definition responder_verified_bytes (exchangeFrom exchangeTo otherEcdhPublicKey : jsstring)
    (exchangeTimestamp : Z) : list Z :=
  text_encode
    (stringify (signed_object (lit "initiate") exchangeFrom exchangeTo
                  otherEcdhPublicKey exchangeTimestamp)).

(** [establishSession], initiator path: [initiateData]. *)
Definition initiator_signed_bytes (userId recipientId myEcdhPublicKeyBase64 : jsstring)
    (initiateTimestamp : Z) : list Z :=
  text_encode
    (stringify (signed_object (lit "initiate") userId recipientId
                  myEcdhPublicKeyBase64 initiateTimestamp)).

(** The chat window completing an exchange it initiated: the relay lists the
    exchange with the initiator as [fromUserId], so the response was signed
    with the two ids the other way round. *)
Definition completion_verified_bytes (responseFrom responseTo responsePublicKey : jsstring)
    (responseTimestamp : Z) : list Z :=
  text_encode
    (stringify (signed_object (lit "response") responseTo responseFrom
                  responsePublicKey responseTimestamp)).

(** [deriveSessionKey]. [otherPublicKey] is a parameter of the function and is
    not read. The result is the raw key of the [CryptoKey] derived. *)
Definition session_info (myUserId : jsstring) (otherUserId : option jsstring)
  : jsstring :=
  if truthy_opt truthy_string otherUserId then
    let sortedIds := sort2 myUserId (default [] otherUserId) in
    lit "Cipherlink-Session-Key-" ++ fst sortedIds ++ lit "-" ++ snd sortedIds
  else lit "Cipherlink-Session-Key-" ++ myUserId.

Definition deriveSessionKey (sharedSecret : list Z) (otherPublicKey myUserId : jsstring)
    (otherUserId : option jsstring) : list Z :=
  let info := text_encode (session_info myUserId otherUserId) in
  Hkdf.hkdf_sha256 (repeat 0 32%nat) sharedSecret info 32.

End KeyExchange.

(** ** The signed form, as specified and as produced *)

Module SignedForm.
Import Js Encoding Json KeyExchange.

(** The canonical form as the specification has it: the five members in
    order, one space after each colon and after each comma. *)
Definition canonical_as_specified (ty fromId toId pk : jsstring) (ts : Z) : list Z :=
  text_encode
    ([123] ++ members [44; 32] [58; 32] (signed_object ty fromId toId pk ts) ++ [125]).

(** The compact form: an opening brace, the five members in order, each a
    quoted key, a colon and the value, with a comma between two members, and a
    closing brace; nothing else. *)
Definition compact_form (ty fromId toId pk : jsstring) (ts : Z) : jsstring :=
  lit "{" ++ quote (lit "type") ++ lit ":" ++ quote ty
  ++ lit "," ++ quote (lit "fromUserId") ++ lit ":" ++ quote fromId
  ++ lit "," ++ quote (lit "toUserId") ++ lit ":" ++ quote toId
  ++ lit "," ++ quote (lit "publicKey") ++ lit ":" ++ quote pk
  ++ lit "," ++ quote (lit "timestamp") ++ lit ":" ++ number_to_string ts
  ++ lit "}".

(** JSON's white space: space, tab, line feed, carriage return. *)
Definition whitespace (c : Z) : bool :=
  (c =? 32) || (c =? 9) || (c =? 10) || (c =? 13).

(** A printable ASCII character other than the space, the double quote and
    the backslash: the characters of ids, of base 64 and of the type names. *)
Definition plain_char (c : Z) : bool :=
  (33 <=? c) && (c <? 127) && negb (c =? 34) && negb (c =? 92).

Definition plain (s : jsstring) : bool := forallb plain_char s.

(** ASCII strings. *)
Definition ascii7 (s : jsstring) : bool := forallb (fun c => (0 <=? c) && (c <? 128)) s.

Definition digit_or_minus (c : Z) : bool := ((48 <=? c) && (c <=? 57)) || (c =? 45).

(** The characters that carry no white space and are ASCII. *)
Definition solid (c : Z) : bool := (33 <=? c) && (c <? 127).

End SignedForm.

(** ** server/models/Message.js *)

Module MessageModel.
Import Js.

(** A document of the [messages] collection. Dates are in milliseconds. *)
Record Message := {
  senderId : jsstring;
  recipientId : jsstring;
  ciphertext : jsstring;
  iv : jsstring;
  tag : jsstring;
  timestamp : Z;
  sequenceNumber : Z;
  nonce : jsstring;
  createdAt : Z
}.

(** The candidate document [new Message({...})] holds whatever the request
    carried. *)
Record Candidate := {
  c_senderId : jsstring;
  c_recipientId : option jsstring;
  c_ciphertext : option jsstring;
  c_iv : option jsstring;
  c_tag : option jsstring;
  c_timestamp : option Z;
  c_sequenceNumber : option Z;
  c_nonce : option jsstring
}.

Inductive save_error :=
| ValidationError
| DuplicateKey.

(** [error.code] of what [save] throws: 11000 on a unique index. *)
Definition error_code (e : save_error) : option Z :=
  match e with
  | DuplicateKey => Some 11000
  | ValidationError => None
  end.

Definition hex_char (c : Z) : bool :=
  ((48 <=? c) && (c <=? 57)) || ((97 <=? c) && (c <=? 102)) || ((65 <=? c) && (c <=? 70)).

(** An [ObjectId] in its canonical form of 24 hexadecimal digits. *)
Definition object_id (s : jsstring) : bool :=
  (length s =? 24)%nat && forallb hex_char s.

Definition lower_hex (c : Z) : bool :=
  ((48 <=? c) && (c <=? 57)) || ((97 <=? c) && (c <=? 102)).

(** An [ObjectId] as [toString] and [toJSON] write it, which is how it stands
    in a token and in what the relay sends: the 24 digits in lower case. Two
    ObjectIds are the same when these strings are. *)
Definition object_id_string (s : jsstring) : bool :=
  (length s =? 24)%nat && forallb lower_hex s.

(** The [timestamp] validator: [diff >= -60000 && diff <= 5 * 60 * 1000]. *)
Definition timestamp_valid (now v : Z) : bool :=
  let diff := now - v in (-60000 <=? diff) && (diff <=? 5 * 60 * 1000).

(** [min: 1] and [Number.isInteger(v) && v > 0]; numbers are integers here. *)
Definition sequence_valid (v : Z) : bool := (1 <=? v) && (0 <? v).

Definition pattern_char (c : Z) : bool :=
  ((65 <=? c) && (c <=? 90)) || ((97 <=? c) && (c <=? 122))
  || ((48 <=? c) && (c <=? 57)) || (c =? 43) || (c =? 47).

Fixpoint drop_pattern_chars (s : jsstring) : jsstring :=
  match s with
  | c :: t => if pattern_char c then drop_pattern_chars t else s
  | [] => []
  end.

(** [minlength: 16] and [/^[A-Za-z0-9+/]+=*$/.test(v)] *)
Definition nonce_valid (v : jsstring) : bool :=
  (16 <=? Z.of_nat (length v)) &&
  match v with
  | c :: t => pattern_char c && forallb (Z.eqb 61) (drop_pattern_chars t)
  | [] => false
  end.

(** A required string must be there and not empty. *)
Definition required_string (v : option jsstring) : bool := truthy_opt truthy_string v.

(** Schema validation, which runs before the [pre('save')] hooks: the
    document as it will be stored, or nothing. *)
Definition validate (now : Z) (c : Candidate) : option Message :=
  match c_recipientId c, c_ciphertext c, c_iv c, c_tag c,
        c_timestamp c, c_sequenceNumber c, c_nonce c with
  | Some r, Some ct, Some i, Some t, Some ts, Some sq, Some n =>
      if object_id (c_senderId c) && object_id r
         && truthy_string ct && truthy_string i && truthy_string t
         && timestamp_valid now ts && sequence_valid sq && nonce_valid n
      then Some {| senderId := c_senderId c; recipientId := r; ciphertext := ct;
                   iv := i; tag := t; timestamp := ts; sequenceNumber := sq;
                   nonce := n; createdAt := now |}
      else None
  | _, _, _, _, _, _, _ => None
  end.

(** The query both the gate and the hook run:
    [{ $or: [{ senderId: a, recipientId: b }, { senderId: b, recipientId: a }] }].
    The store casts [a] and [b] to ObjectIds and compares those; the strings
    are compared here, which is the same for ids written as
    [object_id_string] has them. *)
Definition between (a b : jsstring) (m : Message) : bool :=
  (bool_decide (senderId m = a) && bool_decide (recipientId m = b))
  || (bool_decide (senderId m = b) && bool_decide (recipientId m = a)).

(** [findOne(...).sort({ sequenceNumber: -1 })]: the largest sequence number of
    the conversation, when it has a message. *)
Definition last_sequence (db : list Message) (a b : jsstring) : option Z :=
  match map sequenceNumber (List.filter (between a b) db) with
  | [] => None
  | x :: xs => Some (fold_left Z.max xs x)
  end.

(** The [pre('save')] hook. *)
Definition sequence_hook (db : list Message) (m : Message) : bool :=
  match last_sequence db (senderId m) (recipientId m) with
  | Some last => negb (sequenceNumber m <=? last)
  | None => true
  end.

(** The unique index on [nonce]. *)
Definition nonce_taken (db : list Message) (n : jsstring) : bool :=
  existsb (fun m => bool_decide (nonce m = n)) db.

(** [message.save()]: validation, then the hook, then the insert. *)
Definition save (db : list Message) (now : Z) (c : Candidate)
  : save_error + (Message * list Message) :=
  match validate now c with
  | None => inl ValidationError
  | Some m =>
      if negb (sequence_hook db m) then inl ValidationError
      else if nonce_taken db (nonce m) then inl DuplicateKey
      else inr (m, db ++ [m])
  end.

End MessageModel.

(** ** server/middleware/replayProtection.js *)

Module ReplayProtection.
Import Js.

(** What the middleware reads of a request: [req.userId], set by the
    authentication middleware, and four fields of the body, each of which may
    be missing. The bodies covered are those whose [nonce] and [recipientId]
    are strings and whose [timestamp] and [sequenceNumber] are integers. *)
Record Request := {
  userId : jsstring;
  nonce : option jsstring;
  timestamp : option Z;
  sequenceNumber : option Z;
  recipientId : option jsstring
}.

(** An entry of [nonceCache]. *)
Record NonceEntry := {
  e_timestamp : Z;
  e_userId : jsstring;
  e_recipientId : option jsstring;
  e_sequenceNumber : Z;
  e_acceptedAt : Z
}.

(** The two module-level maps. *)
Record Gate := {
  nonceCache : gmap jsstring NonceEntry;
  sequenceTracking : gmap jsstring Z
}.

Definition empty_gate : Gate := {| nonceCache := ∅; sequenceTracking := ∅ |}.

Definition MAX_NONCE_AGE : Z := 5 * 60 * 1000.

(** The callback of [setInterval(..., 60000)], run at time [now]. *)
Definition sweep (now : Z) (g : Gate) : Gate :=
  {| nonceCache :=
       filter (fun kv => ¬ (MAX_NONCE_AGE < now - e_timestamp kv.2)) (nonceCache g);
     sequenceTracking := sequenceTracking g |}.

Inductive rejection :=
| MissingFields
| FromFuture
| TooOld
| DuplicateNonce
| InvalidSequence.

(** The [error] string of each 400 response. *)
Definition error_text (r : rejection) : jsstring :=
  match r with
  | MissingFields => lit "Missing replay protection fields"
  | FromFuture => lit "Replay attack detected: message from future"
  | TooOld => lit "Replay attack detected: message too old"
  | DuplicateNonce => lit "Replay attack detected: duplicate nonce"
  | InvalidSequence => lit "Replay attack detected: invalid sequence number"
  end.

(** The middleware either calls [next()] or answers with a status. *)
Inductive outcome :=
| Next
| Reject (status : Z) (why : rejection).

(** [!nonce || !timestamp || sequenceNumber === undefined] *)
Definition fields_missing (req : Request) : bool :=
  negb (truthy_opt truthy_string (nonce req))
  || negb (truthy_opt truthy_number (timestamp req))
  || match sequenceNumber req with None => true | Some _ => false end.

(** [`${a}-${b}`]; an [undefined] prints as the word. *)
Definition conversation_key (a b : jsstring) : jsstring := a ++ lit "-" ++ b.

(** The last sequence number of the conversation as layer 3 finds it: the
    tracker first, the store on a miss (0 when it has no message), and the
    tracker as it stands after the look-up. *)
Definition lookup_last (tracking : gmap jsstring Z) (db : list MessageModel.Message)
    (senderId recipientId : jsstring) : Z * gmap jsstring Z :=
  let conversationKey1 := conversation_key senderId recipientId in
  let conversationKey2 := conversation_key recipientId senderId in
  match tracking !! conversationKey1 with
  | Some lastSequence => (lastSequence, tracking)
  | None =>
      let lastSequence := default 0 (MessageModel.last_sequence db senderId recipientId) in
      (lastSequence,
       <[conversationKey2 := lastSequence]> (<[conversationKey1 := lastSequence]> tracking))
  end.

(** [replayProtection], run at time [now] against the store [db] from its
    first line to its answer, no other request being handled in between. The
    audit log is not part of the model, and neither is the [catch] block, which
    answers 500 when something is thrown: the store's query throws on an id it
    cannot cast to an ObjectId, so the ids of a request that names a
    conversation are taken to be ObjectIds (see [GateLayers.ids_well_formed]). *)
Definition replayProtection (g : Gate) (db : list MessageModel.Message) (now : Z)
    (req : Request) : outcome * Gate :=
  if fields_missing req then (Reject 400 MissingFields, g)
  else
    let nonce_ := default [] (nonce req) in
    let timestamp_ := default 0 (timestamp req) in
    let sequenceNumber_ := default 0 (sequenceNumber req) in
    let senderId := userId req in
    let timeDiff := now - timestamp_ in
    if timeDiff <? -60000 then (Reject 400 FromFuture, g)
    else if MAX_NONCE_AGE <? timeDiff then (Reject 400 TooOld, g)
    else if bool_decide (is_Some (nonceCache g !! nonce_)) then (Reject 400 DuplicateNonce, g)
    else
      let accept tracking :=
        (Next,
         {| nonceCache :=
              <[nonce_ := {| e_timestamp := timestamp_; e_userId := senderId;
                             e_recipientId := recipientId req;
                             e_sequenceNumber := sequenceNumber_;
                             e_acceptedAt := now |}]> (nonceCache g);
            sequenceTracking := tracking |}) in
      if truthy_string senderId && truthy_opt truthy_string (recipientId req) then
        let recipientId_ := default [] (recipientId req) in
        let '(lastSequence, tracking) :=
          lookup_last (sequenceTracking g) db senderId recipientId_ in
        if sequenceNumber_ <=? lastSequence then
          (Reject 400 InvalidSequence,
           {| nonceCache := nonceCache g; sequenceTracking := tracking |})
        else
          accept (<[conversation_key recipientId_ senderId := sequenceNumber_]>
                    (<[conversation_key senderId recipientId_ := sequenceNumber_]> tracking))
      else accept (sequenceTracking g).

(** The middleware is an [async] function with one [await], the store's
    query of layer 3 on a tracker miss. It runs without interruption up to
    there, and from there on once the store has answered; other requests may
    be handled in between. [arrive] is the first half: the answer, when the
    middleware gets to it without the store, or the wait. *)
Inductive progress :=
| Answered (o : outcome) (g : Gate)
| AwaitsStore.

Definition arrive (g : Gate) (now : Z) (req : Request) : progress :=
  if fields_missing req then Answered (Reject 400 MissingFields) g
  else
    let nonce_ := default [] (nonce req) in
    let timestamp_ := default 0 (timestamp req) in
    let sequenceNumber_ := default 0 (sequenceNumber req) in
    let senderId := userId req in
    let timeDiff := now - timestamp_ in
    if timeDiff <? -60000 then Answered (Reject 400 FromFuture) g
    else if MAX_NONCE_AGE <? timeDiff then Answered (Reject 400 TooOld) g
    else if bool_decide (is_Some (nonceCache g !! nonce_))
    then Answered (Reject 400 DuplicateNonce) g
    else
      let accept tracking :=
        Answered Next
          {| nonceCache :=
               <[nonce_ := {| e_timestamp := timestamp_; e_userId := senderId;
                              e_recipientId := recipientId req;
                              e_sequenceNumber := sequenceNumber_;
                              e_acceptedAt := now |}]> (nonceCache g);
             sequenceTracking := tracking |} in
      if truthy_string senderId && truthy_opt truthy_string (recipientId req) then
        let recipientId_ := default [] (recipientId req) in
        match sequenceTracking g !! conversation_key senderId recipientId_ with
        | Some lastSequence =>
            if sequenceNumber_ <=? lastSequence
            then Answered (Reject 400 InvalidSequence) g
            else
              accept (<[conversation_key recipientId_ senderId := sequenceNumber_]>
                        (<[conversation_key senderId recipientId_ := sequenceNumber_]>
                           (sequenceTracking g)))
        | None => AwaitsStore
        end
      else accept (sequenceTracking g).

(** The second half, run on the maps as they are when the store has answered
    with [lastMessage], the largest sequence number of the conversation if it
    has a message: the tracker is filled, the sequence number compared, and on
    acceptance tracker and nonce cache are written. [now] is the time read
    before the wait. *)
Definition resume (g : Gate) (lastMessage : option Z) (now : Z) (req : Request)
  : outcome * Gate :=
  let nonce_ := default [] (nonce req) in
  let timestamp_ := default 0 (timestamp req) in
  let sequenceNumber_ := default 0 (sequenceNumber req) in
  let senderId := userId req in
  let recipientId_ := default [] (recipientId req) in
  let lastSequence := default 0 lastMessage in
  let tracking :=
    <[conversation_key recipientId_ senderId := lastSequence]>
      (<[conversation_key senderId recipientId_ := lastSequence]> (sequenceTracking g)) in
  if sequenceNumber_ <=? lastSequence then
    (Reject 400 InvalidSequence,
     {| nonceCache := nonceCache g; sequenceTracking := tracking |})
  else
    (Next,
     {| nonceCache :=
          <[nonce_ := {| e_timestamp := timestamp_; e_userId := senderId;
                         e_recipientId := recipientId req;
                         e_sequenceNumber := sequenceNumber_;
                         e_acceptedAt := now |}]> (nonceCache g);
        sequenceTracking :=
          <[conversation_key recipientId_ senderId := sequenceNumber_]>
            (<[conversation_key senderId recipientId_ := sequenceNumber_]> tracking) |}).

(** What arrives at the gate: a tick of the sweeping timer or a request, each
    at its time. *)
Inductive event :=
| Sweep (now : Z)
| Arrive (db : list MessageModel.Message) (now : Z) (req : Request).

Definition time_of (e : event) : Z :=
  match e with
  | Sweep now => now
  | Arrive _ now _ => now
  end.

Definition handle (g : Gate) (e : event) : Gate :=
  match e with
  | Sweep now => sweep now g
  | Arrive db now req => snd (replayProtection g db now req)
  end.

Definition run (es : list event) (g : Gate) : Gate := fold_left handle es g.

(** The states of the gate: those a run of events leads to from the empty maps. *)
Inductive reachable : Gate -> Prop :=
| reachable_empty : reachable empty_gate
| reachable_step g e : reachable g -> reachable (handle g e).

(** The times of a run never go back, starting from [t]. *)
Fixpoint clock_monotone (t : Z) (es : list event) : Prop :=
  match es with
  | [] => True
  | e :: es' => t <= time_of e /\ clock_monotone (time_of e) es'
  end.

Definition last_time (t : Z) (es : list event) : Z :=
  fold_left (fun _ e => time_of e) es t.

(** [getReplayProtectionStats] *)
Definition getReplayProtectionStats (g : Gate) : nat * nat * Z :=
  (size (nonceCache g), size (sequenceTracking g), MAX_NONCE_AGE).

End ReplayProtection.

(** ** server/routes/keyExchange.js *)

Module KeyExchangeRoutes.
Import Js.

(** The response a responder stored on an exchange. *)
Record StoredResponse := {
  responsePublicKey : jsstring;
  responseSignature : jsstring;
  responseTimestamp : option Z;
  respondedBy : jsstring;
  respondedAt : Z
}.

(** A value of [pendingExchanges]. [confirmedBy] is [undefined] until the
    first confirmation. *)
Record Exchange := {
  fromUserId : jsstring;
  toUserId : jsstring;
  publicKey : jsstring;
  signature : jsstring;
  timestamp : option Z;
  createdAt : Z;
  response : option StoredResponse;
  confirmedBy : option (list jsstring)
}.

Abbreviation table := (gmap jsstring Exchange).

Inductive reply :=
| Initiated (exchangeId : jsstring)
| Responded (originalPublicKey originalSignature : jsstring)
| Confirmed (bothConfirmed : bool)
| MissingRequiredFields
| NotFound
| Unauthorized.

Definition status (r : reply) : Z :=
  match r with
  | Initiated _ | Responded _ _ | Confirmed _ => 200
  | MissingRequiredFields => 400
  | NotFound => 404
  | Unauthorized => 403
  end.

(** [POST /initiate] by the authenticated user [userId] at time [now]. *)
Definition initiate (userId : jsstring) (recipientId publicKey_ signature_ : option jsstring)
    (timestamp_ : option Z) (now : Z) (pendingExchanges : table) : reply * table :=
  if negb (truthy_opt truthy_string recipientId)
     || negb (truthy_opt truthy_string publicKey_)
     || negb (truthy_opt truthy_string signature_)
  then (MissingRequiredFields, pendingExchanges)
  else
    let recipient := default [] recipientId in
    let exchangeId := userId ++ lit "-" ++ recipient ++ lit "-" ++ number_to_string now in
    (Initiated exchangeId,
     <[exchangeId := {| fromUserId := userId; toUserId := recipient;
                        publicKey := default [] publicKey_;
                        signature := default [] signature_;
                        timestamp := timestamp_; createdAt := now;
                        response := None; confirmedBy := None |}]> pendingExchanges).

(** The timer [initiate] sets, firing five minutes later. *)
Definition expire (exchangeId : jsstring) (pendingExchanges : table) : table :=
  delete exchangeId pendingExchanges.

(** [POST /response] *)
Definition respond (userId : jsstring) (exchangeId publicKey_ signature_ : option jsstring)
    (timestamp_ : option Z) (now : Z) (pendingExchanges : table) : reply * table :=
  if negb (truthy_opt truthy_string exchangeId)
     || negb (truthy_opt truthy_string publicKey_)
     || negb (truthy_opt truthy_string signature_)
  then (MissingRequiredFields, pendingExchanges)
  else
    let id := default [] exchangeId in
    match pendingExchanges !! id with
    | None => (NotFound, pendingExchanges)
    | Some exchange =>
        let isInitiator := bool_decide (fromUserId exchange = userId) in
        let isRecipient := bool_decide (toUserId exchange = userId) in
        if negb isInitiator && negb isRecipient then (Unauthorized, pendingExchanges)
        else
          let exchange' :=
            {| fromUserId := fromUserId exchange; toUserId := toUserId exchange;
               publicKey := publicKey exchange; signature := signature exchange;
               timestamp := timestamp exchange; createdAt := createdAt exchange;
               response := Some {| responsePublicKey := default [] publicKey_;
                                   responseSignature := default [] signature_;
                                   responseTimestamp := timestamp_;
                                   respondedBy := userId; respondedAt := now |};
               confirmedBy := confirmedBy exchange |} in
          (Responded (publicKey exchange) (signature exchange),
           <[id := exchange']> pendingExchanges)
    end.

(** [confirmedBy.includes(id)] *)
Definition includes (l : list jsstring) (id : jsstring) : bool :=
  existsb (fun x => bool_decide (x = id)) l.

(** [confirmedBy.length >= 2 || (includes(fromUserId) && includes(toUserId))] *)
Definition both_confirmed (exchange : Exchange) (confirmed : list jsstring) : bool :=
  (2 <=? Z.of_nat (length confirmed))
  || (includes confirmed (fromUserId exchange) && includes confirmed (toUserId exchange)).

(** [POST /confirm] by the authenticated user [userId]. The exchange is an
    object held by the map, so the push is seen by the map. *)
Definition confirm (userId : jsstring) (exchangeId confirmationHash : option jsstring)
    (pendingExchanges : table) : reply * table :=
  if negb (truthy_opt truthy_string exchangeId)
     || negb (truthy_opt truthy_string confirmationHash)
  then (MissingRequiredFields, pendingExchanges)
  else
    let id := default [] exchangeId in
    match pendingExchanges !! id with
    | None => (NotFound, pendingExchanges)
    | Some exchange =>
        let before := default [] (confirmedBy exchange) in
        let confirmed := if includes before userId then before else before ++ [userId] in
        let bothConfirmed := both_confirmed exchange confirmed in
        let exchange' :=
          {| fromUserId := fromUserId exchange; toUserId := toUserId exchange;
             publicKey := publicKey exchange; signature := signature exchange;
             timestamp := timestamp exchange; createdAt := createdAt exchange;
             response := response exchange; confirmedBy := Some confirmed |} in
        (Confirmed bothConfirmed,
         if bothConfirmed then delete id pendingExchanges
         else <[id := exchange']> pendingExchanges)
    end.

(** The requests the table sees. *)
Inductive request :=
| ReqInitiate (userId : jsstring) (recipientId publicKey_ signature_ : option jsstring)
    (timestamp_ : option Z) (now : Z)
| ReqRespond (userId : jsstring) (exchangeId publicKey_ signature_ : option jsstring)
    (timestamp_ : option Z) (now : Z)
| ReqConfirm (userId : jsstring) (exchangeId confirmationHash : option jsstring)
| TimerExpire (exchangeId : jsstring).

Definition handle (r : request) (t : table) : table :=
  match r with
  | ReqInitiate u rc pk sg ts now => snd (initiate u rc pk sg ts now t)
  | ReqRespond u id pk sg ts now => snd (respond u id pk sg ts now t)
  | ReqConfirm u id h => snd (confirm u id h t)
  | TimerExpire id => expire id t
  end.

(** The tables the relay can be in: those a run of requests leads to from the
    empty table. *)
Definition run (rs : list request) (t : table) : table := fold_left (fun t r => handle r t) rs t.

Definition reachable (t : table) : Prop := exists rs, t = run rs ∅.

End KeyExchangeRoutes.

(** ** server/routes/messages.js *)

Module MessagesRoute.
Import Js.

(** A request to [POST /messages/send], once authenticated. *)
Record SendRequest := {
  userId : jsstring;
  recipientId : option jsstring;
  ciphertext : option jsstring;
  iv : option jsstring;
  tag : option jsstring;
  timestamp : option Z;
  sequenceNumber : option Z;
  nonce : option jsstring
}.

Inductive reply :=
| Created (message : MessageModel.Message)
| BadRequest (error : jsstring)
| ServerError (error : jsstring).

Definition status (r : reply) : Z :=
  match r with
  | Created _ => 201
  | BadRequest _ => 400
  | ServerError _ => 500
  end.

Definition candidate (req : SendRequest) : MessageModel.Candidate :=
  {| MessageModel.c_senderId := userId req;
     MessageModel.c_recipientId := recipientId req;
     MessageModel.c_ciphertext := ciphertext req;
     MessageModel.c_iv := iv req;
     MessageModel.c_tag := tag req;
     MessageModel.c_timestamp := timestamp req;
     MessageModel.c_sequenceNumber := sequenceNumber req;
     MessageModel.c_nonce := nonce req |}.

(** The [catch] block: [error.code === 11000] answers 400 with the
    duplicate-nonce error, anything else 500. *)
Definition on_save_error (e : MessageModel.save_error) : reply :=
  if bool_decide (MessageModel.error_code e = Some 11000)
  then BadRequest (lit "Replay attack detected: duplicate nonce")
  else ServerError (lit "Failed to send message").

(** The handler of [router.post('/send', ...)], after the two middlewares. *)
Definition send_handler (db : list MessageModel.Message) (now : Z) (req : SendRequest)
  : reply * list MessageModel.Message :=
  if negb (truthy_opt truthy_string (recipientId req))
     || negb (truthy_opt truthy_string (ciphertext req))
     || negb (truthy_opt truthy_string (iv req))
     || negb (truthy_opt truthy_string (tag req))
     || negb (truthy_opt truthy_string (nonce req))
  then (BadRequest (lit "Missing required fields"), db)
  else
    match MessageModel.save db now (candidate req) with
    | inr (message, db') => (Created message, db')
    | inl e => (on_save_error e, db)
    end.

Definition gate_request (req : SendRequest) : ReplayProtection.Request :=
  {| ReplayProtection.userId := userId req;
     ReplayProtection.nonce := nonce req;
     ReplayProtection.timestamp := timestamp req;
     ReplayProtection.sequenceNumber := sequenceNumber req;
     ReplayProtection.recipientId := recipientId req |}.

(** The route: the gate, then the handler when the gate calls [next()]. *)
Definition send (g : ReplayProtection.Gate) (db : list MessageModel.Message) (now : Z)
    (req : SendRequest) : reply * ReplayProtection.Gate * list MessageModel.Message :=
  match ReplayProtection.replayProtection g db now (gate_request req) with
  | (ReplayProtection.Next, g') =>
      let '(r, db') := send_handler db now req in (r, g', db')
  | (ReplayProtection.Reject _ why, g') =>
      (BadRequest (ReplayProtection.error_text why), g', db)
  end.

End MessagesRoute.

(** ** The layers of the gate, spelled out

    The conditions the statements about the gate are written in: what a request
    carries, its freshness, and the last sequence number the gate has for a
    conversation. *)

Module GateLayers.
Import Js ReplayProtection.

(** An id that can stand in a conversation key without ambiguity: it has no
    hyphen. The 24 hexadecimal digits of an [ObjectId] are of that kind. *)
Definition no_hyphen (s : jsstring) : bool := forallb (fun c => negb (c =? 45)) s.

(** The ids of a request as they reach the gate of the running relay. The
    sender id comes out of the token and is the string of an ObjectId. The
    recipient id, when the body has one that is not empty, is such a string as
    well: the store's query casts it to the ObjectId it writes, and throws on
    a string it cannot cast. *)
Definition ids_well_formed (req : Request) : bool :=
  MessageModel.object_id_string (userId req)
  && match recipientId req with
     | Some r => bool_decide (r = []) || MessageModel.object_id_string r
     | None => true
     end.

(** The ids of the store are ObjectIds, written as their strings. *)
Definition store_well_formed (db : list MessageModel.Message) : bool :=
  forallb (fun m => MessageModel.object_id_string (MessageModel.senderId m)
                    && MessageModel.object_id_string (MessageModel.recipientId m)) db.

(** The three fields are there: a nonce that is not the empty string, a
    timestamp that is not 0, and a sequence number. *)
Definition carried (req : Request) : bool :=
  match nonce req, timestamp req, sequenceNumber req with
  | Some n, Some ts, Some _ => negb (bool_decide (n = [])) && negb (ts =? 0)
  | _, _, _ => false
  end.

(** The three fields are in the body, whatever they hold. *)
Definition in_body (req : Request) : bool :=
  match nonce req, timestamp req, sequenceNumber req with
  | Some _, Some _, Some _ => true
  | _, _, _ => false
  end.

(** The timestamp lies in [[now - 5 min, now + 1 min]]. *)
Definition in_window (now : Z) (req : Request) : bool :=
  match timestamp req with
  | Some ts => (now - 300000 <=? ts) && (ts <=? now + 60000)
  | None => false
  end.

Definition ahead_of_window (now : Z) (req : Request) : bool :=
  match timestamp req with
  | Some ts => now + 60000 <? ts
  | None => false
  end.

(** The nonce is not in the cache. *)
Definition nonce_fresh (g : Gate) (req : Request) : bool :=
  match nonce req with
  | Some n => bool_decide (nonceCache g !! n = None)
  | None => false
  end.

(** The last sequence number seen between [a] and [b]: what the tracker holds
    for the pair, else the largest sequence number stored, else 0. *)
Definition last_seen (g : Gate) (db : list MessageModel.Message) (a b : jsstring) : Z :=
  match sequenceTracking g !! conversation_key a b with
  | Some v => v
  | None => default 0 (MessageModel.last_sequence db a b)
  end.

(** A request names a conversation when sender and recipient are both there
    and not empty. *)
Definition names_conversation (req : Request) : bool :=
  negb (bool_decide (userId req = []))
  && match recipientId req with
     | Some r => negb (bool_decide (r = []))
     | None => false
     end.

(** The sequence number exceeds the last one seen in the conversation. *)
Definition sequence_exceeds (g : Gate) (db : list MessageModel.Message) (req : Request)
    (recipient : jsstring) : bool :=
  match sequenceNumber req with
  | Some sq => last_seen g db (userId req) recipient <? sq
  | None => false
  end.

(** The tracker holds one value for the two directions of a conversation. *)
Definition paired (tracking : gmap jsstring Z) : Prop :=
  forall a b, no_hyphen a = true -> no_hyphen b = true ->
    tracking !! conversation_key a b = tracking !! conversation_key b a.

(** What the gate does: layer 3 applies to a request that names a conversation. *)
Definition accepts (g : Gate) (db : list MessageModel.Message) (now : Z) (req : Request)
  : bool :=
  carried req && in_window now req && nonce_fresh g req
  && (if names_conversation req
      then sequence_exceeds g db req (default [] (recipientId req))
      else true).

(** The layer that fails first. *)
Definition first_failure (g : Gate) (now : Z) (req : Request) : rejection :=
  if negb (carried req) then MissingFields
  else if ahead_of_window now req then FromFuture
  else if negb (in_window now req) then TooOld
  else if negb (nonce_fresh g req) then DuplicateNonce
  else InvalidSequence.

(** Acceptance as the specification has it: the three fields in the body, the
    timestamp in the window, the nonce not in the cache, and the sequence
    number above the last one seen for the sender and the recipient (an
    [undefined] recipient prints as that word in the conversation key). *)
Definition accepts_as_specified (g : Gate) (db : list MessageModel.Message) (now : Z)
    (req : Request) : bool :=
  in_body req && in_window now req && nonce_fresh g req
  && sequence_exceeds g db req (default (lit "undefined") (recipientId req)).


End GateLayers.

(** ** Sample inputs

    Concrete records, requests and states at which the theorems below are
    instantiated. *)

Module Samples.
Import Js.

Definition alice : jsstring := lit "507f1f77bcf86cd799439011".
Definition bob : jsstring := lit "507f191e810c19729de860ea".
Definition mallory : jsstring := lit "5f43a1c2e4b0a1b2c3d4e5f6".
Definition trent : jsstring := lit "60d5ec49f1b2c8a3d4e5f678".

(** A shared secret of 32 bytes. *)
Definition shared_secret : list Z := map Z.of_nat (seq 1 32).

(** The INITIATE message alice signs for bob. *)
Definition initiate_sample : KeyExchange.KeyExchangeMessage :=
  KeyExchange.initiate_message bob alice (lit "MFkwEwYHKoZIzj0CAQYIKoZIzj0DAQcDQgAE")
    1700000000000.

Definition sample_nonce : jsstring := lit "AAAAAAAAAAAAAAAAAAAAAA==".

Definition record_with_zero_sequence : MessageEncryption.EncryptedMessage :=
  {| MessageEncryption.ciphertext := lit "AAAA";
     MessageEncryption.iv := lit "AAAAAAAAAAAAAAAA";
     MessageEncryption.tag := lit "AAAAAAAAAAAAAAAAAAAAAA==";
     MessageEncryption.timestamp := Some 1700000000000;
     MessageEncryption.sequenceNumber := Some 0;
     MessageEncryption.nonce := Some sample_nonce |}.

Definition request_with_zero_sequence : ReplayProtection.Request :=
  {| ReplayProtection.userId := alice;
     ReplayProtection.nonce := Some sample_nonce;
     ReplayProtection.timestamp := Some 1700000000000;
     ReplayProtection.sequenceNumber := Some 0;
     ReplayProtection.recipientId := Some bob |}.

Definition request_with_zero_timestamp : ReplayProtection.Request :=
  {| ReplayProtection.userId := alice;
     ReplayProtection.nonce := Some sample_nonce;
     ReplayProtection.timestamp := Some 0;
     ReplayProtection.sequenceNumber := Some 1;
     ReplayProtection.recipientId := Some bob |}.

(** A client whose engine takes 65536 arguments in a call. *)
Definition world0 : MessageEncryption.World :=
  {| MessageEncryption.now := 1700000000000;
     MessageEncryption.random := fun _ => 0;
     MessageEncryption.drawn := 0;
     MessageEncryption.max_arguments := 65536 |}.

Definition request_without_recipient : ReplayProtection.Request :=
  {| ReplayProtection.userId := alice;
     ReplayProtection.nonce := Some sample_nonce;
     ReplayProtection.timestamp := Some 1700000000000;
     ReplayProtection.sequenceNumber := Some 0;
     ReplayProtection.recipientId := None |}.

(** The relay's clock. *)
Definition clock : Z := 1700000000000.

(** A request whose timestamp is five minutes behind the relay's clock, the
    oldest the gate lets in. *)
Definition request_at_window_edge : ReplayProtection.Request :=
  {| ReplayProtection.userId := alice;
     ReplayProtection.nonce := Some sample_nonce;
     ReplayProtection.timestamp := Some (clock - 300000);
     ReplayProtection.sequenceNumber := Some 1;
     ReplayProtection.recipientId := Some bob |}.

Definition gate_after_edge_request : ReplayProtection.Gate :=
  snd (ReplayProtection.replayProtection ReplayProtection.empty_gate [] clock
         request_at_window_edge).

(** A store holding one message from alice to bob. *)
Definition stored_message : MessageModel.Message :=
  {| MessageModel.senderId := alice; MessageModel.recipientId := bob;
     MessageModel.ciphertext := lit "Y2lwaGVy"; MessageModel.iv := lit "AAAAAAAAAAAAAAAA";
     MessageModel.tag := lit "AAAAAAAAAAAAAAAAAAAAAA==";
     MessageModel.timestamp := 1700000000000; MessageModel.sequenceNumber := 1;
     MessageModel.nonce := sample_nonce; MessageModel.createdAt := 1700000000000 |}.

(** A request of alice to bob with sequence number 1, when the store holds
    her message of that number: the gate finds the conversation in the store
    and rejects. *)
Definition request_with_stale_sequence : ReplayProtection.Request :=
  {| ReplayProtection.userId := alice;
     ReplayProtection.nonce := Some (lit "QkJCQkJCQkJCQkJCQkJCQg==");
     ReplayProtection.timestamp := Some clock;
     ReplayProtection.sequenceNumber := Some 1;
     ReplayProtection.recipientId := Some bob |}.

Definition gate_after_stale_request : ReplayProtection.Gate :=
  snd (ReplayProtection.replayProtection ReplayProtection.empty_gate [stored_message]
         clock request_with_stale_sequence).

(** A request of alice to bob with the next sequence number, 2. *)
Definition request_with_next_sequence : ReplayProtection.Request :=
  {| ReplayProtection.userId := alice;
     ReplayProtection.nonce := Some (lit "Q0NDQ0NDQ0NDQ0NDQ0NDQw==");
     ReplayProtection.timestamp := Some clock;
     ReplayProtection.sequenceNumber := Some 2;
     ReplayProtection.recipientId := Some bob |}.

(** The request a client of alice sends first in a conversation with bob, a
    millisecond later: its sequence number is 1. *)
Definition request_with_first_sequence : ReplayProtection.Request :=
  {| ReplayProtection.userId := alice;
     ReplayProtection.nonce := Some (lit "RERERERERERERERERERERA==");
     ReplayProtection.timestamp := Some (clock + 1);
     ReplayProtection.sequenceNumber := Some 1;
     ReplayProtection.recipientId := Some bob |}.

(** The gate when [request_with_next_sequence] has waited for the store, which
    holds [stored_message], and gone through. *)
Definition gate_after_next_request : ReplayProtection.Gate :=
  snd (ReplayProtection.resume ReplayProtection.empty_gate (Some 1) clock
         request_with_next_sequence).

(** A session key, a conversation id, and what [encryptMessage] makes of
    the plaintext "hi" under them. *)
Definition session_key : list Z := map Z.of_nat (seq 101 32).

Definition conversation_id : jsstring := alice ++ lit "-" ++ bob.

Definition sample_encrypted : MessageEncryption.EncryptedMessage :=
  match MessageEncryption.encryptMessage (lit "hi") session_key conversation_id world0 ∅ with
  | (inr encrypted, _, _) => encrypted
  | (inl _, _, _) => record_with_zero_sequence
  end.

(** A plaintext of 65537 letters, one more than the engine of [world0] takes
    arguments. *)
Definition long_message : jsstring := repeat 97 (Z.to_nat 65537).

(** An exchange that alice opens with bob at time 1700000000000. *)
Definition exchange_id : jsstring :=
  alice ++ lit "-" ++ bob ++ lit "-" ++ number_to_string 1700000000000.

Definition table_after_initiate : gmap jsstring KeyExchangeRoutes.Exchange :=
  snd (KeyExchangeRoutes.initiate alice (Some bob) (Some (lit "cHVibGlj"))
         (Some (lit "c2lnbmF0dXJl")) (Some 1700000000000) 1700000000000 ∅).

Definition confirmation_hash : jsstring := lit "aGFzaA==".

(** A request of mallory to trent that carries the nonce of the stored message. *)
Definition request_reusing_nonce : MessagesRoute.SendRequest :=
  {| MessagesRoute.userId := mallory; MessagesRoute.recipientId := Some trent;
     MessagesRoute.ciphertext := Some (lit "Y2lwaGVy");
     MessagesRoute.iv := Some (lit "AAAAAAAAAAAAAAAA");
     MessagesRoute.tag := Some (lit "AAAAAAAAAAAAAAAAAAAAAA==");
     MessagesRoute.timestamp := Some 1700000000500;
     MessagesRoute.sequenceNumber := Some 1;
     MessagesRoute.nonce := Some sample_nonce |}.

End Samples.

(** ** Sorting

    [Array.prototype.sort] with a comparator that subtracts two numeric keys,
    and the ascending [sort] of a query: both are taken to be stable, as
    ECMAScript 2019 requires of the first. *)

Module JsArray.

Section Sort.
Context {A : Type}.
Variable key : A -> Z.

(** An element goes in before the first element whose key is not smaller. *)
Fixpoint insert_sorted (x : A) (l : list A) : list A :=
  match l with
  | [] => [x]
  | y :: l' => if key x <=? key y then x :: l else y :: insert_sorted x l'
  end.

Definition sort_by (l : list A) : list A := fold_right insert_sorted [] l.

End Sort.

End JsArray.
(** ** client/src/crypto/fileEncryption.ts *)

Module FileEncryption.
Import Js Encoding MessageEncryption.

Record EncryptedFileChunk := {
  chunkIndex : Z;
  ciphertext : jsstring;
  iv : jsstring;
  tag : jsstring
}.

Record EncryptedFile := {
  fileName : jsstring;
  fileSize : Z;
  mimeType : jsstring;
  chunks : list EncryptedFileChunk;
  totalChunks : Z
}.

(** A [File]: its name, its type and its bytes; [file.size] is their number. *)
Record File := {
  name : jsstring;
  type : jsstring;
  content : list Z
}.

Definition size (file : File) : Z := Z.of_nat (length (content file)).

(** A [Blob]: its bytes and its type. *)
Record Blob := {
  blob_bytes : list Z;
  blob_type : jsstring
}.

(** The type a [Blob] gets from the [type] option of its constructor: the
    empty string when a character lies outside U+0020 to U+007E, the string in
    ASCII lower case otherwise. *)
Definition normalize_type (t : jsstring) : jsstring :=
  if forallb (fun c => (0x20 <=? c) && (c <=? 0x7E)) t
  then map (fun c => if (65 <=? c) && (c <=? 90) then c + 32 else c) t
  else [].

Definition CHUNK_SIZE : Z := 1024 * 1024.

(** [buffer.slice(start, end)] for [0 <= start]. *)
Definition slice (start end_ : Z) (bs : list Z) : list Z :=
  firstn (Z.to_nat (end_ - start)) (skipn (Z.to_nat start) bs).

(** The bytes of chunk [i]: [fileBuffer.slice(start, end)]. *)
Definition chunk_at (fileBuffer : list Z) (i : Z) : list Z :=
  slice (i * CHUNK_SIZE)
    (Z.min (i * CHUNK_SIZE + CHUNK_SIZE) (Z.of_nat (length fileBuffer))) fileBuffer.

(** One turn of the loop of [encryptFile]: the chunks pushed so far and the
    random source, before and after. The three spreads of the [push] throw a
    [RangeError] on an array longer than the engine takes arguments; the loop
    is left by it, which the missing list of chunks stands for. *)
Definition encrypt_chunk (sessionKey fileBuffer : list Z)
    (st : option (list EncryptedFileChunk) * World) (i : Z)
  : option (list EncryptedFileChunk) * World :=
  match fst st with
  | None => st
  | Some chunks_ =>
      let chunk := chunk_at fileBuffer i in
      let '(ivBytes, w') := getRandomValues 12 (snd st) in
      let encryptedArray := AesGcm.encrypt sessionKey ivBytes chunk in
      let tag_ := slice_last16 encryptedArray in
      let ciphertext_ := slice_but_last16 encryptedArray in
      match base64_of_spread (max_arguments w') ciphertext_,
            base64_of_spread (max_arguments w') ivBytes,
            base64_of_spread (max_arguments w') tag_ with
      | Some ciphertext64, Some iv64, Some tag64 =>
          (Some (chunks_ ++ [{| chunkIndex := i; ciphertext := ciphertext64;
                                iv := iv64; tag := tag64 |}]), w')
      | _, _, _ => (None, w')
      end
  end.

(** [encryptFile]: the encrypted file, or nothing when a spread has thrown.
    [Math.ceil(byteLength / CHUNK_SIZE)] is written with the integer
    division. *)
Definition encryptFile (file : File) (sessionKey : list Z) (w : World)
  : option EncryptedFile * World :=
  let fileBuffer := content file in
  let byteLength := Z.of_nat (length fileBuffer) in
  let totalChunks_ := (byteLength + CHUNK_SIZE - 1) / CHUNK_SIZE in
  let '(chunks_, w') :=
    fold_left (encrypt_chunk sessionKey fileBuffer)
      (map Z.of_nat (seq 0 (Z.to_nat totalChunks_))) (Some [], w) in
  (match chunks_ with
   | Some cs =>
       Some {| fileName := name file; fileSize := size file; mimeType := type file;
               chunks := cs; totalChunks := totalChunks_ |}
   | None => None
   end, w').

Inductive file_error := InvalidCharacterError | OperationError.

(** One turn of the loop of [decryptFile]. *)
Definition decrypt_chunk (sessionKey : list Z) (chunk : EncryptedFileChunk)
  : file_error + list Z :=
  match bytes_of_base64 (iv chunk), bytes_of_base64 (ciphertext chunk),
        bytes_of_base64 (tag chunk) with
  | Some ivBytes, Some ciphertextBytes, Some tagBytes =>
      match AesGcm.decrypt sessionKey ivBytes (ciphertextBytes ++ tagBytes) with
      | Some decrypted => inr decrypted
      | None => inl OperationError
      end
  | _, _, _ => inl InvalidCharacterError
  end.

(** The loop: it stops at the first chunk that throws. *)
Fixpoint decrypt_chunks (sessionKey : list Z) (cs : list EncryptedFileChunk)
  : file_error + list (list Z) :=
  match cs with
  | [] => inr []
  | chunk :: rest =>
      match decrypt_chunk sessionKey chunk with
      | inl e => inl e
      | inr decrypted =>
          match decrypt_chunks sessionKey rest with
          | inl e => inl e
          | inr decryptedChunks => inr (decrypted :: decryptedChunks)
          end
      end
  end.

(** [decryptFile]: the chunks sorted by [chunkIndex], decrypted one by one and
    joined. *)
Definition decryptFile (encryptedFile : EncryptedFile) (sessionKey : list Z)
  : file_error + Blob :=
  match decrypt_chunks sessionKey (JsArray.sort_by chunkIndex (chunks encryptedFile)) with
  | inl e => inl e
  | inr decryptedChunks =>
      inr {| blob_bytes := concat decryptedChunks;
             blob_type := normalize_type (mimeType encryptedFile) |}
  end.

End FileEncryption.
(** ** client/src/crypto/keyExchange.ts: confirmation, the two key stores and
    the handling of a response *)

Module KeyExchangeClient.
Import Js Encoding KeyExchange.

(** [sendKeyConfirmation], in an engine that takes [max_arguments] arguments
    in a call ([None] stands for the [RangeError] of the spread).
    [sessionKey] is a parameter of the function and is not read. [Date.now()]
    is read twice: [t1] goes into the string that is hashed, [t2] is the
    timestamp of the message. *)
Definition sendKeyConfirmation (max_arguments : Z) (sessionKey : list Z)
    (recipientId myUserId : jsstring) (t1 t2 : Z) : option KeyExchangeMessage :=
  let confirmation :=
    lit "KEY-CONFIRMED-" ++ myUserId ++ lit "-" ++ recipientId ++ lit "-"
      ++ number_to_string t1 in
  let confirmationBytes := text_encode confirmation in
  let hashArray := Sha256.sha256 confirmationBytes in
  match base64_of_spread max_arguments hashArray with
  | None => None
  | Some confirmationHash_ =>
      Some {| type := Confirm; fromUserId := myUserId; toUserId := recipientId;
              publicKey := []; signature := None; timestamp := t2;
              confirmationHash := Some confirmationHash_ |}
  end.

(** A value of [sessionKeys]; the [CryptoKey] is given by its raw bytes. *)
Record SessionKey := {
  key : list Z;
  userId : jsstring;
  establishedAt : Z
}.

Abbreviation sessions := (gmap jsstring SessionKey).

(** [storeSessionKey] at time [now] *)
Definition storeSessionKey (userId_ : jsstring) (key_ : list Z) (now : Z)
    (sessionKeys : sessions) : sessions :=
  <[userId_ := {| key := key_; userId := userId_; establishedAt := now |}]> sessionKeys.

(** [getSessionKey] at time [now]: the key or [null], and the map afterwards. *)
Definition getSessionKey (userId_ : jsstring) (now : Z) (sessionKeys : sessions)
  : option (list Z) * sessions :=
  match sessionKeys !! userId_ with
  | None => (None, sessionKeys)
  | Some session =>
      let oneHour := 60 * 60 * 1000 in
      if oneHour <? now - establishedAt session
      then (None, delete userId_ sessionKeys)
      else (Some (key session), sessionKeys)
  end.

(** [clearSessionKey] *)
Definition clearSessionKey (userId_ : jsstring) (sessionKeys : sessions) : sessions :=
  delete userId_ sessionKeys.

Section EcdhKeyPairs.

(** The [CryptoKeyPair] objects, whatever they are. *)
Variable CryptoKeyPair : Type.

(** A value of [ecdhKeyPairs]. *)
Record StoredPair := {
  keyPair : CryptoKeyPair;
  exchangeId : jsstring;
  createdAt : Z
}.

(** [storeEcdhKeyPair] at time [now]; it also sets the timer below for ten
    minutes later. *)
Definition storeEcdhKeyPair (exchangeId_ : jsstring) (keyPair_ : CryptoKeyPair) (now : Z)
    (ecdhKeyPairs : gmap jsstring StoredPair) : gmap jsstring StoredPair :=
  <[exchangeId_ := {| keyPair := keyPair_; exchangeId := exchangeId_; createdAt := now |}]>
    ecdhKeyPairs.

(** The callback of the [setTimeout] of [storeEcdhKeyPair]. *)
Definition cleanUp (exchangeId_ : jsstring) (ecdhKeyPairs : gmap jsstring StoredPair)
  : gmap jsstring StoredPair :=
  delete exchangeId_ ecdhKeyPairs.

(** [getEcdhKeyPair] at time [now] *)
Definition getEcdhKeyPair (exchangeId_ : jsstring) (now : Z)
    (ecdhKeyPairs : gmap jsstring StoredPair)
  : option CryptoKeyPair * gmap jsstring StoredPair :=
  match ecdhKeyPairs !! exchangeId_ with
  | None => (None, ecdhKeyPairs)
  | Some stored =>
      let tenMinutes := 10 * 60 * 1000 in
      if tenMinutes <? now - createdAt stored
      then (None, delete exchangeId_ ecdhKeyPairs)
      else (Some (keyPair stored), ecdhKeyPairs)
  end.

(** [clearEcdhKeyPair] *)
Definition clearEcdhKeyPair (exchangeId_ : jsstring)
    (ecdhKeyPairs : gmap jsstring StoredPair) : gmap jsstring StoredPair :=
  delete exchangeId_ ecdhKeyPairs.

End EcdhKeyPairs.

Section Response.

(** The keys of Web Crypto and the three operations on them that
    [handleKeyExchangeResponse] calls. [verify] is RSA-PSS verification with a
    salt of 32 bytes: it answers, or throws with a message. [importKey] reads
    an ECDH public key in SPKI form and [deriveBits] derives 256 bits; each may
    throw. *)
Variables PrivateKey PublicKey EcdhPrivateKey EcdhPublicKey : Type.
Variable verify : PublicKey -> list Z -> list Z -> jsstring + bool.
Variable importKey : list Z -> option EcdhPublicKey.
Variable deriveBits : EcdhPublicKey -> EcdhPrivateKey -> option (list Z).




End Response.

End KeyExchangeClient.
(** ** server/routes/keyExchange.js: the two listings *)

Module KeyExchangeListing.
Import Js KeyExchangeRoutes.

(** An element of the array [GET /pending/:userId] answers with. *)
Record PendingEntry := {
  p_fromUserId : jsstring;
  p_toUserId : jsstring;
  p_publicKey : jsstring;
  p_signature : jsstring;
  p_timestamp : option Z;
  p_createdAt : Z
}.

(** An element of the array [GET /responses/:userId] answers with. *)
Record ResponseEntry := {
  r_originalPublicKey : jsstring;
  r_originalSignature : jsstring;
  r_responsePublicKey : jsstring;
  r_responseSignature : jsstring;
  r_responseTimestamp : option Z;
  r_fromUserId : jsstring;
  r_toUserId : jsstring
}.

(** [exchange.responsePublicKey] as a condition: [undefined] until a response
    is stored. *)
Definition has_response (exchange : Exchange) : bool :=
  truthy_opt truthy_string (responsePublicKey <$> response exchange).

(** The filter of [/pending/:userId], the authenticated user being [me]. *)
Definition pending_for (me userId : jsstring) (exchange : Exchange) : bool :=
  bool_decide (toUserId exchange = me) && bool_decide (fromUserId exchange = userId)
  && negb (has_response exchange).

Definition pending_entry (exchange : Exchange) : PendingEntry :=
  {| p_fromUserId := fromUserId exchange; p_toUserId := toUserId exchange;
     p_publicKey := publicKey exchange; p_signature := signature exchange;
     p_timestamp := timestamp exchange; p_createdAt := createdAt exchange |}.

(** [GET /pending/:userId]: the exchanges listed, by their ids. The order of
    the array, which is the order of insertion into the [Map], is not part of
    the model. *)
Definition pending (me userId : jsstring) (pendingExchanges : table)
  : gmap jsstring PendingEntry :=
  pending_entry <$> filter (fun kv => pending_for me userId kv.2 = true) pendingExchanges.

Definition EXCHANGE_EXPIRY : Z := 5 * 60 * 1000.

(** [now - exchange.createdAt > EXCHANGE_EXPIRY] *)
Definition is_expired (now : Z) (exchange : Exchange) : bool :=
  EXCHANGE_EXPIRY <? now - createdAt exchange.

(** The filter of [/responses/:userId] on an exchange that has not expired. *)
Definition response_for (me userId : jsstring) (exchange : Exchange) : bool :=
  bool_decide (fromUserId exchange = me) && bool_decide (toUserId exchange = userId)
  && has_response exchange.

Definition response_entry (exchange : Exchange) : ResponseEntry :=
  {| r_originalPublicKey := publicKey exchange;
     r_originalSignature := signature exchange;
     r_responsePublicKey := default [] (responsePublicKey <$> response exchange);
     r_responseSignature := default [] (responseSignature <$> response exchange);
     r_responseTimestamp := response exchange ≫= responseTimestamp;
     r_fromUserId := fromUserId exchange; r_toUserId := toUserId exchange |}.

(** [GET /responses/:userId] at time [now]: the exchanges listed, by their
    ids, and the table afterwards. The filter deletes every expired exchange it
    comes across, whoever its peers are. The order of the array is not part of
    the model. *)
Definition responses (me userId : jsstring) (now : Z) (pendingExchanges : table)
  : gmap jsstring ResponseEntry * table :=
  let live := filter (fun kv => is_expired now kv.2 = false) pendingExchanges in
  (response_entry <$> filter (fun kv => response_for me userId kv.2 = true) live, live).







End KeyExchangeListing.
(** ** server/routes/messages.js: the two listings *)

Module MessageQueries.
Import Js MessageModel.

(** [GET /conversation/:userId] for the authenticated user [me]:
    [find({ $or: [...] }).sort({ createdAt: 1 }).limit(100)]. Messages created
    at the same millisecond are left in the order of the store, which MongoDB
    does not promise. *)
Definition conversation (me userId : jsstring) (db : list Message) : list Message :=
  firstn 100 (JsArray.sort_by createdAt (List.filter (between me userId) db)).

(** The query of [GET /conversations]:
    [{ $or: [{ senderId: me }, { recipientId: me }] }]. *)
Definition involves (me : jsstring) (msg : Message) : bool :=
  bool_decide (senderId msg = me) || bool_decide (recipientId msg = me).

(** The id the loop adds for a message. *)
Definition partner (me : jsstring) (msg : Message) : jsstring :=
  if bool_decide (senderId msg = me) then recipientId msg else senderId msg.

(** [Set.prototype.add]: a [Set] keeps the order of first insertion. *)
Definition set_add (s : list jsstring) (x : jsstring) : list jsstring :=
  if existsb (fun y => bool_decide (y = x)) s then s else s ++ [x].

(** [GET /conversations]: [Array.from(userIds)]. *)
Definition conversations (me : jsstring) (db : list Message) : list jsstring :=
  fold_left (fun userIds msg => set_add userIds (partner me msg))
    (List.filter (involves me) db) [].

End MessageQueries.
(** ** client/src/services/messageService.ts and the sending step of the chat
    window *)

Module ChatWindow.
Import Js MessageEncryption.

(** [messageService.send(recipientId, encrypted)]: the body
    [{ recipientId, ...encrypted }] of [POST /messages/send], as the relay reads
    it under the token of [userId]. *)
Definition messageService_send (userId recipientId : jsstring)
    (encrypted : EncryptedMessage) : MessagesRoute.SendRequest :=
  {| MessagesRoute.userId := userId;
     MessagesRoute.recipientId := Some recipientId;
     MessagesRoute.ciphertext := Some (ciphertext encrypted);
     MessagesRoute.iv := Some (iv encrypted);
     MessagesRoute.tag := Some (tag encrypted);
     MessagesRoute.timestamp := timestamp encrypted;
     MessagesRoute.sequenceNumber := sequenceNumber encrypted;
     MessagesRoute.nonce := nonce encrypted |}.

(** The sending step of [handleSendMessage], once it holds a session key:
    [encryptMessage(message, sessionKey, `${user.id}-${currentChat.id}`)], then
    [messageService.send(currentChat.id, encrypted)]. Nothing is sent when
    [encryptMessage] throws. *)
Definition send_message (userId chatId message : jsstring) (sessionKey : list Z)
    (w : World) (cs : counters)
  : option MessagesRoute.SendRequest * World * counters :=
  match encryptMessage message sessionKey (userId ++ lit "-" ++ chatId) w cs with
  | (inr encrypted, w', cs') => (Some (messageService_send userId chatId encrypted), w', cs')
  | (inl _, w', cs') => (None, w', cs')
  end.

End ChatWindow.
(** ** Runs of the relay

    What a run of events lets through the gate for one conversation, and runs
    of the [/messages/send] route over gate and store. In a run every request
    is handled to its answer before the next one arrives. *)

Module RelayRuns.
Import Js ReplayProtection.

(** The events a running relay sees: the ids of its requests and of its store
    are ObjectIds. *)
Definition event_well_formed (e : event) : bool :=
  match e with
  | Sweep _ => true
  | Arrive db _ req => GateLayers.ids_well_formed req && GateLayers.store_well_formed db
  end.

Definition send_well_formed (req : MessagesRoute.SendRequest) : bool :=
  GateLayers.ids_well_formed (MessagesRoute.gate_request req).

(** The request is between [a] and [b], in one direction or the other. *)
Definition concerns (a b : jsstring) (req : Request) : bool :=
  (bool_decide (userId req = a) && bool_decide (recipientId req = Some b))
  || (bool_decide (userId req = b) && bool_decide (recipientId req = Some a)).

(** The sequence number an event brings through the gate for the conversation
    between [a] and [b], if any. *)
Definition accepted_here (a b : jsstring) (g : Gate) (e : event) : list Z :=
  match e with
  | Arrive db now req =>
      match fst (replayProtection g db now req), sequenceNumber req with
      | Next, Some q => if concerns a b req then [q] else []
      | _, _ => []
      end
  | Sweep _ => []
  end.

(** The sequence numbers the gate lets through for the conversation between
    [a] and [b] over a run, in the order of their arrival. *)
Fixpoint accepted_sequences (a b : jsstring) (es : list event) (g : Gate) : list Z :=
  match es with
  | [] => []
  | e :: es' => accepted_here a b g e ++ accepted_sequences a b es' (handle g e)
  end.

(** One request to [POST /messages/send] at its time, on gate and store. *)
Definition send_step (s : Gate * list MessageModel.Message)
    (x : Z * MessagesRoute.SendRequest) : Gate * list MessageModel.Message :=
  let '(_, g', db') := MessagesRoute.send (fst s) (snd s) (fst x) (snd x) in (g', db').

Definition send_run (xs : list (Z * MessagesRoute.SendRequest))
    (s : Gate * list MessageModel.Message) : Gate * list MessageModel.Message :=
  fold_left send_step xs s.

(** The sequence numbers stored for the conversation between [a] and [b], in
    the order of insertion. *)
Definition conversation_sequences (a b : jsstring) (db : list MessageModel.Message)
  : list Z :=
  map MessageModel.sequenceNumber (List.filter (MessageModel.between a b) db).

(** What the schema guarantees of a stored message. *)
Definition well_stored (m : MessageModel.Message) : bool :=
  MessageModel.object_id (MessageModel.senderId m)
  && MessageModel.object_id (MessageModel.recipientId m)
  && (1 <=? MessageModel.sequenceNumber m)
  && MessageModel.nonce_valid (MessageModel.nonce m)
  && truthy_string (MessageModel.ciphertext m)
  && truthy_string (MessageModel.iv m)
  && truthy_string (MessageModel.tag m).

(** What the store keeps: no nonce twice, every message as the schema wants
    it, and the sequence numbers of every conversation increasing in the order
    of insertion. *)
Definition store_ok (db : list MessageModel.Message) : Prop :=
  NoDup (map MessageModel.nonce db)
  /\ Forall (fun m => well_stored m = true) db
  /\ forall a b, StronglySorted Z.lt (conversation_sequences a b db).

End RelayRuns.
(** ** More sample inputs *)

Module MoreSamples.
Import Js Samples.

(** A request of alice to bob that lacks its ciphertext, and the same request
    with the ciphertext in place. *)
Definition request_without_ciphertext : MessagesRoute.SendRequest :=
  {| MessagesRoute.userId := alice; MessagesRoute.recipientId := Some bob;
     MessagesRoute.ciphertext := None;
     MessagesRoute.iv := Some (lit "AAAAAAAAAAAAAAAA");
     MessagesRoute.tag := Some (lit "AAAAAAAAAAAAAAAAAAAAAA==");
     MessagesRoute.timestamp := Some clock;
     MessagesRoute.sequenceNumber := Some 1;
     MessagesRoute.nonce := Some sample_nonce |}.

Definition request_completed : MessagesRoute.SendRequest :=
  {| MessagesRoute.userId := alice; MessagesRoute.recipientId := Some bob;
     MessagesRoute.ciphertext := Some (lit "Y2lwaGVy");
     MessagesRoute.iv := Some (lit "AAAAAAAAAAAAAAAA");
     MessagesRoute.tag := Some (lit "AAAAAAAAAAAAAAAAAAAAAA==");
     MessagesRoute.timestamp := Some clock;
     MessagesRoute.sequenceNumber := Some 1;
     MessagesRoute.nonce := Some sample_nonce |}.

Definition gate_after_incomplete_request : ReplayProtection.Gate :=
  snd (ReplayProtection.replayProtection ReplayProtection.empty_gate [] clock
         (MessagesRoute.gate_request request_without_ciphertext)).

(** Bob's browser: another clock and another random source. *)
Definition world_of_bob : MessageEncryption.World :=
  {| MessageEncryption.now := clock + 1000;
     MessageEncryption.random := fun i => Z.of_nat i + 7;
     MessageEncryption.drawn := 0;
     MessageEncryption.max_arguments := 65536 |}.

(** The first message of alice to bob and the first message of bob to alice,
    each from fresh counters. *)
Definition alice_request : MessagesRoute.SendRequest :=
  default request_completed
    (fst (fst (ChatWindow.send_message alice bob (lit "hello") session_key world0 ∅))).

Definition bob_request : MessagesRoute.SendRequest :=
  default request_completed
    (fst (fst (ChatWindow.send_message bob alice (lit "hi") session_key world_of_bob ∅))).


(** A file of three bytes. *)
Definition sample_file : FileEncryption.File :=
  {| FileEncryption.name := lit "note.txt"; FileEncryption.type := lit "text/plain";
     FileEncryption.content := [104; 105; 33] |}.

(** A file of 70000 bytes, more than the engine of [world0] takes arguments. *)
Definition large_file : FileEncryption.File :=
  {| FileEncryption.name := lit "photo.jpg"; FileEncryption.type := lit "image/jpeg";
     FileEncryption.content := repeat 0 (Z.to_nat 70000) |}.

(** Two chunks, and a file record that holds them in either order. *)
Definition chunk0 : FileEncryption.EncryptedFileChunk :=
  {| FileEncryption.chunkIndex := 0; FileEncryption.ciphertext := lit "AAAA";
     FileEncryption.iv := lit "AAAAAAAAAAAAAAAA";
     FileEncryption.tag := lit "AAAAAAAAAAAAAAAAAAAAAA==" |}.

Definition chunk1 : FileEncryption.EncryptedFileChunk :=
  {| FileEncryption.chunkIndex := 1; FileEncryption.ciphertext := lit "BBBB";
     FileEncryption.iv := lit "AAAAAAAAAAAAAAAA";
     FileEncryption.tag := lit "AAAAAAAAAAAAAAAAAAAAAA==" |}.

Definition file_of (cs : list FileEncryption.EncryptedFileChunk)
  : FileEncryption.EncryptedFile :=
  {| FileEncryption.fileName := lit "note.txt"; FileEncryption.fileSize := 6;
     FileEncryption.mimeType := lit "text/plain"; FileEncryption.chunks := cs;
     FileEncryption.totalChunks := 2 |}.

End MoreSamples.
(** * Test vectors of the primitives *)

Section TestVectors.
Import Js.

(** FIPS 180-4, the one-block message. *)
Example sha256_abc :
  Sha256.sha256 (lit "abc")
  = hex "ba7816bf8f01cfea414140de5dae2223b00361a396177a9cb410ff61f20015ad".
Proof. vm_compute. reflexivity. Qed.

(** RFC 4231, test case 2. *)
Example hmac_sha256_jefe :
  Sha256.hmac (lit "Jefe") (lit "what do ya want for nothing?")
  = hex "5bdcc146bf60754e6a042426089575c75a003f089d2739839dec58b964ec3843".
Proof. vm_compute. reflexivity. Qed.

(** RFC 5869, test case 1. *)
Example hkdf_sha256_rfc5869 :
  Hkdf.hkdf_sha256 (hex "000102030405060708090a0b0c")
    (hex "0b0b0b0b0b0b0b0b0b0b0b0b0b0b0b0b0b0b0b0b0b0b")
    (hex "f0f1f2f3f4f5f6f7f8f9") 42
  = hex "3cb25f25faacd57a90434f64d0362f2a2d2d0a90cf1a5a4c5db02d56ecc4c5bf34007208d5b887185865".
Proof. vm_compute. reflexivity. Qed.

(** FIPS 197, appendix C.3. *)
Example aes256_fips197 :
  AesGcm.cipher (hex "000102030405060708090a0b0c0d0e0f101112131415161718191a1b1c1d1e1f")
    (hex "00112233445566778899aabbccddeeff")
  = hex "8ea2b7ca516745bfeafc49904b496089".
Proof. vm_compute. reflexivity. Qed.

(** The GCM specification, test case 15: a 256-bit key, four blocks. *)
Example aes256_gcm_case15 :
  AesGcm.encrypt (hex "feffe9928665731c6d6a8f9467308308feffe9928665731c6d6a8f9467308308")
    (hex "cafebabefacedbaddecaf888")
    (hex "d9313225f88406e5a55909c5aff5269a86a7a9531534f7da2e4c303d8a318a721c3c0c95956809532fcf0e2449a6b525b16aedf5aa0de657ba637b391aafd255")
  = hex "522dc1f099567d07f47f37a32a84427d643a8cdcbfe5c0c97598a2bd2555d1aa8cb08e48590dbb3da7b08b1056828838c5f61e6393ba7a0abcc9f662898015adb094dac5d93471bdec1a502270e3cc6c".
Proof. vm_compute. reflexivity. Qed.

End TestVectors.

(** * Facts about the platform *)

(** Linear arithmetic with divisions and remainders by constants. *)
Ltac div_lia :=
  unfold Encoding.byte, Encoding.sextet in *; Z.to_euclidean_division_equations; lia.

(** ** SHA-256 and HKDF: the sizes of the outputs *)

Section DigestSizes.
Import Sha256 Hkdf.

Lemma be_bytes_length (n : nat) (x : Z) : length (be_bytes n x) = n.
Proof. induction n as [|n IH]; simpl; [reflexivity|]. rewrite IH. reflexivity. Qed.

Lemma round_length (st : list Z) (kw : Z * Z) :
  length st = 8%nat -> length (round st kw) = 8%nat.
Proof.
  intros H. do 9 (destruct st as [|? st]; try discriminate). reflexivity.
Qed.

Lemma rounds_length (kws : list (Z * Z)) (st : list Z) :
  length st = 8%nat -> length (fold_left round kws st) = 8%nat.
Proof.
  revert st. induction kws as [|kw kws IH]; intros st H; simpl; [exact H|].
  apply IH, round_length, H.
Qed.

Lemma compress_length (h block : list Z) :
  length h = 8%nat -> length (compress h block) = 8%nat.
Proof.
  intros H. unfold compress. rewrite length_map, length_combine, rounds_length by exact H.
  rewrite H. reflexivity.
Qed.

Lemma blocks_length (fuel : nat) (h bs : list Z) :
  length h = 8%nat -> length (blocks fuel h bs) = 8%nat.
Proof.
  revert h bs. induction fuel as [|fuel IH]; intros h bs H; simpl; [exact H|].
  destruct bs; [exact H|]. apply IH, compress_length, H.
Qed.

Lemma concat_be4_length (ws : list Z) :
  length (concat (map (be_bytes 4) ws)) = (4 * length ws)%nat.
Proof.
  induction ws as [|w ws IH]; [reflexivity|].
  cbn [map concat length]. rewrite length_app, be_bytes_length, IH. simpl. lia.
Qed.

Lemma sha256_length (msg : list Z) : length (sha256 msg) = 32%nat.
Proof.
  unfold sha256. rewrite concat_be4_length, blocks_length; reflexivity.
Qed.

Lemma hmac_length (key msg : list Z) : length (hmac key msg) = 32%nat.
Proof. apply sha256_length. Qed.

Lemma hkdf_sha256_length_32 (salt ikm info : list Z) :
  length (hkdf_sha256 salt ikm info 32) = 32%nat.
Proof.
  unfold hkdf_sha256, expand. change ((32 + 31) / 32)%nat with 1%nat.
  cbn [expand_blocks]. rewrite app_nil_r, firstn_all2; rewrite hmac_length; lia.
Qed.

End DigestSizes.

(** ** Base 64 *)

Section Base64.
Import Js Encoding.

Lemma list_ind3 {A} (P : list A -> Prop) :
  P [] -> (forall a, P [a]) -> (forall a b, P [a; b]) ->
  (forall a b c t, P t -> P (a :: b :: c :: t)) ->
  forall l, P l.
Proof.
  intros H0 H1 H2 H3.
  assert (H : forall l, P l /\ (forall a, P (a :: l)) /\ (forall a b, P (a :: b :: l))).
  { induction l as [|x l (IH0 & IH1 & IH2)]; [auto|].
    split; [apply IH1|]. split; [intros; apply IH2|]. intros a b. apply H3, IH0. }
  intros l. apply H.
Qed.

Lemma b64_index_char (i : Z) : sextet i -> b64_index (b64_char i) = Some i.
Proof.
  unfold sextet, b64_char, b64_index. intros Hi.
  repeat match goal with
         | |- context [if ?a <? ?b then _ else _] =>
             destruct (Z.ltb_spec a b)
         | |- context [if ?a =? ?b then _ else _] =>
             destruct (Z.eqb_spec a b)
         | |- context [(?a <=? ?b) && _] =>
             destruct (Z.leb_spec a b); simpl
         | |- context [if ?a <=? ?b then _ else _] =>
             destruct (Z.leb_spec a b); simpl
         end; try lia; try (f_equal; lia).
Qed.

Lemma b64_char_solid (i : Z) :
  sextet i -> ascii_whitespace (b64_char i) = false /\ b64_char i <> 61.
Proof.
  unfold sextet, b64_char, ascii_whitespace. intros Hi.
  repeat match goal with
         | |- context [if ?a <? ?b then _ else _] => destruct (Z.ltb_spec a b)
         | |- context [if ?a =? ?b then _ else _] => destruct (Z.eqb_spec a b)
         end;
    (split; [|lia]);
    repeat (apply orb_false_iff; split); apply Z.eqb_neq; lia.
Qed.

Lemma sextets_range (bs : list Z) : bytes bs -> Forall sextet (b64_sextets bs).
Proof.
  unfold bytes. induction bs using list_ind3; intros H; simpl.
  - constructor.
  - inversion H; subst. repeat (constructor; [div_lia|]). constructor.
  - inversion H as [|? ? Ha H']; subst. inversion H' as [|? ? Hb _]; subst.
    repeat (constructor; [div_lia|]). constructor.
  - inversion H as [|? ? Ha H']; subst. inversion H' as [|? ? Hb H'']; subst.
    inversion H'' as [|? ? Hc Ht]; subst.
    repeat (constructor; [div_lia|]). apply IHbs, Ht.
Qed.

Lemma octets_sextets (bs : list Z) : bytes bs -> b64_octets (b64_sextets bs) = bs.
Proof.
  unfold bytes. induction bs using list_ind3; intros H; simpl.
  - reflexivity.
  - inversion H; subst. f_equal. div_lia.
  - inversion H as [|? ? Ha H']; subst. inversion H' as [|? ? Hb _]; subst.
    f_equal; [div_lia|]. f_equal. div_lia.
  - inversion H as [|? ? Ha H']; subst. inversion H' as [|? ? Hb H'']; subst.
    inversion H'' as [|? ? Hc Ht]; subst.
    f_equal; [div_lia|]. f_equal; [div_lia|]. f_equal; [div_lia|]. apply IHbs, Ht.
Qed.

(** The lengths of the two parts of the encoding. *)
Lemma sextets_length (bs : list Z) :
  exists k : nat,
    ((length bs = 3 * k)%nat /\ (length (b64_sextets bs) = 4 * k)%nat
     /\ b64_padding (length bs) = [])
    \/ ((length bs = 3 * k + 1)%nat /\ (length (b64_sextets bs) = 4 * k + 2)%nat
        /\ b64_padding (length bs) = [61; 61])
    \/ ((length bs = 3 * k + 2)%nat /\ (length (b64_sextets bs) = 4 * k + 3)%nat
        /\ b64_padding (length bs) = [61]).
Proof.
  induction bs using list_ind3.
  - exists 0%nat. left. repeat split.
  - exists 0%nat. right. left. repeat split.
  - exists 0%nat. right. right. repeat split.
  - destruct IHbs as (k & IH). exists (S k).
    assert (Hp : b64_padding (length (a :: b :: c :: bs)) = b64_padding (length bs)).
    { unfold b64_padding. simpl length.
      replace (S (S (S (length bs)))) with (length bs + 1 * 3)%nat by lia.
      rewrite Nat.Div0.mod_add. reflexivity. }
    rewrite Hp. simpl length.
    destruct IH as [(H1 & H2 & H3)|[(H1 & H2 & H3)|(H1 & H2 & H3)]];
      [left|right; left|right; right]; repeat split; try lia; exact H3.
Qed.

Lemma filter_no_whitespace (s : jsstring) :
  Forall (fun c => ascii_whitespace c = false) s ->
  List.filter (fun c => negb (ascii_whitespace c)) s = s.
Proof.
  induction 1 as [|c s Hc _ IH]; simpl; [reflexivity|]. rewrite Hc, IH. reflexivity.
Qed.

Lemma rev_head_not_pad (x : jsstring) :
  Forall (fun c => c <> 61) x ->
  match rev x with c :: _ => c <> 61 | [] => True end.
Proof.
  intros H. destruct (rev x) as [|c r] eqn:Hr; [exact I|].
  rewrite Forall_forall in H. apply H. apply list_elem_of_In, in_rev.
  rewrite Hr. left. reflexivity.
Qed.

Lemma strip_padding_app (x pad : jsstring) :
  Forall (fun c => c <> 61) x ->
  pad = [] \/ pad = [61] \/ pad = [61; 61] ->
  strip_padding (x ++ pad) = x.
Proof.
  intros Hx Hpad. pose proof (rev_head_not_pad x Hx) as Hh.
  unfold strip_padding. rewrite rev_app_distr.
  destruct Hpad as [->|[->| ->]]; simpl.
  - rewrite app_nil_r. destruct (rev x) as [|a [|b r]] eqn:Hr; [reflexivity| |].
    + apply Z.eqb_neq in Hh. rewrite Hh. reflexivity.
    + apply Z.eqb_neq in Hh. rewrite Hh. reflexivity.
  - destruct (rev x) as [|b r] eqn:Hr.
    + simpl. apply (f_equal (@rev Z)) in Hr. rewrite rev_involutive in Hr. symmetry. exact Hr.
    + apply Z.eqb_neq in Hh. rewrite Hh. simpl.
      apply (f_equal (@rev Z)) in Hr. rewrite rev_involutive in Hr. simpl in Hr.
      symmetry. exact Hr.
  - apply rev_involutive.
Qed.

Lemma mapM_index_char (l : list Z) :
  Forall sextet l -> mapM b64_index (map b64_char l) = Some l.
Proof.
  induction 1 as [|i l Hi _ IH]; [reflexivity|].
  cbn [map mapM]. rewrite (b64_index_char i Hi). simpl. rewrite IH. reflexivity.
Qed.

(** [atob] undoes the encoding of a sequence of bytes. *)
Lemma atob_base64_encode (bs : list Z) : bytes bs -> atob (base64_encode bs) = Some bs.
Proof.
  intros Hb. pose proof (sextets_range bs Hb) as Hs.
  assert (Hbody : Forall (fun c => ascii_whitespace c = false /\ c <> 61)
                    (map b64_char (b64_sextets bs))).
  { apply Forall_map. eapply Forall_impl; [exact Hs|]. intros i Hi.
    apply b64_char_solid, Hi. }
  destruct (sextets_length bs) as (k & Hlen).
  assert (Hpad : b64_padding (length bs) = [] \/ b64_padding (length bs) = [61]
                 \/ b64_padding (length bs) = [61; 61]) by (clear -Hlen; intuition).
  unfold atob, base64_encode.
  rewrite filter_no_whitespace.
  2:{ apply Forall_app. split.
      - eapply Forall_impl; [exact Hbody|]. intros c [H _]. exact H.
      - destruct Hpad as [->|[->| ->]]; repeat constructor. }
  assert (Hmod : Z.of_nat (length (map b64_char (b64_sextets bs) ++ b64_padding (length bs)))
                 mod 4 = 0).
  { rewrite length_app, length_map.
    destruct Hlen as [(_ & -> & ->)|[(_ & -> & ->)|(_ & -> & ->)]]; simpl length;
      Z.to_euclidean_division_equations; lia. }
  rewrite Hmod. simpl.
  rewrite strip_padding_app; [|eapply Forall_impl; [exact Hbody|]; intros c [_ H]; exact H
                              |exact Hpad].
  replace (Z.of_nat (length (map b64_char (b64_sextets bs))) mod 4 =? 1) with false.
  2:{ symmetry. apply Z.eqb_neq. rewrite length_map.
      destruct Hlen as [(_ & -> & _)|[(_ & -> & _)|(_ & -> & _)]];
        Z.to_euclidean_division_equations; lia. }
  rewrite mapM_index_char by exact Hs. simpl. rewrite octets_sextets by exact Hb.
  reflexivity.
Qed.

(** On an array of bytes [btoa(String.fromCharCode(...bytes))] does not throw
    and yields the encoding. *)
Lemma btoa_from_char_codes (bs : list Z) :
  bytes bs -> btoa (from_char_codes bs) = Some (base64_of_bytes bs).
Proof.
  intros Hb.
  assert (Hid : from_char_codes bs = bs).
  { unfold from_char_codes. induction Hb as [|b t Hbyte _ IH]; [reflexivity|].
    cbn [map]. rewrite IH, Z.mod_small; [reflexivity|unfold byte in Hbyte; lia]. }
  rewrite Hid. unfold btoa, base64_of_bytes.
  replace (forallb (fun c => (0 <=? c) && (c <? 256)) bs) with true; [reflexivity|].
  symmetry. clear Hid. induction Hb as [|b t Hbyte _ IH]; [reflexivity|].
  cbn [forallb]. rewrite IH. unfold byte in Hbyte.
  apply andb_true_iff. split; [|reflexivity].
  apply andb_true_iff. split; [apply Z.leb_le|apply Z.ltb_lt]; lia.
Qed.

(** The spread takes an array no longer than the engine's limit, and throws
    on a longer one. *)
Lemma spread_within (limit : Z) (bs : list Z) :
  Z.of_nat (length bs) <= limit -> base64_of_spread limit bs = Some (base64_of_bytes bs).
Proof.
  intros H. unfold base64_of_spread.
  replace (Z.of_nat (length bs) <=? limit) with true by (symmetry; apply Z.leb_le; lia).
  reflexivity.
Qed.

Lemma spread_beyond (limit : Z) (bs : list Z) :
  limit < Z.of_nat (length bs) -> base64_of_spread limit bs = None.
Proof.
  intros H. unfold base64_of_spread.
  replace (Z.of_nat (length bs) <=? limit) with false by (symmetry; apply Z.leb_gt; lia).
  reflexivity.
Qed.

End Base64.

(** ** UTF-8 *)

Section Utf8.
Import Js Encoding.

Lemma utf8_lead_1 (b : Z) : 0 <= b <= 0x7F -> utf8_lead b = inl b.
Proof.
  intros H. unfold utf8_lead.
  replace ((0 <=? b) && (b <=? 0x7F)) with true; [reflexivity|].
  symmetry. apply andb_true_iff. split; apply Z.leb_le; lia.
Qed.

Lemma utf8_lead_2 (b : Z) :
  0xC2 <= b <= 0xDF -> utf8_lead b = inr (Pending (b - 0xC0) 1 0x80 0xBF).
Proof.
  intros H. unfold utf8_lead.
  replace (b <=? 0x7F) with false by (symmetry; apply Z.leb_gt; lia).
  rewrite andb_false_r.
  replace ((0xC2 <=? b) && (b <=? 0xDF)) with true; [reflexivity|].
  symmetry. apply andb_true_iff. split; apply Z.leb_le; lia.
Qed.

Lemma utf8_lead_3 (b : Z) :
  0xE0 <= b <= 0xEF ->
  utf8_lead b = inr (Pending (b - 0xE0) 2 (if b =? 0xE0 then 0xA0 else 0x80)
                       (if b =? 0xED then 0x9F else 0xBF)).
Proof.
  intros H. unfold utf8_lead.
  replace (b <=? 0x7F) with false by (symmetry; apply Z.leb_gt; lia).
  replace (b <=? 0xDF) with false by (symmetry; apply Z.leb_gt; lia).
  rewrite !andb_false_r.
  replace ((0xE0 <=? b) && (b <=? 0xEF)) with true; [reflexivity|].
  symmetry. apply andb_true_iff. split; apply Z.leb_le; lia.
Qed.

Lemma utf8_lead_4 (b : Z) :
  0xF0 <= b <= 0xF4 ->
  utf8_lead b = inr (Pending (b - 0xF0) 3 (if b =? 0xF0 then 0x90 else 0x80)
                       (if b =? 0xF4 then 0x8F else 0xBF)).
Proof.
  intros H. unfold utf8_lead.
  replace (b <=? 0x7F) with false by (symmetry; apply Z.leb_gt; lia).
  replace (b <=? 0xDF) with false by (symmetry; apply Z.leb_gt; lia).
  replace (b <=? 0xEF) with false by (symmetry; apply Z.leb_gt; lia).
  rewrite !andb_false_r.
  replace ((0xF0 <=? b) && (b <=? 0xF4)) with true; [reflexivity|].
  symmetry. apply andb_true_iff. split; apply Z.leb_le; lia.
Qed.

Lemma utf8_decode_lead (b : Z) (t : list Z) :
  utf8_decode None (b :: t)
  = match utf8_lead b with
    | inl cp => cp :: utf8_decode None t
    | inr p => utf8_decode (Some p) t
    end.
Proof. reflexivity. Qed.

Lemma utf8_decode_last (cp lo hi b : Z) (t : list Z) :
  lo <= b <= hi ->
  utf8_decode (Some (Pending cp 1 lo hi)) (b :: t)
  = (cp * 64 + (b - 0x80)) :: utf8_decode None t.
Proof.
  intros H. cbn [utf8_decode p_lo p_hi p_cp p_need].
  replace ((lo <=? b) && (b <=? hi)) with true; [reflexivity|].
  symmetry. apply andb_true_iff. split; apply Z.leb_le; lia.
Qed.

Lemma utf8_decode_more (cp lo hi b : Z) (n : nat) (t : list Z) :
  lo <= b <= hi ->
  utf8_decode (Some (Pending cp (S (S n)) lo hi)) (b :: t)
  = utf8_decode (Some (Pending (cp * 64 + (b - 0x80)) (S n) 0x80 0xBF)) t.
Proof.
  intros H. cbn [utf8_decode p_lo p_hi p_cp p_need].
  replace ((lo <=? b) && (b <=? hi)) with true; [reflexivity|].
  symmetry. apply andb_true_iff. split; apply Z.leb_le; lia.
Qed.

(** The decoder reads back the encoding of a scalar value. *)
Lemma utf8_decode_scalar (cp : Z) (rest : list Z) :
  scalar cp ->
  utf8_decode None (utf8_of_scalar cp ++ rest) = cp :: utf8_decode None rest.
Proof.
  intros [Hr Hs]. unfold utf8_of_scalar.
  destruct (Z.ltb_spec cp 0x80); [|destruct (Z.ltb_spec cp 0x800);
                                    [|destruct (Z.ltb_spec cp 0x10000)]].
  - cbn [app]. rewrite utf8_decode_lead, utf8_lead_1 by lia. reflexivity.
  - cbn [app]. rewrite utf8_decode_lead, utf8_lead_2 by div_lia.
    rewrite utf8_decode_last by div_lia. f_equal. div_lia.
  - cbn [app]. rewrite utf8_decode_lead, utf8_lead_3 by div_lia.
    rewrite utf8_decode_more.
    2:{ destruct (Z.eqb_spec (0xE0 + cp / 4096) 0xE0);
        destruct (Z.eqb_spec (0xE0 + cp / 4096) 0xED); div_lia. }
    rewrite utf8_decode_last by div_lia. f_equal. div_lia.
  - cbn [app]. rewrite utf8_decode_lead, utf8_lead_4 by div_lia.
    rewrite utf8_decode_more.
    2:{ destruct (Z.eqb_spec (0xF0 + cp / 262144) 0xF0);
        destruct (Z.eqb_spec (0xF0 + cp / 262144) 0xF4); div_lia. }
    rewrite utf8_decode_more by div_lia.
    rewrite utf8_decode_last by div_lia. f_equal. div_lia.
Qed.

Lemma utf8_decode_encode (cps : list Z) :
  Forall scalar cps -> utf8_decode None (concat (map utf8_of_scalar cps)) = cps.
Proof.
  induction 1 as [|cp cps Hc _ IH]; [reflexivity|].
  cbn [map concat]. rewrite utf8_decode_scalar by exact Hc. rewrite IH. reflexivity.
Qed.

Lemma utf8_of_scalar_bytes (cp : Z) : scalar cp -> bytes (utf8_of_scalar cp).
Proof.
  intros [Hr Hs]. unfold utf8_of_scalar, bytes.
  destruct (Z.ltb_spec cp 0x80); [|destruct (Z.ltb_spec cp 0x800);
                                    [|destruct (Z.ltb_spec cp 0x10000)]];
    repeat (constructor; [div_lia|]); constructor.
Qed.

Lemma strip_bom_other (a : Z) (l : list Z) : a <> 0xEF -> strip_bom (a :: l) = a :: l.
Proof.
  intros H. unfold strip_bom. destruct l as [|b [|c t]]; try reflexivity.
  replace (a =? 0xEF) with false by (symmetry; apply Z.eqb_neq; exact H). reflexivity.
Qed.

Lemma strip_bom_scalar (cp : Z) (rest : list Z) :
  scalar cp -> cp <> 0xFEFF ->
  strip_bom (utf8_of_scalar cp ++ rest) = utf8_of_scalar cp ++ rest.
Proof.
  intros [Hr Hs] Hne. unfold utf8_of_scalar.
  destruct (Z.ltb_spec cp 0x80); [|destruct (Z.ltb_spec cp 0x800);
                                    [|destruct (Z.ltb_spec cp 0x10000)]];
    cbn [app]; try (apply strip_bom_other; div_lia).
  unfold strip_bom.
  destruct (Z.eqb_spec (0xE0 + cp / 4096) 0xEF); [|reflexivity].
  destruct (Z.eqb_spec (0x80 + cp / 64 mod 64) 0xBB); [|reflexivity].
  destruct (Z.eqb_spec (0x80 + cp mod 64) 0xBF); [|reflexivity].
  exfalso. div_lia.
Qed.

Lemma surrogate_tests (c : Z) :
  is_high c = true \/ is_low c = true <-> 0xD800 <= c <= 0xDFFF.
Proof.
  unfold is_high, is_low. rewrite !andb_true_iff, !Z.leb_le. lia.
Qed.

(** On a well-formed string the scalar values are scalar values, and they
    give the string back. *)
Lemma to_scalars_well_formed (s : jsstring) :
  well_formed s = true ->
  Forall scalar (to_scalars s) /\ from_scalars (to_scalars s) = s.
Proof.
  remember (length s) as n eqn:Hn. revert s Hn.
  induction n as [n IH] using lt_wf_ind. intros s Hn Hwf.
  destruct s as [|c t]; [split; [constructor|reflexivity]|].
  cbn [well_formed] in Hwf. apply andb_true_iff in Hwf. destruct Hwf as [Hu Hwf].
  unfold code_unit in Hu. apply andb_true_iff in Hu. destruct Hu as [Hu0 Hu1].
  apply Z.leb_le in Hu0. apply Z.ltb_lt in Hu1.
  cbn [to_scalars]. destruct (is_high c) eqn:Hh.
  - destruct t as [|d t']; [discriminate|].
    apply andb_true_iff in Hwf. destruct Hwf as [Hl Hwf]. rewrite Hl.
    destruct (IH (length t') ltac:(subst n; simpl; lia) t' eq_refl Hwf) as [IH1 IH2].
    unfold is_high in Hh. unfold is_low in Hl.
    apply andb_true_iff in Hh. destruct Hh as [Hh1 Hh2].
    apply andb_true_iff in Hl. destruct Hl as [Hl1 Hl2].
    apply Z.leb_le in Hh1, Hh2, Hl1, Hl2.
    split.
    + constructor; [|exact IH1]. unfold scalar. lia.
    + unfold from_scalars in *. cbn [map concat]. rewrite IH2.
      unfold units_of_scalar.
      replace (_ <? 0x10000) with false by (symmetry; apply Z.ltb_ge; lia).
      cbn [app]. f_equal; [div_lia|]. f_equal. div_lia.
  - apply andb_true_iff in Hwf. destruct Hwf as [Hl Hwf].
    apply negb_true_iff in Hl. rewrite Hl.
    destruct (IH (length t) ltac:(subst n; simpl; lia) t eq_refl Hwf) as [IH1 IH2].
    assert (Hns : ~ (0xD800 <= c <= 0xDFFF)).
    { rewrite <- surrogate_tests. rewrite Hh, Hl. intros [?|?]; discriminate. }
    split.
    + constructor; [|exact IH1]. unfold scalar. lia.
    + unfold from_scalars in *. cbn [map concat]. rewrite IH2.
      unfold units_of_scalar.
      replace (c <? 0x10000) with true by (symmetry; apply Z.ltb_lt; lia).
      reflexivity.
Qed.

Lemma first_scalar_no_bom (s : jsstring) :
  well_formed s = true -> no_bom s = true ->
  match to_scalars s with cp :: _ => cp <> 0xFEFF | [] => True end.
Proof.
  destruct s as [|c t]; [intros; exact I|].
  cbn [well_formed no_bom to_scalars]. intros Hwf Hb.
  apply negb_true_iff, Z.eqb_neq in Hb.
  apply andb_true_iff in Hwf. destruct Hwf as [_ Hwf].
  destruct (is_high c) eqn:Hh.
  - destruct t as [|d t']; [discriminate|].
    apply andb_true_iff in Hwf. destruct Hwf as [Hl _]. rewrite Hl.
    unfold is_high in Hh. unfold is_low in Hl.
    apply andb_true_iff in Hh. destruct Hh as [Hh1 Hh2].
    apply andb_true_iff in Hl. destruct Hl as [Hl1 Hl2].
    apply Z.leb_le in Hh1, Hh2, Hl1, Hl2. lia.
  - apply andb_true_iff in Hwf. destruct Hwf as [Hl _].
    apply negb_true_iff in Hl. rewrite Hl. exact Hb.
Qed.

(** [TextDecoder] gives back what [TextEncoder] was given, when that is a
    well-formed string that does not start with U+FEFF. *)
Lemma text_decode_encode (s : jsstring) :
  well_formed s = true -> no_bom s = true -> text_decode (text_encode s) = s.
Proof.
  intros Hwf Hb. destruct (to_scalars_well_formed s Hwf) as [Hsc Hback].
  pose proof (first_scalar_no_bom s Hwf Hb) as Hfirst.
  unfold text_decode, text_encode.
  assert (Hstrip : strip_bom (concat (map utf8_of_scalar (to_scalars s)))
                   = concat (map utf8_of_scalar (to_scalars s))).
  { destruct (to_scalars s) as [|cp cps]; [reflexivity|].
    cbn [map concat]. inversion Hsc; subst. apply strip_bom_scalar; assumption. }
  rewrite Hstrip, utf8_decode_encode by exact Hsc. exact Hback.
Qed.

Lemma text_encode_bytes (s : jsstring) : well_formed s = true -> bytes (text_encode s).
Proof.
  intros Hwf. destruct (to_scalars_well_formed s Hwf) as [Hsc _].
  unfold text_encode, bytes. induction Hsc as [|cp cps Hc _ IH]; [constructor|].
  cbn [map concat]. apply Forall_app. split; [apply utf8_of_scalar_bytes, Hc|exact IH].
Qed.

End Utf8.

(** ** AES-GCM *)

Section GcmFacts.
Import Encoding Sha256 AesGcm.

Variable E : Z -> Z.

Lemma be_bytes_bytes (n : nat) (x : Z) : bytes (be_bytes n x).
Proof.
  unfold bytes, byte. induction n as [|n IH]; simpl; constructor; [|exact IH].
  apply Z.mod_pos_bound. lia.
Qed.

Lemma lxor_byte (a b : Z) : byte a -> byte b -> byte (Z.lxor a b).
Proof.
  unfold byte. intros Ha Hb.
  assert (H0 : 0 <= Z.lxor a b) by (apply Z.lxor_nonneg; lia).
  split; [exact H0|].
  destruct (Z.eq_dec (Z.lxor a b) 0) as [->|Hne]; [lia|].
  apply Z.log2_lt_cancel.
  eapply Z.le_lt_trans; [apply Z.log2_lxor; lia|].
  change (Z.log2 256) with 8.
  assert (Hl : forall x, 0 <= x < 256 -> Z.log2 x < 8).
  { intros x Hx. destruct (Z.eq_dec x 0) as [->|]; [reflexivity|].
    apply Z.log2_lt_pow2; lia. }
  specialize (Hl a Ha) as Hla. specialize (Hl b Hb) as Hlb. lia.
Qed.

Lemma zip_lxor_involutive (p ks : list Z) :
  (length p <= length ks)%nat -> zip_with Z.lxor (zip_with Z.lxor p ks) ks = p.
Proof.
  revert ks. induction p as [|x p IH]; intros [|k ks] H; simpl in *; try reflexivity; [lia|].
  rewrite IH by lia. f_equal.
  rewrite Z.lxor_assoc, Z.lxor_nilpotent, Z.lxor_0_r. reflexivity.
Qed.

Lemma zip_lxor_bytes (p ks : list Z) :
  bytes p -> bytes ks -> bytes (zip_with Z.lxor p ks).
Proof.
  unfold bytes. intros Hp. revert ks.
  induction Hp as [|x p Hx _ IH]; intros [|k ks] Hk; simpl; try constructor.
  - inversion Hk; subst. apply lxor_byte; assumption.
  - inversion Hk; subst. apply IH. assumption.
Qed.

Lemma keystream_length (n : nat) (ctr : Z) :
  length (keystream E n ctr) = (16 * n)%nat.
Proof.
  revert ctr. induction n as [|n IH]; intros ctr; [reflexivity|].
  cbn [keystream]. rewrite length_app, be_bytes_length, IH. lia.
Qed.

Lemma keystream_bytes (n : nat) (ctr : Z) : bytes (keystream E n ctr).
Proof.
  revert ctr. induction n as [|n IH]; intros ctr; [constructor|].
  cbn [keystream]. apply Forall_app. split; [apply be_bytes_bytes|apply IH].
Qed.

Lemma keystream_covers (bs : list Z) (ctr : Z) :
  (length bs <= length (keystream E (length bs / 16 + 1) ctr))%nat.
Proof.
  rewrite keystream_length.
  pose proof (Nat.div_mod_eq (length bs) 16).
  pose proof (Nat.mod_upper_bound (length bs) 16). lia.
Qed.

Lemma gctr_length (ctr : Z) (bs : list Z) : length (gctr E ctr bs) = length bs.
Proof.
  unfold gctr. rewrite length_zip_with.
  pose proof (keystream_covers bs ctr). lia.
Qed.

(** Counter mode is its own inverse. *)
Lemma gctr_involutive (ctr : Z) (bs : list Z) : gctr E ctr (gctr E ctr bs) = bs.
Proof.
  unfold gctr at 1. rewrite gctr_length. unfold gctr.
  apply zip_lxor_involutive, keystream_covers.
Qed.

Lemma gctr_bytes (ctr : Z) (bs : list Z) : bytes bs -> bytes (gctr E ctr bs).
Proof. intros H. apply zip_lxor_bytes; [exact H|apply keystream_bytes]. Qed.

Lemma tag_length (iv c : list Z) : length (tag E iv c) = 16%nat.
Proof. apply be_bytes_length. Qed.

Lemma gcm_encrypt_length (iv p : list Z) :
  length (gcm_encrypt E iv p) = (length p + 16)%nat.
Proof. unfold gcm_encrypt. rewrite length_app, gctr_length, tag_length. reflexivity. Qed.

Lemma gcm_encrypt_bytes (iv p : list Z) : bytes p -> bytes (gcm_encrypt E iv p).
Proof.
  intros H. unfold gcm_encrypt. apply Forall_app.
  split; [apply gctr_bytes, H|apply be_bytes_bytes].
Qed.

(** Decryption of a ciphertext and its tag, as a pair. *)
Lemma gcm_decrypt_pair (iv c : list Z) :
  gcm_decrypt E iv (c ++ tag E iv c) = Some (gctr E (inc32 (j0 E iv)) c).
Proof.
  unfold gcm_decrypt. rewrite length_app, tag_length.
  replace (length c + 16 <? 16)%nat with false by (symmetry; apply Nat.ltb_ge; lia).
  replace (length c + 16 - 16)%nat with (length c) by lia.
  rewrite firstn_app, firstn_all, Nat.sub_diag, firstn_O, app_nil_r.
  rewrite skipn_app, skipn_all, Nat.sub_diag, skipn_O. cbn [app].
  rewrite bool_decide_eq_true_2 by reflexivity. reflexivity.
Qed.

(** Authenticated decryption undoes authenticated encryption. *)
Lemma gcm_decrypt_encrypt (iv p : list Z) :
  gcm_decrypt E iv (gcm_encrypt E iv p) = Some p.
Proof.
  unfold gcm_encrypt. rewrite gcm_decrypt_pair, gctr_involutive. reflexivity.
Qed.

End GcmFacts.

(** * Theorems about the repository *)

(** ** Presence tests of the replay triple *)

Section PresenceTests.
Import Js Samples.

Lemma decoder_missing_on_zero_sequence (r : MessageEncryption.EncryptedMessage) :
  MessageEncryption.sequenceNumber r = Some 0 ->
  MessageEncryption.replay_fields_missing r = true.
Proof.
  intros H. unfold MessageEncryption.replay_fields_missing. rewrite H. simpl.
  apply orb_true_r.
Qed.

Lemma decoder_missing_on_zero_timestamp (r : MessageEncryption.EncryptedMessage) :
  MessageEncryption.timestamp r = Some 0 ->
  MessageEncryption.replay_fields_missing r = true.
Proof.
  intros H. unfold MessageEncryption.replay_fields_missing. rewrite H. simpl.
  rewrite orb_true_r. reflexivity.
Qed.

(** C10. A record whose [sequenceNumber] is 0 or whose [timestamp] is 0 makes
    [decryptMessage] throw the missing-replay-fields error, whatever the other
    fields, the key and the clock are: the decoder tests the fields by
    truthiness. The relay's test differs on the sequence number only: with a
    non-empty nonce and a non-zero timestamp a [sequenceNumber] of 0 passes it
    (it is compared with [undefined]), while a [timestamp] of 0 fails it and the
    gate answers 400 with the missing-fields error, its state untouched. *)
Theorem zero_valued_replay_fields
    (r : MessageEncryption.EncryptedMessage) (key : list Z)
    (w : MessageEncryption.World)
    (req : ReplayProtection.Request) (g : ReplayProtection.Gate)
    (db : list MessageModel.Message) (now : Z) :
  (MessageEncryption.sequenceNumber r = Some 0 \/ MessageEncryption.timestamp r = Some 0 ->
   MessageEncryption.decryptMessage r key w = ([], inl MessageEncryption.MissingReplayFields))
  /\ (ReplayProtection.sequenceNumber req = Some 0 ->
      truthy_opt truthy_string (ReplayProtection.nonce req) = true ->
      truthy_opt truthy_number (ReplayProtection.timestamp req) = true ->
      ReplayProtection.fields_missing req = false
      /\ fst (ReplayProtection.replayProtection g db now req)
         <> ReplayProtection.Reject 400 ReplayProtection.MissingFields)
  /\ (ReplayProtection.timestamp req = Some 0 ->
      ReplayProtection.fields_missing req = true
      /\ ReplayProtection.replayProtection g db now req
         = (ReplayProtection.Reject 400 ReplayProtection.MissingFields, g)).
Proof.
  split; [|split].
  - intros [H|H]; unfold MessageEncryption.decryptMessage.
    + rewrite (decoder_missing_on_zero_sequence _ H). reflexivity.
    + rewrite (decoder_missing_on_zero_timestamp _ H). reflexivity.
  - intros Hs Hn Ht.
    assert (Hm : ReplayProtection.fields_missing req = false).
    { unfold ReplayProtection.fields_missing. rewrite Hs, Hn, Ht. reflexivity. }
    split; [exact Hm|].
    unfold ReplayProtection.replayProtection. rewrite Hm.
    repeat match goal with
           | |- context [if ?c then _ else _] => destruct c
           | |- context [let '(_, _) := ?p in _] => destruct p
           end; simpl; discriminate.
  - intros Ht.
    assert (Hm : ReplayProtection.fields_missing req = true).
    { unfold ReplayProtection.fields_missing. rewrite Ht. simpl.
      rewrite orb_true_r. reflexivity. }
    split; [exact Hm|].
    unfold ReplayProtection.replayProtection. rewrite Hm. reflexivity.
Qed.

Lemma zero_valued_replay_fields_witness :
  MessageEncryption.decryptMessage record_with_zero_sequence (repeat 0 32%nat) world0
    = ([], inl MessageEncryption.MissingReplayFields)
  /\ (ReplayProtection.fields_missing request_with_zero_sequence = false
      /\ fst (ReplayProtection.replayProtection ReplayProtection.empty_gate [] 0
                request_with_zero_sequence)
         <> ReplayProtection.Reject 400 ReplayProtection.MissingFields)
  /\ ReplayProtection.replayProtection ReplayProtection.empty_gate [] 1700000000000
       request_with_zero_timestamp
     = (ReplayProtection.Reject 400 ReplayProtection.MissingFields,
        ReplayProtection.empty_gate).
Proof.
  split; [|split].
  - apply (zero_valued_replay_fields record_with_zero_sequence (repeat 0 32%nat) world0
             request_with_zero_sequence ReplayProtection.empty_gate [] 0).
    left. reflexivity.
  - apply (zero_valued_replay_fields record_with_zero_sequence (repeat 0 32%nat) world0
             request_with_zero_sequence ReplayProtection.empty_gate [] 0);
      reflexivity.
  - apply (zero_valued_replay_fields record_with_zero_sequence (repeat 0 32%nat) world0
             request_with_zero_timestamp ReplayProtection.empty_gate [] 1700000000000).
    reflexivity.
Defined.

End PresenceTests.

(** ** Confirmation of a key exchange *)

Section Confirmation.
Import Js KeyExchangeRoutes Samples.

Lemma confirm_keeps_other (u : jsstring) (id h : option jsstring) (t : table) (k : jsstring) :
  k <> default [] id -> snd (confirm u id h t) !! k = t !! k.
Proof.
  intros Hk. unfold confirm.
  destruct (_ || _); [reflexivity|].
  destruct (t !! default [] id) as [e|] eqn:He; [|reflexivity]. simpl.
  destruct (both_confirmed _ _).
  - rewrite lookup_delete_ne; [reflexivity|congruence].
  - rewrite lookup_insert_ne; [reflexivity|congruence].
Qed.

(** What [confirm] requires before it deletes: two names on [confirmedBy], or
    both peers on it. The first alternative does not look at who the two are. *)
Lemma confirm_deletes_only_when (u id h : jsstring) (t : table) (e : Exchange) :
  t !! id = Some e ->
  snd (confirm u (Some id) (Some h) t) !! id = None ->
  let confirmed :=
    if includes (default [] (confirmedBy e)) u then default [] (confirmedBy e)
    else default [] (confirmedBy e) ++ [u] in
  (2 <= length confirmed)%nat
  \/ (includes confirmed (fromUserId e) = true /\ includes confirmed (toUserId e) = true).
Proof.
  intros He Hdel. unfold confirm in Hdel.
  destruct (_ || _) eqn:Hm; simpl in Hdel; [congruence|].
  simpl in Hdel. rewrite He in Hdel. simpl in Hdel.
  unfold both_confirmed in Hdel.
  destruct (2 <=? _) eqn:H2; simpl in Hdel.
  - left. apply Z.leb_le in H2. lia.
  - destruct (includes _ (fromUserId e) && includes _ (toUserId e)) eqn:Hb.
    + right. apply andb_true_iff in Hb. exact Hb.
    + rewrite lookup_insert_eq in Hdel. discriminate.
Qed.

(** C5 (the code at the failing input). Alice opens an exchange with bob; the
    table holds it. Mallory and trent, two authenticated users who are no party
    to it, confirm it one after the other: the second confirmation answers
    [bothConfirmed] and the entry is gone, with neither alice nor bob on
    [confirmedBy]. One outsider after one peer does the same. *)
Theorem confirm_deletes_unconfirmed_exchange :
  KeyExchangeRoutes.reachable table_after_initiate
  /\ (exists e, table_after_initiate !! exchange_id = Some e
        /\ fromUserId e = alice /\ toUserId e = bob /\ confirmedBy e = None)
  /\ (let t1 := snd (confirm mallory (Some exchange_id) (Some confirmation_hash)
                       table_after_initiate) in
      let r2 := confirm trent (Some exchange_id) (Some confirmation_hash) t1 in
      (confirmedBy <$> t1 !! exchange_id) = Some (Some [mallory])
      /\ fst r2 = Confirmed true
      /\ snd r2 !! exchange_id = None)
  /\ (let t1 := snd (confirm alice (Some exchange_id) (Some confirmation_hash)
                       table_after_initiate) in
      let r2 := confirm mallory (Some exchange_id) (Some confirmation_hash) t1 in
      (confirmedBy <$> t1 !! exchange_id) = Some (Some [alice])
      /\ fst r2 = Confirmed true
      /\ snd r2 !! exchange_id = None).
Proof.
  split; [|split; [|split]].
  - exists [ReqInitiate alice (Some bob) (Some (lit "cHVibGlj"))
              (Some (lit "c2lnbmF0dXJl")) (Some 1700000000000) 1700000000000].
    reflexivity.
  - eexists. split; [vm_compute; reflexivity|]. repeat split.
  - vm_compute. repeat split.
  - vm_compute. repeat split.
Qed.

End Confirmation.

(** ** The store behind the gate *)

Section DurableBackstop.
Import Js MessageModel Samples.

Lemma fold_max_ge (xs : list Z) (x : Z) : x <= fold_left Z.max xs x.
Proof.
  revert x. induction xs as [|y ys IH]; intros x; simpl; [lia|].
  specialize (IH (Z.max x y)). lia.
Qed.

Lemma fold_max_bound (xs : list Z) (x y : Z) :
  In y xs -> y <= fold_left Z.max xs x.
Proof.
  revert x. induction xs as [|z zs IH]; intros x Hy; simpl in *; [tauto|].
  destruct Hy as [->|Hy]; [|auto].
  pose proof (fold_max_ge zs (Z.max x y)). lia.
Qed.

(** [last_sequence] bounds every message of the conversation. *)
Lemma last_sequence_bound (db : list Message) (a b : jsstring) (m : Message) :
  In m db -> between a b m = true ->
  exists last, last_sequence db a b = Some last /\ sequenceNumber m <= last.
Proof.
  intros Hin Hb. unfold last_sequence.
  assert (Hm : In (sequenceNumber m) (map sequenceNumber (List.filter (between a b) db))).
  { apply in_map, filter_In. auto. }
  destruct (map sequenceNumber (List.filter (between a b) db)) as [|x xs]; [destruct Hm|].
  eexists. split; [reflexivity|].
  destruct Hm as [<-|Hm]; [apply fold_max_ge|apply fold_max_bound, Hm].
Qed.

Lemma nonce_taken_spec (db : list Message) (n : jsstring) :
  nonce_taken db n = true <-> In n (map nonce db).
Proof.
  unfold nonce_taken. rewrite existsb_exists, in_map_iff. split.
  - intros (m & Hin & Hn). apply bool_decide_eq_true in Hn. eauto.
  - intros (m & Hn & Hin). exists m. split; [exact Hin|]. apply bool_decide_eq_true, Hn.
Qed.

(** The duplicate-key error is raised exactly when the document is valid, the
    hook lets it through, and its nonce is stored already. *)
Lemma save_duplicate_key (db : list Message) (now : Z) (c : Candidate) :
  save db now c = inl DuplicateKey <->
  exists m, validate now c = Some m /\ sequence_hook db m = true
            /\ In (nonce m) (map nonce db).
Proof.
  unfold save. split.
  - destruct (validate now c) as [m|]; [|discriminate].
    destruct (sequence_hook db m) eqn:Hh; simpl; [|discriminate].
    destruct (nonce_taken db (nonce m)) eqn:Ht; [|discriminate].
    intros _. exists m. rewrite <- nonce_taken_spec. auto.
  - intros (m & -> & -> & Hin). simpl.
    apply nonce_taken_spec in Hin. rewrite Hin. reflexivity.
Qed.

Lemma validate_fields (now : Z) (c : Candidate) (m : Message) :
  validate now c = Some m ->
  truthy_opt truthy_string (c_recipientId c) = true
  /\ truthy_opt truthy_string (c_ciphertext c) = true
  /\ truthy_opt truthy_string (c_iv c) = true
  /\ truthy_opt truthy_string (c_tag c) = true
  /\ truthy_opt truthy_string (c_nonce c) = true.
Proof.
  unfold validate.
  destruct (c_recipientId c) as [r|], (c_ciphertext c) as [ct|], (c_iv c) as [i|],
    (c_tag c) as [t|], (c_timestamp c) as [ts|], (c_sequenceNumber c) as [sq|],
    (c_nonce c) as [n|]; try discriminate.
  destruct (_ && _) eqn:Hv; [|discriminate]. intros _.
  repeat (apply andb_true_iff in Hv; destruct Hv as [Hv ?]).
  simpl. repeat split; try assumption.
  - destruct r; [discriminate|reflexivity].
  - unfold nonce_valid in *. destruct n; [|reflexivity].
    match goal with H : _ && false = true |- _ => rewrite andb_false_r in H; discriminate end.
Qed.

(** C7. When the insert of a message runs into the unique index on [nonce],
    the handler of [/messages/send] answers 400 with the duplicate-nonce error
    and leaves the store as it was; that is the case exactly for a valid
    document that the sequence hook lets through and whose nonce is stored
    already. A successful insert appends a document whose nonce no stored
    message has and whose sequence number is larger than that of every stored
    message of the conversation, in either direction; nonces stay pairwise
    distinct. *)
Theorem duplicate_nonce_is_a_bad_request
    (db : list Message) (now : Z) (req : MessagesRoute.SendRequest) :
  (save db now (MessagesRoute.candidate req) = inl DuplicateKey ->
   MessagesRoute.send_handler db now req
     = (MessagesRoute.BadRequest (lit "Replay attack detected: duplicate nonce"), db)
   /\ MessagesRoute.status (fst (MessagesRoute.send_handler db now req)) = 400)
  /\ (save db now (MessagesRoute.candidate req) = inl DuplicateKey <->
      exists m, validate now (MessagesRoute.candidate req) = Some m
                /\ sequence_hook db m = true /\ In (nonce m) (map nonce db))
  /\ (forall m db', save db now (MessagesRoute.candidate req) = inr (m, db') ->
      db' = db ++ [m]
      /\ ~ In (nonce m) (map nonce db)
      /\ (forall m', In m' db -> between (senderId m) (recipientId m) m' = true ->
                     sequenceNumber m' < sequenceNumber m)
      /\ (NoDup (map nonce db) -> NoDup (map nonce db'))).
Proof.
  split; [|split].
  - intros Hs.
    assert (Hh : MessagesRoute.send_handler db now req
                 = (MessagesRoute.BadRequest (lit "Replay attack detected: duplicate nonce"), db)).
    { pose proof Hs as Hd. apply save_duplicate_key in Hd. destruct Hd as (m & Hv & _ & _).
      apply validate_fields in Hv. simpl in Hv. destruct Hv as (H1 & H2 & H3 & H4 & H5).
      unfold MessagesRoute.send_handler. rewrite H1, H2, H3, H4, H5. simpl.
      rewrite Hs. reflexivity. }
    rewrite Hh. split; reflexivity.
  - apply save_duplicate_key.
  - intros m db'. unfold save.
    destruct (validate now (MessagesRoute.candidate req)) as [m0|]; [|discriminate].
    destruct (sequence_hook db m0) eqn:Hh; simpl; [|discriminate].
    destruct (nonce_taken db (nonce m0)) eqn:Ht; [discriminate|].
    intros Heq. injection Heq as <- <-.
    assert (Hn : ~ In (nonce m0) (map nonce db)).
    { rewrite <- nonce_taken_spec, Ht. discriminate. }
    split; [reflexivity|]. split; [exact Hn|]. split.
    + intros m' Hin Hb. unfold sequence_hook in Hh.
      destruct (last_sequence_bound db _ _ m' Hin Hb) as (last & Hl & Hle).
      rewrite Hl in Hh. apply negb_true_iff, Z.leb_gt in Hh. lia.
    + intros Hnd. rewrite map_app. simpl.
      apply NoDup_app. split; [exact Hnd|]. split.
      * intros x Hx Hx'. apply list_elem_of_In in Hx.
        apply list_elem_of_In in Hx'. destruct Hx' as [<-|[]]. auto.
      * apply NoDup_singleton.
Qed.

Lemma duplicate_nonce_is_a_bad_request_witness :
  MessagesRoute.send_handler [stored_message] 1700000001000 request_reusing_nonce
    = (MessagesRoute.BadRequest (lit "Replay attack detected: duplicate nonce"),
       [stored_message])
  /\ MessagesRoute.status
       (fst (MessagesRoute.send_handler [stored_message] 1700000001000
               request_reusing_nonce)) = 400.
Proof.
  apply (proj1 (duplicate_nonce_is_a_bad_request [stored_message] 1700000001000
                  request_reusing_nonce)).
  vm_compute. reflexivity.
Defined.

End DurableBackstop.

(** ** The replay gate *)

Section ReplayGate.
Import Js ReplayProtection GateLayers Samples.

Lemma truthy_string_nonempty (s : jsstring) :
  truthy_string s = negb (bool_decide (s = [])).
Proof. destruct s; reflexivity. Qed.

Lemma fields_missing_carried (req : Request) :
  fields_missing req = negb (carried req).
Proof.
  unfold fields_missing, carried, truthy_opt, truthy_number.
  destruct (nonce req) as [n|], (timestamp req) as [ts|], (sequenceNumber req) as [sq|];
    simpl; rewrite ?truthy_string_nonempty, ?orb_true_r, ?orb_false_r; try reflexivity.
  all: destruct (bool_decide (n = [])); try destruct (ts =? 0); reflexivity.
Qed.

Lemma lookup_last_seen (g : Gate) (db : list MessageModel.Message) (a b : jsstring) :
  fst (lookup_last (sequenceTracking g) db a b) = last_seen g db a b.
Proof.
  unfold lookup_last, last_seen.
  destruct (sequenceTracking g !! conversation_key a b); reflexivity.
Qed.

Lemma names_conversation_truthy (req : Request) :
  truthy_string (userId req) && truthy_opt truthy_string (recipientId req)
  = names_conversation req.
Proof.
  unfold names_conversation, truthy_opt. rewrite truthy_string_nonempty.
  destruct (recipientId req) as [r|]; [rewrite truthy_string_nonempty|]; reflexivity.
Qed.

(** The outcome of the middleware, layer by layer. *)
Lemma gate_outcome (g : Gate) (db : list MessageModel.Message) (now : Z) (req : Request) :
  fst (replayProtection g db now req)
  = if accepts g db now req then Next else Reject 400 (first_failure g now req).
Proof.
  unfold replayProtection, accepts, first_failure.
  rewrite fields_missing_carried, names_conversation_truthy.
  destruct (carried req) eqn:Hc; simpl; [|reflexivity].
  unfold carried in Hc. unfold in_window, ahead_of_window, nonce_fresh, sequence_exceeds.
  destruct (nonce req) as [n|]; [|discriminate].
  destruct (timestamp req) as [ts|]; [|discriminate].
  destruct (sequenceNumber req) as [sq|]; [|discriminate]. simpl.
  unfold MAX_NONCE_AGE.
  destruct (now - ts <? -60000) eqn:H1.
  { apply Z.ltb_lt in H1.
    replace (ts <=? now + 60000) with false by (symmetry; apply Z.leb_gt; lia).
    replace (now + 60000 <? ts) with true by (symmetry; apply Z.ltb_lt; lia).
    rewrite andb_false_r. reflexivity. }
  apply Z.ltb_ge in H1.
  replace (ts <=? now + 60000) with true by (symmetry; apply Z.leb_le; lia).
  replace (now + 60000 <? ts) with false by (symmetry; apply Z.ltb_ge; lia).
  rewrite andb_true_r.
  destruct (5 * 60 * 1000 <? now - ts) eqn:H2.
  { apply Z.ltb_lt in H2.
    replace (now - 300000 <=? ts) with false by (symmetry; apply Z.leb_gt; lia).
    reflexivity. }
  apply Z.ltb_ge in H2.
  replace (now - 300000 <=? ts) with true by (symmetry; apply Z.leb_le; lia).
  simpl.
  destruct (nonceCache g !! n) as [e|] eqn:Hn.
  { rewrite bool_decide_eq_true_2 by eauto.
    rewrite bool_decide_eq_false_2 by discriminate. reflexivity. }
  rewrite bool_decide_eq_false_2 by (intros [? ?]; discriminate).
  rewrite bool_decide_eq_true_2 by reflexivity. simpl.
  destruct (names_conversation req); [|reflexivity].
  destruct (lookup_last (sequenceTracking g) db (userId req) (default [] (recipientId req)))
    as [last tracking] eqn:Hl.
  assert (Hls : last = last_seen g db (userId req) (default [] (recipientId req))).
  { rewrite <- lookup_last_seen, Hl. reflexivity. }
  rewrite <- Hls.
  destruct (sq <=? last) eqn:Hsq.
  - apply Z.leb_le in Hsq.
    replace (last <? sq) with false by (symmetry; apply Z.ltb_ge; lia). reflexivity.
  - apply Z.leb_gt in Hsq.
    replace (last <? sq) with true by (symmetry; apply Z.ltb_lt; lia). reflexivity.
Qed.

(** The middleware run from beginning to end is its first half, followed by
    its second half on the same maps when the first one waits for the store. *)
Lemma replayProtection_halves (g : Gate) (db : list MessageModel.Message) (now : Z)
    (req : Request) :
  replayProtection g db now req
  = match arrive g now req with
    | Answered o g' => (o, g')
    | AwaitsStore =>
        resume g (MessageModel.last_sequence db (userId req)
                    (default [] (recipientId req))) now req
    end.
Proof.
  unfold replayProtection, arrive, resume, lookup_last.
  destruct (fields_missing req); [reflexivity|].
  destruct (_ <? -60000); [reflexivity|].
  destruct (MAX_NONCE_AGE <? _); [reflexivity|].
  destruct (bool_decide _); [reflexivity|].
  destruct (_ && _); [|reflexivity].
  destruct (sequenceTracking g !! _) as [last|]; [|reflexivity].
  destruct (_ <=? last); [|reflexivity].
  destruct g; reflexivity.
Qed.

(** The answer of the second half is a matter of the sequence number and of
    what the store said, not of the maps it runs on. *)
Lemma resume_answer (g : Gate) (lastMessage : option Z) (now : Z) (req : Request) :
  fst (resume g lastMessage now req)
  = if default 0 (sequenceNumber req) <=? default 0 lastMessage
    then Reject 400 InvalidSequence else Next.
Proof. unfold resume. destruct (_ <=? _); reflexivity. Qed.

(** C2, as amended. For a request whose sender and recipient ids are the
    strings of ObjectIds (the recipient may be missing or empty), against a
    store of such ids, the middleware calls the next handler if and only if
    the request carries a non-empty nonce, a non-zero timestamp and a sequence
    number, the timestamp lies within [[now - 5 min, now + 1 min]], the nonce is
    not in the cache and, when the request names a conversation (sender and
    recipient both there and not empty), the sequence number is above the last
    one seen for it; otherwise it answers 400 with the error of the first layer
    that fails. Nonce cache and tracker are read as the request finds them and
    the store as the query finds it: when the middleware has to wait for the
    store, its answer is the same whatever is written to the two maps in
    between. *)
Theorem gate_accepts_iff (g : Gate) (db : list MessageModel.Message) (now : Z)
    (req : Request) :
  ids_well_formed req = true -> store_well_formed db = true ->
  (fst (replayProtection g db now req) = Next <-> accepts g db now req = true)
  /\ (accepts g db now req = false ->
      fst (replayProtection g db now req) = Reject 400 (first_failure g now req))
  /\ (arrive g now req = AwaitsStore ->
      forall g2,
        fst (resume g2 (MessageModel.last_sequence db (userId req)
                          (default [] (recipientId req))) now req)
        = fst (replayProtection g db now req)).
Proof.
  intros _ _. split; [|split].
  - rewrite gate_outcome. destruct (accepts g db now req); split; congruence.
  - rewrite gate_outcome. intros ->. reflexivity.
  - intros Hwait g2. rewrite replayProtection_halves, Hwait, !resume_answer.
    reflexivity.
Qed.

Lemma gate_accepts_iff_witness :
  fst (replayProtection empty_gate [stored_message] 1700000000000
         request_with_zero_timestamp)
  = Reject 400 MissingFields.
Proof.
  apply (proj1 (proj2 (gate_accepts_iff empty_gate [stored_message] 1700000000000
                         request_with_zero_timestamp eq_refl eq_refl))).
  reflexivity.
Defined.

(** C2 as stated fails on a request without a recipient: layer 3 is skipped.
    The request below carries the three fields, its timestamp is the relay's
    time, its nonce is new, and its sequence number 0 is not above the last one
    seen, which is 0 for every pair of ids as long as tracker and store are
    empty; the gate calls the next handler. *)
Lemma gate_accepts_without_recipient :
  fst (replayProtection empty_gate [] 1700000000000 request_without_recipient) = Next
  /\ in_body request_without_recipient = true
  /\ in_window 1700000000000 request_without_recipient = true
  /\ nonce_fresh empty_gate request_without_recipient = true
  /\ sequenceNumber request_without_recipient = Some 0
  /\ (forall a b, last_seen empty_gate [] a b = 0)
  /\ accepts_as_specified empty_gate [] 1700000000000 request_without_recipient = false.
Proof.
  repeat split; try reflexivity.
Qed.

(** *** The nonce cache *)

Lemma sweep_lookup (now : Z) (g : Gate) (n : jsstring) (e : NonceEntry) :
  nonceCache (sweep now g) !! n = Some e
  <-> nonceCache g !! n = Some e /\ now - e_timestamp e <= MAX_NONCE_AGE.
Proof.
  unfold sweep. simpl. rewrite map_lookup_filter_Some. simpl. split.
  - intros [H1 H2]. split; [exact H1|lia].
  - intros [H1 H2]. split; [exact H1|lia].
Qed.

(** The middleware never removes a nonce, and adds the one it accepts. *)
Lemma gate_keeps_nonces (g : Gate) (db : list MessageModel.Message) (now : Z)
    (req : Request) (n : jsstring) (e : NonceEntry) :
  nonceCache g !! n = Some e ->
  nonceCache (snd (replayProtection g db now req)) !! n = Some e.
Proof.
  intros Hn. unfold replayProtection.
  destruct (fields_missing req); [exact Hn|].
  destruct (_ <? -60000); [exact Hn|].
  destruct (MAX_NONCE_AGE <? _); [exact Hn|].
  destruct (bool_decide (is_Some (nonceCache g !! default [] (nonce req)))) eqn:Hd;
    [exact Hn|].
  apply bool_decide_eq_false in Hd.
  assert (Hne : default [] (nonce req) <> n).
  { intros Heq. apply Hd. rewrite Heq. eauto. }
  destruct (_ && _).
  - destruct (lookup_last _ _ _ _) as [last tracking].
    destruct (_ <=? last); simpl; [exact Hn|].
    rewrite lookup_insert_ne by exact Hne. exact Hn.
  - simpl. rewrite lookup_insert_ne by exact Hne. exact Hn.
Qed.

Lemma gate_accept_inserts (g g' : Gate) (db : list MessageModel.Message) (now : Z)
    (req : Request) :
  replayProtection g db now req = (Next, g') ->
  nonceCache g'
  = <[default [] (nonce req) :=
        {| e_timestamp := default 0 (timestamp req); e_userId := userId req;
           e_recipientId := recipientId req;
           e_sequenceNumber := default 0 (sequenceNumber req);
           e_acceptedAt := now |}]> (nonceCache g).
Proof.
  unfold replayProtection.
  destruct (fields_missing req); [discriminate|].
  destruct (_ <? -60000); [discriminate|].
  destruct (MAX_NONCE_AGE <? _); [discriminate|].
  destruct (bool_decide _); [discriminate|].
  destruct (_ && _).
  - destruct (lookup_last _ _ _ _) as [last tracking].
    destruct (_ <=? last); [discriminate|].
    intros Heq. injection Heq as <-. reflexivity.
  - intros Heq. injection Heq as <-. reflexivity.
Qed.

Lemma gate_accept_records (g g' : Gate) (db : list MessageModel.Message) (now : Z)
    (req : Request) :
  replayProtection g db now req = (Next, g') ->
  exists n ts sq,
    nonce req = Some n /\ timestamp req = Some ts /\ sequenceNumber req = Some sq
    /\ n <> [] /\ ts <> 0 /\ now - 300000 <= ts <= now + 60000
    /\ nonceCache g !! n = None
    /\ nonceCache g' !! n
       = Some {| e_timestamp := ts; e_userId := userId req;
                 e_recipientId := recipientId req; e_sequenceNumber := sq;
                 e_acceptedAt := now |}.
Proof.
  intros Hr.
  assert (Ha : accepts g db now req = true).
  { pose proof (gate_outcome g db now req) as Ho. rewrite Hr in Ho. simpl in Ho.
    destruct (accepts g db now req); [reflexivity|discriminate]. }
  pose proof (gate_accept_inserts _ _ _ _ _ Hr) as Hins.
  unfold accepts, carried, in_window, nonce_fresh in Ha.
  destruct (nonce req) as [n|] eqn:En; [|discriminate].
  destruct (timestamp req) as [ts|] eqn:Et; [|discriminate].
  destruct (sequenceNumber req) as [sq|] eqn:Es; [|discriminate].
  apply andb_true_iff in Ha. destruct Ha as [Ha _].
  apply andb_true_iff in Ha. destruct Ha as [Ha Hf].
  apply andb_true_iff in Ha. destruct Ha as [Ha Hw].
  apply andb_true_iff in Ha. destruct Ha as [Hn Hz].
  apply andb_true_iff in Hw. destruct Hw as [Hw1 Hw2].
  apply negb_true_iff, bool_decide_eq_false in Hn.
  apply negb_true_iff, Z.eqb_neq in Hz.
  apply bool_decide_eq_true in Hf.
  apply Z.leb_le in Hw1. apply Z.leb_le in Hw2.
  exists n, ts, sq. repeat split; try assumption.
  rewrite Hins. simpl. apply lookup_insert_eq.
Qed.

(** As long as the clock does not go back, an accepted nonce is in the cache
    or its timestamp has left the window. *)
Lemma cached_or_expired (es : list event) (g : Gate) (t ts : Z) (n : jsstring) :
  clock_monotone t es ->
  (exists e, nonceCache g !! n = Some e /\ e_timestamp e = ts) \/ ts + MAX_NONCE_AGE < t ->
  (exists e, nonceCache (run es g) !! n = Some e /\ e_timestamp e = ts)
  \/ ts + MAX_NONCE_AGE < last_time t es.
Proof.
  revert g t. induction es as [|ev es IH]; intros g t Hm Hinv; [exact Hinv|].
  destruct Hm as [Hle Hm]. simpl. apply IH; [exact Hm|].
  destruct Hinv as [(e & He & Hts)|Hexp]; [|right; lia].
  destruct ev as [now|db now req]; simpl in *.
  - destruct (Z_lt_le_dec (ts + MAX_NONCE_AGE) now) as [Hlt|Hge]; [right; exact Hlt|].
    left. exists e. split; [|exact Hts]. apply sweep_lookup. split; [exact He|].
    unfold MAX_NONCE_AGE in *. lia.
  - left. exists e. split; [|exact Hts]. apply gate_keeps_nonces, He.
Qed.

Lemma last_time_monotone (es : list event) (t : Z) :
  clock_monotone t es -> t <= last_time t es.
Proof.
  unfold last_time. revert t. induction es as [|e es IH]; intros t Hm; simpl; [lia|].
  destruct Hm as [Hle Hm]. specialize (IH _ Hm). lia.
Qed.




(** *** Rejections *)

Lemma conversation_key_split (a b s r : jsstring) :
  no_hyphen a = true -> no_hyphen b = true ->
  conversation_key a b = conversation_key s r -> a = s /\ b = r.
Proof.
  unfold conversation_key. change (lit "-") with [45]. simpl.
  revert s. induction a as [|x a IH]; intros s Ha Hb Heq.
  - destruct s as [|c s]; simpl in Heq.
    + injection Heq as ->. split; reflexivity.
    + injection Heq as <- ->. unfold no_hyphen in Hb.
      rewrite forallb_app in Hb. simpl in Hb. rewrite andb_false_r in Hb. discriminate.
  - simpl in Ha. apply andb_true_iff in Ha. destruct Ha as [Hx Ha].
    destruct s as [|c s]; simpl in Heq.
    + injection Heq as -> _. discriminate.
    + injection Heq as -> Heq. destruct (IH s Ha Hb Heq) as [-> ->].
      split; reflexivity.
Qed.

Lemma paired_insert_both (tracking : gmap jsstring Z) (s r : jsstring) (v : Z) :
  paired tracking ->
  paired (<[conversation_key r s := v]> (<[conversation_key s r := v]> tracking)).
Proof.
  intros Hp a b Ha Hb. rewrite !lookup_insert.
  repeat case_decide; try reflexivity;
    repeat match goal with
           | H : conversation_key _ _ = conversation_key a b |- _ =>
               symmetry in H; apply conversation_key_split in H; [destruct H; subst|assumption..]
           | H : conversation_key _ _ = conversation_key b a |- _ =>
               symmetry in H; apply conversation_key_split in H; [destruct H; subst|assumption..]
           end; try congruence.
  apply Hp; assumption.
Qed.

Lemma lookup_last_paired (tracking : gmap jsstring Z) (db : list MessageModel.Message)
    (s r : jsstring) :
  paired tracking -> paired (snd (lookup_last tracking db s r)).
Proof.
  intros Hp. unfold lookup_last.
  destruct (tracking !! conversation_key s r); simpl; [exact Hp|].
  apply paired_insert_both, Hp.
Qed.

Lemma gate_tracking_paired (g : Gate) (db : list MessageModel.Message) (now : Z)
    (req : Request) :
  paired (sequenceTracking g) ->
  paired (sequenceTracking (snd (replayProtection g db now req))).
Proof.
  intros Hp. unfold replayProtection.
  destruct (fields_missing req); [exact Hp|].
  destruct (_ <? -60000); [exact Hp|].
  destruct (MAX_NONCE_AGE <? _); [exact Hp|].
  destruct (bool_decide _); [exact Hp|].
  destruct (_ && _); [|exact Hp].
  pose proof (lookup_last_paired (sequenceTracking g) db (userId req)
                (default [] (recipientId req)) Hp) as Hl.
  destruct (lookup_last _ _ _ _) as [last tracking]. simpl in Hl.
  destruct (_ <=? last); simpl; [exact Hl|].
  apply paired_insert_both, Hl.
Qed.

Lemma reachable_paired (g : Gate) : reachable g -> paired (sequenceTracking g).
Proof.
  induction 1 as [|g e _ IH].
  - intros a b _ _. reflexivity.
  - destruct e as [now|db now req]; simpl; [exact IH|].
    apply gate_tracking_paired, IH.
Qed.

Lemma between_comm (a b : jsstring) (m : MessageModel.Message) :
  MessageModel.between a b m = MessageModel.between b a m.
Proof. unfold MessageModel.between. apply orb_comm. Qed.

Lemma last_sequence_comm (db : list MessageModel.Message) (a b : jsstring) :
  MessageModel.last_sequence db a b = MessageModel.last_sequence db b a.
Proof.
  unfold MessageModel.last_sequence.
  replace (List.filter (MessageModel.between a b) db)
    with (List.filter (MessageModel.between b a) db); [reflexivity|].
  apply filter_ext. intros m. apply between_comm.
Qed.

(** The look-up of layer 3 may fill the tracker from the store; what the gate
    then has for a conversation is what it had. *)
Lemma lookup_last_keeps_last_seen (g : Gate) (db : list MessageModel.Message)
    (s r a b : jsstring) :
  paired (sequenceTracking g) -> no_hyphen a = true -> no_hyphen b = true ->
  last_seen {| nonceCache := nonceCache g;
               sequenceTracking := snd (lookup_last (sequenceTracking g) db s r) |} db a b
  = last_seen g db a b.
Proof.
  intros Hp Ha Hb. unfold lookup_last, last_seen.
  destruct (sequenceTracking g !! conversation_key s r) eqn:Hsr; simpl; [reflexivity|].
  rewrite !lookup_insert. repeat case_decide.
  - match goal with H : conversation_key r s = _ |- _ =>
      symmetry in H; apply conversation_key_split in H; [destruct H as [-> ->]|assumption..]
    end.
    rewrite (Hp r s Ha Hb), Hsr, last_sequence_comm. reflexivity.
  - match goal with H : conversation_key s r = _ |- _ =>
      symmetry in H; apply conversation_key_split in H; [destruct H as [-> ->]|assumption..]
    end.
    rewrite Hsr. reflexivity.
  - reflexivity.
Qed.

Lemma gate_rejection_state (g g' : Gate) (db : list MessageModel.Message) (now : Z)
    (req : Request) (status : Z) (why : rejection) :
  replayProtection g db now req = (Reject status why, g') ->
  g' = g
  \/ g' = {| nonceCache := nonceCache g;
             sequenceTracking :=
               snd (lookup_last (sequenceTracking g) db (userId req)
                      (default [] (recipientId req))) |}.
Proof.
  unfold replayProtection.
  destruct (fields_missing req); [intros Heq; injection Heq as _ _ <-; left; reflexivity|].
  destruct (_ <? -60000); [intros Heq; injection Heq as _ _ <-; left; reflexivity|].
  destruct (MAX_NONCE_AGE <? _); [intros Heq; injection Heq as _ _ <-; left; reflexivity|].
  destruct (bool_decide _); [intros Heq; injection Heq as _ _ <-; left; reflexivity|].
  destruct (_ && _); [|discriminate].
  destruct (lookup_last _ _ _ _) as [last tracking]. simpl.
  destruct (_ <=? last); [|discriminate].
  intros Heq. injection Heq as _ _ <-. right. reflexivity.
Qed.

(** A sequence number the tracker holds for a conversation stays as it is
    through the look-up of layer 3. *)
Lemma lookup_last_keeps_tracked (g : Gate) (db : list MessageModel.Message)
    (s r a b : jsstring) (v : Z) :
  paired (sequenceTracking g) -> no_hyphen a = true -> no_hyphen b = true ->
  sequenceTracking g !! conversation_key a b = Some v ->
  snd (lookup_last (sequenceTracking g) db s r) !! conversation_key a b = Some v.
Proof.
  intros Hp Ha Hb Hv. unfold lookup_last.
  destruct (sequenceTracking g !! conversation_key s r) eqn:Hsr; simpl; [exact Hv|].
  rewrite !lookup_insert. repeat case_decide.
  - match goal with H : conversation_key r s = _ |- _ =>
      symmetry in H; apply conversation_key_split in H; [destruct H as [-> ->]|assumption..]
    end.
    rewrite (Hp r s Ha Hb), Hsr in Hv. discriminate.
  - match goal with H : conversation_key s r = _ |- _ => rewrite H, Hv in Hsr end.
    discriminate.
  - exact Hv.
Qed.

Lemma lower_hex_no_hyphen (s : jsstring) :
  forallb MessageModel.lower_hex s = true -> no_hyphen s = true.
Proof.
  unfold no_hyphen. rewrite !forallb_forall. intros H c Hc. specialize (H c Hc).
  unfold MessageModel.lower_hex in H. apply negb_true_iff, Z.eqb_neq. intros ->.
  discriminate.
Qed.

Lemma object_id_string_no_hyphen (s : jsstring) :
  MessageModel.object_id_string s = true -> no_hyphen s = true.
Proof.
  unfold MessageModel.object_id_string. intros H.
  apply andb_true_iff in H. destruct H as [_ H]. apply lower_hex_no_hyphen, H.
Qed.

(** A request with well-formed ids that names a conversation names it by two
    ids without a hyphen. *)
Lemma ids_well_formed_no_hyphen (req : Request) :
  ids_well_formed req = true -> names_conversation req = true ->
  no_hyphen (userId req) = true /\ no_hyphen (default [] (recipientId req)) = true.
Proof.
  unfold ids_well_formed, names_conversation. intros Hw Hn.
  apply andb_true_iff in Hw. destruct Hw as [Hu Hr].
  apply andb_true_iff in Hn. destruct Hn as [_ Hn].
  split; [apply object_id_string_no_hyphen, Hu|].
  destruct (recipientId req) as [r|]; [|discriminate]. simpl.
  apply negb_true_iff in Hn. rewrite Hn in Hr. apply object_id_string_no_hyphen, Hr.
Qed.

(** The answers that are no acceptance: always 400, and with the maps as they
    were, save on the invalid-sequence branch after a tracker miss, where the
    tracker has been filled from the store. *)
Lemma gate_rejection_cases (g g' : Gate) (db : list MessageModel.Message) (now : Z)
    (req : Request) (status : Z) (why : rejection) :
  replayProtection g db now req = (Reject status why, g') ->
  status = 400
  /\ (g' = g
      \/ (why = InvalidSequence
          /\ sequenceTracking g
               !! conversation_key (userId req) (default [] (recipientId req)) = None
          /\ nonceCache g' = nonceCache g
          /\ sequenceTracking g'
             = <[conversation_key (default [] (recipientId req)) (userId req)
                   := default 0 (MessageModel.last_sequence db (userId req)
                                   (default [] (recipientId req)))]>
                 (<[conversation_key (userId req) (default [] (recipientId req))
                      := default 0 (MessageModel.last_sequence db (userId req)
                                      (default [] (recipientId req)))]>
                    (sequenceTracking g)))).
Proof.
  unfold replayProtection, lookup_last.
  destruct (fields_missing req);
    [intros Heq; injection Heq as <- _ <-; split; [|left]; reflexivity|].
  destruct (_ <? -60000);
    [intros Heq; injection Heq as <- _ <-; split; [|left]; reflexivity|].
  destruct (MAX_NONCE_AGE <? _);
    [intros Heq; injection Heq as <- _ <-; split; [|left]; reflexivity|].
  destruct (bool_decide _);
    [intros Heq; injection Heq as <- _ <-; split; [|left]; reflexivity|].
  destruct (_ && _); [|discriminate].
  destruct (sequenceTracking g !! _) as [last|] eqn:Hlast.
  - destruct (_ <=? last); [|discriminate].
    intros Heq. injection Heq as <- _ <-. split; [reflexivity|].
    left. destruct g; reflexivity.
  - destruct (_ <=? _); [|discriminate].
    intros Heq. injection Heq as <- <- <-. split; [reflexivity|].
    right. repeat split; reflexivity.
Qed.

(** C8, as amended. Whenever the middleware, run from beginning to end on a
    request with well-formed ids in a state the gate can be in, does not
    accept, it answers 400 and no nonce has been added to the cache. The
    tracker is as it was, or, on the invalid-sequence branch after a miss, it
    has two entries more: the store's last sequence number of the conversation
    (0 without a message) under the two keys of the conversation. No entry the
    tracker held has changed, and the last sequence number the gate has for
    every conversation, tracker first and store behind it, is what it was as
    long as the store is what it was: against the same store the gate decides
    every later request the way it would have decided it had the rejected
    request never arrived. *)
Theorem rejection_leaves_gate_unchanged
    (g g' : Gate) (db : list MessageModel.Message) (now : Z) (req : Request)
    (status : Z) (why : rejection) :
  reachable g -> ids_well_formed req = true -> store_well_formed db = true ->
  replayProtection g db now req = (Reject status why, g') ->
  status = 400
  /\ nonceCache g' = nonceCache g
  /\ (sequenceTracking g' = sequenceTracking g
      \/ (why = InvalidSequence
          /\ sequenceTracking g
               !! conversation_key (userId req) (default [] (recipientId req)) = None
          /\ sequenceTracking g'
             = <[conversation_key (default [] (recipientId req)) (userId req)
                   := default 0 (MessageModel.last_sequence db (userId req)
                                   (default [] (recipientId req)))]>
                 (<[conversation_key (userId req) (default [] (recipientId req))
                      := default 0 (MessageModel.last_sequence db (userId req)
                                      (default [] (recipientId req)))]>
                    (sequenceTracking g))))
  /\ (forall a b v,
        MessageModel.object_id_string a = true ->
        MessageModel.object_id_string b = true ->
        sequenceTracking g !! conversation_key a b = Some v ->
        sequenceTracking g' !! conversation_key a b = Some v)
  /\ (forall a b,
        MessageModel.object_id_string a = true ->
        MessageModel.object_id_string b = true ->
        last_seen g' db a b = last_seen g db a b)
  /\ (forall now2 req2,
        ids_well_formed req2 = true ->
        fst (replayProtection g' db now2 req2) = fst (replayProtection g db now2 req2)).
Proof.
  intros Hreach _ _ Hrej.
  pose proof (reachable_paired g Hreach) as Hp.
  destruct (gate_rejection_cases _ _ _ _ _ _ _ Hrej) as [Hstatus Hcases].
  assert (Hc : nonceCache g' = nonceCache g).
  { destruct Hcases as [->|(_ & _ & Hc & _)]; [reflexivity|exact Hc]. }
  assert (Hl : forall a b, no_hyphen a = true -> no_hyphen b = true ->
                 last_seen g' db a b = last_seen g db a b).
  { intros a b Ha Hb.
    destruct (gate_rejection_state _ _ _ _ _ _ _ Hrej) as [->| ->]; [reflexivity|].
    apply lookup_last_keeps_last_seen; assumption. }
  split; [exact Hstatus|]. split; [exact Hc|]. split.
  { destruct Hcases as [->|(Hwhy & Hmiss & _ & Htr)]; [left; reflexivity|].
    right. repeat split; assumption. }
  split.
  { intros a b v Ha Hb Hv.
    apply object_id_string_no_hyphen in Ha, Hb.
    destruct (gate_rejection_state _ _ _ _ _ _ _ Hrej) as [->| ->]; [exact Hv|].
    apply lookup_last_keeps_tracked; assumption. }
  split.
  { intros a b Ha Hb. apply Hl; apply object_id_string_no_hyphen; assumption. }
  intros now2 req2 Hwf. rewrite !gate_outcome.
  assert (Hf : nonce_fresh g' req2 = nonce_fresh g req2).
  { unfold nonce_fresh. rewrite Hc. reflexivity. }
  unfold accepts, first_failure. rewrite Hf.
  destruct (names_conversation req2) eqn:Hn; [|reflexivity].
  destruct (ids_well_formed_no_hyphen req2 Hwf Hn) as [Hu Hr].
  unfold sequence_exceeds. rewrite (Hl _ _ Hu Hr). reflexivity.
Qed.

Lemma rejection_leaves_gate_unchanged_witness :
  400 = 400
  /\ nonceCache gate_after_stale_request = nonceCache empty_gate
  /\ (sequenceTracking gate_after_stale_request = sequenceTracking empty_gate
      \/ (InvalidSequence = InvalidSequence
          /\ sequenceTracking empty_gate
               !! conversation_key (userId request_with_stale_sequence)
                    (default [] (recipientId request_with_stale_sequence)) = None
          /\ sequenceTracking gate_after_stale_request
             = <[conversation_key (default [] (recipientId request_with_stale_sequence))
                   (userId request_with_stale_sequence)
                   := default 0 (MessageModel.last_sequence [stored_message]
                                   (userId request_with_stale_sequence)
                                   (default [] (recipientId request_with_stale_sequence)))]>
                 (<[conversation_key (userId request_with_stale_sequence)
                      (default [] (recipientId request_with_stale_sequence))
                      := default 0 (MessageModel.last_sequence [stored_message]
                                      (userId request_with_stale_sequence)
                                      (default [] (recipientId request_with_stale_sequence)))]>
                    (sequenceTracking empty_gate))))
  /\ (forall a b v,
        MessageModel.object_id_string a = true ->
        MessageModel.object_id_string b = true ->
        sequenceTracking empty_gate !! conversation_key a b = Some v ->
        sequenceTracking gate_after_stale_request !! conversation_key a b = Some v)
  /\ (forall a b,
        MessageModel.object_id_string a = true ->
        MessageModel.object_id_string b = true ->
        last_seen gate_after_stale_request [stored_message] a b
        = last_seen empty_gate [stored_message] a b)
  /\ (forall now2 req2,
        ids_well_formed req2 = true ->
        fst (replayProtection gate_after_stale_request [stored_message] now2 req2)
        = fst (replayProtection empty_gate [stored_message] now2 req2)).
Proof.
  apply (rejection_leaves_gate_unchanged empty_gate gate_after_stale_request
           [stored_message] clock request_with_stale_sequence 400 InvalidSequence).
  - apply reachable_empty.
  - reflexivity.
  - reflexivity.
  - vm_compute. reflexivity.
Defined.

(** C8 as stated fails in three ways. The rejection of a request with a stale
    sequence number writes the tracker: empty before, it holds the store's last
    sequence number of the conversation under its two keys afterwards, and
    [sequenceTrackingSize] has gone from 0 to 2. What it wrote decides a later
    request once the store has changed: when the stored message is gone, the
    first message of the conversation is rejected, where the gate would have
    let it through had the rejected request never arrived. And a rejected
    request that has waited for the store overwrites the tracker when it
    resumes: the request with sequence number 2 arrives, waits and is accepted
    while the stale one waits, and the rejection of the stale one then puts the
    tracker back from 2 to 1. *)
Lemma rejection_fills_tracker :
  fst (replayProtection empty_gate [stored_message] clock request_with_stale_sequence)
  = Reject 400 InvalidSequence
  /\ getReplayProtectionStats empty_gate = (0%nat, 0%nat, 300000)
  /\ getReplayProtectionStats gate_after_stale_request = (0%nat, 2%nat, 300000)
  /\ sequenceTracking gate_after_stale_request !! conversation_key alice bob = Some 1
  /\ sequenceTracking gate_after_stale_request !! conversation_key bob alice = Some 1
  /\ fst (replayProtection gate_after_stale_request [] (clock + 1)
            request_with_first_sequence) = Reject 400 InvalidSequence
  /\ fst (replayProtection empty_gate [] (clock + 1) request_with_first_sequence) = Next
  /\ arrive empty_gate clock request_with_next_sequence = AwaitsStore
  /\ arrive empty_gate clock request_with_stale_sequence = AwaitsStore
  /\ MessageModel.last_sequence [stored_message] alice bob = Some 1
  /\ fst (resume empty_gate (Some 1) clock request_with_next_sequence) = Next
  /\ sequenceTracking gate_after_next_request !! conversation_key alice bob = Some 2
  /\ fst (resume gate_after_next_request (Some 1) clock request_with_stale_sequence)
     = Reject 400 InvalidSequence
  /\ sequenceTracking
       (snd (resume gate_after_next_request (Some 1) clock request_with_stale_sequence))
       !! conversation_key alice bob = Some 1.
Proof.
  repeat split; vm_compute; reflexivity.
Qed.

End ReplayGate.

(** ** Session-key derivation *)

Section SessionKey.
Import Js Encoding KeyExchange Samples.

Lemma string_ltb_asym (a b : jsstring) :
  string_ltb a b = true -> string_ltb b a = false.
Proof.
  revert b. induction a as [|x a IH]; intros [|y b]; simpl; try discriminate; try reflexivity.
  intros H. apply orb_true_iff in H. apply orb_false_iff.
  destruct H as [H|H].
  - apply Z.ltb_lt in H. split; [apply Z.ltb_ge; lia|].
    apply andb_false_iff. left. apply Z.eqb_neq. lia.
  - apply andb_true_iff in H. destruct H as [Hxy Hlt]. apply Z.eqb_eq in Hxy. subst y.
    split; [apply Z.ltb_irrefl|]. rewrite Z.eqb_refl. simpl. apply IH, Hlt.
Qed.

Lemma string_ltb_total (a b : jsstring) :
  string_ltb a b = false -> string_ltb b a = false -> a = b.
Proof.
  revert b. induction a as [|x a IH]; intros [|y b]; simpl; try discriminate; try reflexivity.
  intros H1 H2. apply orb_false_iff in H1. apply orb_false_iff in H2.
  destruct H1 as [H1 H1']. destruct H2 as [H2 H2'].
  apply Z.ltb_ge in H1. apply Z.ltb_ge in H2.
  assert (x = y) by lia. subst y. rewrite Z.eqb_refl in H1', H2'. simpl in *.
  f_equal. apply IH; assumption.
Qed.

(** Sorting the two ids gives the same pair whichever comes first. *)
Lemma sort2_comm (a b : jsstring) : sort2 a b = sort2 b a.
Proof.
  unfold sort2. destruct (string_ltb b a) eqn:Hba.
  - rewrite (string_ltb_asym _ _ Hba). reflexivity.
  - destruct (string_ltb a b) eqn:Hab; [reflexivity|].
    rewrite (string_ltb_total _ _ Hab Hba). reflexivity.
Qed.

Lemma sort2_sorted (a b : jsstring) :
  string_ltb (snd (sort2 a b)) (fst (sort2 a b)) = false
  /\ (sort2 a b = (a, b) \/ sort2 a b = (b, a)).
Proof.
  unfold sort2. destruct (string_ltb b a) eqn:Hba; simpl.
  - split; [apply string_ltb_asym, Hba|right; reflexivity].
  - split; [exact Hba|left; reflexivity].
Qed.

(** C1. For every shared secret and every two user ids, neither of them the
    empty string, [deriveSessionKey] gives one peer the key it gives the other,
    whatever ephemeral public key each passes: the key is HKDF-SHA-256 of the
    secret under a salt of 32 zero bytes, its info the encoding of
    ["Cipherlink-Session-Key-"], the smaller id, a hyphen and the larger id,
    32 bytes long. *)
Theorem session_key_symmetry
    (sharedSecret : list Z) (publicKeyOfB publicKeyOfA A B : jsstring) :
  A <> [] -> B <> [] ->
  deriveSessionKey sharedSecret publicKeyOfB A (Some B)
  = deriveSessionKey sharedSecret publicKeyOfA B (Some A)
  /\ deriveSessionKey sharedSecret publicKeyOfB A (Some B)
     = Hkdf.hkdf_sha256 (repeat 0 32%nat) sharedSecret
         (text_encode (lit "Cipherlink-Session-Key-" ++ fst (sort2 A B)
                         ++ lit "-" ++ snd (sort2 A B))) 32
  /\ string_ltb (snd (sort2 A B)) (fst (sort2 A B)) = false
  /\ (sort2 A B = (A, B) \/ sort2 A B = (B, A))
  /\ length (deriveSessionKey sharedSecret publicKeyOfB A (Some B)) = 32%nat.
Proof.
  intros HA HB.
  assert (Hinfo : forall x y, y <> [] ->
            session_info x (Some y)
            = lit "Cipherlink-Session-Key-" ++ fst (sort2 x y) ++ lit "-" ++ snd (sort2 x y)).
  { intros x y Hy. unfold session_info. simpl. destruct y; [congruence|reflexivity]. }
  unfold deriveSessionKey. rewrite (Hinfo A B HB), (Hinfo B A HA), (sort2_comm B A).
  split; [reflexivity|]. split; [reflexivity|].
  split; [apply sort2_sorted|]. split; [apply sort2_sorted|].
  apply hkdf_sha256_length_32.
Qed.

Lemma session_key_symmetry_witness :
  deriveSessionKey shared_secret (lit "cHVibGljQg==") alice (Some bob)
  = deriveSessionKey shared_secret (lit "cHVibGljQQ==") bob (Some alice).
Proof.
  apply (session_key_symmetry shared_secret (lit "cHVibGljQg==") (lit "cHVibGljQQ==")
           alice bob); discriminate.
Defined.

End SessionKey.

(** ** The bytes a handshake signature covers *)

Section SignedBytes.
Import Js Encoding Json KeyExchange SignedForm Samples.

Lemma plain_char_bounds (c : Z) :
  plain_char c = true -> 33 <= c < 127 /\ c <> 34 /\ c <> 92.
Proof.
  unfold plain_char. intros H.
  repeat (apply andb_true_iff in H; destruct H as [H ?]).
  apply Z.leb_le in H.
  repeat match goal with
         | H : (_ <? _) = true |- _ => apply Z.ltb_lt in H
         | H : negb (_ =? _) = true |- _ => apply negb_true_iff, Z.eqb_neq in H
         end.
  lia.
Qed.

Lemma quote_unit_plain (c : Z) : plain_char c = true -> quote_unit c = [c].
Proof.
  intros H. apply plain_char_bounds in H. unfold quote_unit, is_high, is_low.
  repeat match goal with
         | |- context [?a =? ?b] =>
             replace (a =? b) with false by (symmetry; apply Z.eqb_neq; lia)
         | |- context [?a <? ?b] =>
             replace (a <? b) with false by (symmetry; apply Z.ltb_ge; lia)
         | |- context [?a <=? ?b] =>
             replace (a <=? b) with false by (symmetry; apply Z.leb_gt; lia)
         end.
  reflexivity.
Qed.

(** A plain string is quoted as it is. *)
Lemma quote_body_plain (s : jsstring) : plain s = true -> quote_body s = s.
Proof.
  induction s as [|c s IH]; [reflexivity|]. simpl. intros H.
  apply andb_true_iff in H. destruct H as [Hc Hs].
  pose proof (plain_char_bounds c Hc) as Hb.
  replace (is_high c) with false
    by (unfold is_high; symmetry; apply andb_false_iff; left; apply Z.leb_gt; lia).
  rewrite (quote_unit_plain c Hc), (IH Hs). reflexivity.
Qed.

(** ASCII is encoded byte for byte. *)
Lemma text_encode_ascii (s : jsstring) : ascii7 s = true -> text_encode s = s.
Proof.
  unfold text_encode. induction s as [|c s IH]; [reflexivity|]. simpl. intros H.
  apply andb_true_iff in H. destruct H as [Hc Hs].
  apply andb_true_iff in Hc. destruct Hc as [H0 H1].
  apply Z.leb_le in H0. apply Z.ltb_lt in H1.
  replace (is_high c) with false
    by (unfold is_high; symmetry; apply andb_false_iff; left; apply Z.leb_gt; lia).
  replace (is_low c) with false
    by (unfold is_low; symmetry; apply andb_false_iff; left; apply Z.leb_gt; lia).
  simpl. unfold utf8_of_scalar at 1.
  replace (c <? 128) with true by (symmetry; apply Z.ltb_lt; lia).
  simpl. rewrite (IH Hs). reflexivity.
Qed.

Lemma digits_pos_digits (fuel : nat) (n : Z) (acc : jsstring) :
  forallb digit_or_minus acc = true ->
  forallb digit_or_minus (digits_pos fuel n acc) = true.
Proof.
  revert n acc. induction fuel as [|fuel IH]; intros n acc Hacc; simpl; [exact Hacc|].
  assert (Hd : forallb digit_or_minus ((48 + n mod 10) :: acc) = true).
  { simpl. rewrite Hacc, andb_true_r. unfold digit_or_minus.
    pose proof (Z.mod_pos_bound n 10 ltac:(lia)).
    apply orb_true_iff. left. apply andb_true_iff. split; apply Z.leb_le; lia. }
  destruct (n <? 10); [exact Hd|]. apply IH, Hd.
Qed.

Lemma number_to_string_digits (n : Z) :
  forallb digit_or_minus (number_to_string n) = true.
Proof.
  unfold number_to_string. destruct (n <? 0).
  - simpl. apply digits_pos_digits. reflexivity.
  - apply digits_pos_digits. reflexivity.
Qed.

Lemma plain_solid (s : jsstring) : plain s = true -> forallb solid s = true.
Proof.
  unfold plain. rewrite !forallb_forall. intros H c Hc.
  specialize (H c Hc). apply plain_char_bounds in H. unfold solid.
  apply andb_true_iff. split; [apply Z.leb_le|apply Z.ltb_lt]; lia.
Qed.

Lemma digits_solid (s : jsstring) :
  forallb digit_or_minus s = true -> forallb solid s = true.
Proof.
  rewrite !forallb_forall. intros H c Hc. specialize (H c Hc).
  unfold digit_or_minus in H. unfold solid.
  apply orb_true_iff in H. destruct H as [H|H].
  - apply andb_true_iff in H. destruct H as [H1 H2].
    apply Z.leb_le in H1. apply Z.leb_le in H2.
    apply andb_true_iff. split; [apply Z.leb_le|apply Z.ltb_lt]; lia.
  - apply Z.eqb_eq in H. subst c. reflexivity.
Qed.

Lemma solid_ascii7 (s : jsstring) : forallb solid s = true -> ascii7 s = true.
Proof.
  unfold ascii7. rewrite !forallb_forall. intros H c Hc. specialize (H c Hc).
  unfold solid in H. apply andb_true_iff in H. destruct H as [H1 H2].
  apply Z.leb_le in H1. apply Z.ltb_lt in H2.
  apply andb_true_iff. split; [apply Z.leb_le|apply Z.ltb_lt]; lia.
Qed.

Lemma solid_no_whitespace (s : jsstring) :
  forallb solid s = true -> existsb whitespace s = false.
Proof.
  intros H. apply not_true_is_false. intros He.
  apply existsb_exists in He. destruct He as (c & Hc & Hw).
  rewrite forallb_forall in H. specialize (H c Hc).
  unfold solid in H. apply andb_true_iff in H. destruct H as [H1 _]. apply Z.leb_le in H1.
  unfold whitespace in Hw.
  repeat (apply orb_true_iff in Hw; destruct Hw as [Hw|Hw]);
    apply Z.eqb_eq in Hw; lia.
Qed.

(** The string [JSON.stringify] makes of the object, member by member. *)
Lemma stringify_signed_object (ty fromId toId pk : jsstring) (ts : Z) :
  stringify (signed_object ty fromId toId pk ts) = compact_form ty fromId toId pk ts.
Proof.
  unfold stringify, signed_object, members, serialize_value, compact_form.
  change (lit "{") with [123]. change (lit "}") with [125].
  change (lit ":") with [58]. change (lit ",") with [44].
  repeat rewrite <- app_assoc. reflexivity.
Qed.

(** The compact form of plain values holds no white space, and is ASCII. *)
Lemma compact_form_solid (ty fromId toId pk : jsstring) (ts : Z) :
  plain ty = true -> plain fromId = true -> plain toId = true -> plain pk = true ->
  forallb solid (compact_form ty fromId toId pk ts) = true.
Proof.
  intros Hty Hf Ht Hp. unfold compact_form, quote.
  rewrite !quote_body_plain by (assumption || reflexivity).
  pose proof (digits_solid _ (number_to_string_digits ts)) as Hn.
  apply plain_solid in Hf, Ht, Hp, Hty.
  repeat (rewrite ?forallb_app; cbn [forallb]; rewrite ?Hf, ?Ht, ?Hp, ?Hty, ?Hn).
  reflexivity.
Qed.

Lemma type_name_plain (t : message_type) : plain (type_name t) = true.
Proof. destruct t; reflexivity. Qed.

(** C4, as amended. At every site of the handshake, signing or verifying, the
    bytes are the UTF-8 encoding of the compact JSON form of the five values
    the site reads: an object with the members [type], [fromUserId],
    [toUserId], [publicKey], [timestamp] in that order, a colon between key and
    value, a comma between members, and nothing else outside the values (the
    timestamp being a safe integer, written with all its digits). The six
    sites are [initiateKeyExchange] and [handleKeyExchangeResponse], on the
    fields of the message; the chat window's initiator path and its responder
    path, which signs the response and verifies the initiation; and the
    completion of an exchange, which verifies the response with the two ids of
    the relay's entry exchanged. Signer and verifier so compute the same bytes
    from the same five values; and when the values are plain (ids, base 64),
    the bytes hold no white space at all. *)
Theorem signed_bytes_form
    (m : KeyExchangeMessage) (ty fromId toId pk : jsstring) (ts : Z) :
  safe_integer (timestamp m) = true -> safe_integer ts = true ->
  initiate_signed_bytes m
  = text_encode (compact_form (type_name (type m)) (fromUserId m) (toUserId m)
                   (publicKey m) (timestamp m))
  /\ response_verified_bytes m
     = text_encode (compact_form (type_name (type m)) (fromUserId m) (toUserId m)
                      (publicKey m) (timestamp m))
  /\ initiator_signed_bytes fromId toId pk ts
     = text_encode (compact_form (lit "initiate") fromId toId pk ts)
  /\ responder_verified_bytes fromId toId pk ts
     = text_encode (compact_form (lit "initiate") fromId toId pk ts)
  /\ responder_signed_bytes fromId toId pk ts
     = text_encode (compact_form (lit "response") fromId toId pk ts)
  /\ completion_verified_bytes toId fromId pk ts
     = text_encode (compact_form (lit "response") fromId toId pk ts)
  /\ initiate_signed_bytes (initiate_message toId fromId pk ts)
     = text_encode (compact_form (lit "initiate") fromId toId pk ts)
  /\ map fst (signed_object ty fromId toId pk ts)
     = [lit "type"; lit "fromUserId"; lit "toUserId"; lit "publicKey"; lit "timestamp"]
  /\ compact_form ty fromId toId pk ts
     = lit "{" ++ quote (lit "type") ++ lit ":" ++ quote ty
       ++ lit "," ++ quote (lit "fromUserId") ++ lit ":" ++ quote fromId
       ++ lit "," ++ quote (lit "toUserId") ++ lit ":" ++ quote toId
       ++ lit "," ++ quote (lit "publicKey") ++ lit ":" ++ quote pk
       ++ lit "," ++ quote (lit "timestamp") ++ lit ":" ++ number_to_string ts
       ++ lit "}"
  /\ (plain ty = true -> plain fromId = true -> plain toId = true ->
      plain pk = true ->
      existsb whitespace (text_encode (compact_form ty fromId toId pk ts)) = false).
Proof.
  intros _ _.
  unfold initiate_signed_bytes, response_verified_bytes, initiator_signed_bytes,
    responder_verified_bytes, responder_signed_bytes, completion_verified_bytes,
    initiate_message.
  cbn [type fromUserId toUserId publicKey timestamp type_name].
  rewrite !stringify_signed_object.
  repeat (split; [reflexivity|]).
  intros Hty Hf Ht Hp.
  pose proof (compact_form_solid ty fromId toId pk ts Hty Hf Ht Hp) as Hs.
  rewrite text_encode_ascii by (apply solid_ascii7, Hs).
  apply solid_no_whitespace, Hs.
Qed.

Lemma signed_bytes_form_witness :
  existsb whitespace
    (text_encode (compact_form (lit "response") bob alice (lit "AAAA") 1700000000000))
  = false.
Proof.
  apply (signed_bytes_form initiate_sample (lit "response") bob alice (lit "AAAA")
           1700000000000); reflexivity.
Defined.

(** C4 as stated fails on every message: the form with one space after each
    colon and comma is not what is signed. On the message below the signed
    bytes hold no space, the specified form does, and the two differ. *)
Lemma signed_bytes_have_no_space :
  existsb (Z.eqb 32) (initiate_signed_bytes initiate_sample) = false
  /\ existsb (Z.eqb 32)
       (canonical_as_specified (lit "initiate") alice bob
          (lit "MFkwEwYHKoZIzj0CAQYIKoZIzj0DAQcDQgAE") 1700000000000) = true
  /\ bool_decide
       (initiate_signed_bytes initiate_sample
        = canonical_as_specified (lit "initiate") alice bob
            (lit "MFkwEwYHKoZIzj0CAQYIKoZIzj0DAQcDQgAE") 1700000000000) = false.
Proof.
  repeat split; vm_compute; reflexivity.
Qed.

End SignedBytes.

(** ** Encryption and decryption of messages *)

Section MessageCodec.
Import Js Encoding MessageEncryption Samples.

(** Every string is encoded to bytes: a lone surrogate counts as U+FFFD. *)
Lemma to_scalars_scalar (s : jsstring) :
  is_jsstring s = true -> Forall scalar (to_scalars s).
Proof.
  remember (length s) as n eqn:Hn. revert s Hn.
  induction n as [n IH] using lt_wf_ind. intros s Hn Hs.
  destruct s as [|c t]; [constructor|].
  cbn [is_jsstring forallb] in Hs. apply andb_true_iff in Hs. destruct Hs as [Hu Ht].
  unfold code_unit in Hu. apply andb_true_iff in Hu. destruct Hu as [Hu0 Hu1].
  apply Z.leb_le in Hu0. apply Z.ltb_lt in Hu1.
  assert (Hrep : scalar 0xFFFD) by (unfold scalar; lia).
  assert (IHt : Forall scalar (to_scalars t)).
  { apply (IH (length t)); [subst n; simpl; lia|reflexivity|exact Ht]. }
  cbn [to_scalars]. destruct (is_high c) eqn:Hh.
  - destruct t as [|d t']; [constructor; [exact Hrep|constructor]|].
    destruct (is_low d) eqn:Hl; [|constructor; assumption].
    cbn [forallb] in Ht. apply andb_true_iff in Ht. destruct Ht as [_ Ht'].
    constructor.
    + unfold is_high in Hh. unfold is_low in Hl.
      apply andb_true_iff in Hh. destruct Hh as [Hh1 Hh2].
      apply andb_true_iff in Hl. destruct Hl as [Hl1 Hl2].
      apply Z.leb_le in Hh1, Hh2, Hl1, Hl2. unfold scalar. lia.
    + apply (IH (length t')); [subst n; simpl; lia|reflexivity|exact Ht'].
  - destruct (is_low c) eqn:Hl; [constructor; assumption|].
    constructor; [|exact IHt].
    assert (Hns : ~ (0xD800 <= c <= 0xDFFF)).
    { rewrite <- surrogate_tests. rewrite Hh, Hl. intros [?|?]; discriminate. }
    unfold scalar. lia.
Qed.

Lemma text_encode_is_bytes (s : jsstring) : is_jsstring s = true -> bytes (text_encode s).
Proof.
  intros Hs. pose proof (to_scalars_scalar s Hs) as Hsc.
  unfold text_encode, bytes. induction Hsc as [|cp cps Hc _ IH]; [constructor|].
  cbn [map concat]. apply Forall_app. split; [apply utf8_of_scalar_bytes, Hc|exact IH].
Qed.

Lemma well_formed_is_jsstring (s : jsstring) : well_formed s = true -> is_jsstring s = true.
Proof.
  remember (length s) as n eqn:Hn. revert s Hn.
  induction n as [n IH] using lt_wf_ind. intros s Hn Hwf.
  destruct s as [|c t]; [reflexivity|].
  cbn [well_formed] in Hwf. apply andb_true_iff in Hwf. destruct Hwf as [Hu Hwf].
  cbn [is_jsstring forallb]. rewrite Hu. simpl.
  destruct (is_high c).
  - destruct t as [|d t']; [discriminate|].
    apply andb_true_iff in Hwf. destruct Hwf as [Hl Hwf].
    cbn [forallb]. apply andb_true_iff. split.
    + unfold is_low in Hl. unfold code_unit.
      apply andb_true_iff in Hl. destruct Hl as [Hl1 Hl2].
      apply Z.leb_le in Hl1, Hl2. apply andb_true_iff.
      split; [apply Z.leb_le|apply Z.ltb_lt]; lia.
    + apply (IH (length t')); [subst n; simpl; lia|reflexivity|exact Hwf].
  - apply andb_true_iff in Hwf. destruct Hwf as [_ Hwf].
    apply (IH (length t)); [subst n; simpl; lia|reflexivity|exact Hwf].
Qed.

Lemma random_values (n : nat) (w : World) :
  bytes (fst (getRandomValues n w)) /\ length (fst (getRandomValues n w)) = n
  /\ now (snd (getRandomValues n w)) = now w.
Proof.
  unfold getRandomValues. simpl. split; [|split; [|reflexivity]].
  - unfold bytes, byte. apply Forall_map, Forall_forall. intros i _.
    apply Z.mod_pos_bound. lia.
  - rewrite length_map, length_seq. reflexivity.
Qed.

Lemma random_values_engine (n : nat) (w : World) :
  max_arguments (snd (getRandomValues n w)) = max_arguments w.
Proof. reflexivity. Qed.

Lemma b64_alphabet_char (i : Z) : sextet i -> b64_alphabet (b64_char i) = true.
Proof. intros H. unfold b64_alphabet. rewrite (b64_index_char i H). reflexivity. Qed.

Lemma drop_alphabet_chars (l : list Z) (pad : jsstring) :
  Forall sextet l -> drop_alphabet (map b64_char l ++ 61 :: pad) = 61 :: pad.
Proof.
  induction 1 as [|i l Hi _ IH]; [reflexivity|].
  cbn [map app drop_alphabet]. rewrite (b64_alphabet_char i Hi). exact IH.
Qed.

(** The base 64 of sixteen bytes passes [validateNonce]. *)
Lemma nonce_of_16_bytes_valid (bs : list Z) :
  bytes bs -> length bs = 16%nat -> validateNonce (base64_of_bytes bs) = true.
Proof.
  intros Hb Hl. pose proof (sextets_range bs Hb) as Hs.
  destruct (sextets_length bs) as (k & Hk).
  assert (Hlen : length (b64_sextets bs) = 22%nat /\ b64_padding (length bs) = [61; 61]).
  { destruct Hk as [(H1 & _)|[(H1 & H2 & H3)|(H1 & _)]]; try lia.
    split; [|exact H3]. lia. }
  destruct Hlen as [Hlen Hpad].
  unfold validateNonce, base64_of_bytes, base64_encode. rewrite Hpad.
  rewrite length_app, length_map, Hlen. simpl length.
  replace (16 <=? Z.of_nat (22 + 2)) with true by reflexivity. cbn [andb].
  destruct (b64_sextets bs) as [|i l]; [discriminate|].
  inversion Hs; subst. cbn [map app nonce_pattern].
  rewrite b64_alphabet_char by assumption.
  rewrite drop_alphabet_chars by assumption. reflexivity.
Qed.

Lemma sequence_number_positive (id : jsstring) (cs : counters) :
  counters_ok cs -> 0 < fst (getSequenceNumber id cs).
Proof.
  intros Hok. unfold getSequenceNumber. simpl.
  destruct (cs !! id) as [n|] eqn:Hn; [|lia].
  specialize (Hok id n Hn). destruct (truthy_number n); lia.
Qed.

Lemma sequence_counters_stay_ok (id : jsstring) (cs : counters) :
  counters_ok cs -> counters_ok (snd (getSequenceNumber id cs)).
Proof.
  intros Hok id' n'. pose proof (sequence_number_positive id cs Hok) as Hp.
  unfold getSequenceNumber in *. simpl in *. rewrite lookup_insert.
  case_decide; [|apply Hok]. intros Heq. injection Heq as <-. lia.
Qed.

Lemma reset_counters_stay_ok (id : jsstring) (cs : counters) :
  counters_ok cs -> counters_ok (resetSequenceCounter id cs).
Proof.
  intros Hok id' n H. unfold resetSequenceCounter in H.
  apply lookup_delete_Some in H. destruct H as [_ H]. exact (Hok id' n H).
Qed.

Lemma slices_of_encryption (c t : list Z) :
  length t = 16%nat ->
  slice_but_last16 (c ++ t) = c /\ slice_last16 (c ++ t) = t.
Proof.
  intros Ht. unfold slice_but_last16, slice_last16. rewrite length_app, Ht.
  replace (length c + 16 - 16)%nat with (length c) by lia.
  rewrite firstn_app, firstn_all, Nat.sub_diag, firstn_O, app_nil_r.
  rewrite skipn_app, skipn_all, Nat.sub_diag, skipn_O. split; reflexivity.
Qed.

(** The slices of what AES-GCM returns: the ciphertext, as long as the
    plaintext, and the tag. *)
Lemma slices_of_gcm (key iv p : list Z) :
  slice_but_last16 (AesGcm.encrypt key iv p)
  = AesGcm.gctr (AesGcm.aes256 key) (AesGcm.inc32 (AesGcm.j0 (AesGcm.aes256 key) iv)) p
  /\ slice_last16 (AesGcm.encrypt key iv p)
     = AesGcm.tag (AesGcm.aes256 key) iv
         (AesGcm.gctr (AesGcm.aes256 key)
            (AesGcm.inc32 (AesGcm.j0 (AesGcm.aes256 key) iv)) p)
  /\ length (slice_but_last16 (AesGcm.encrypt key iv p)) = length p
  /\ length (slice_last16 (AesGcm.encrypt key iv p)) = 16%nat.
Proof.
  unfold AesGcm.encrypt, AesGcm.gcm_encrypt.
  destruct (slices_of_encryption
              (AesGcm.gctr (AesGcm.aes256 key)
                 (AesGcm.inc32 (AesGcm.j0 (AesGcm.aes256 key) iv)) p)
              (AesGcm.tag (AesGcm.aes256 key) iv
                 (AesGcm.gctr (AesGcm.aes256 key)
                    (AesGcm.inc32 (AesGcm.j0 (AesGcm.aes256 key) iv)) p))
              (tag_length _ _ _)) as [Hs1 Hs2].
  rewrite Hs1, Hs2, gctr_length, tag_length. repeat split; reflexivity.
Qed.

(** What [decryptMessage] returns on what [encryptMessage] produced: the
    plaintext as [TextDecoder] reads the bytes [TextEncoder] wrote. The engine
    takes sixteen arguments at least, and as many as the plaintext has bytes. *)
Lemma decrypt_of_encrypt (message : jsstring) (sessionKey : list Z)
    (conversationId : jsstring) (w : World) (cs : counters) :
  is_jsstring message = true -> now w <> 0 -> counters_ok cs ->
  16 <= max_arguments w ->
  Z.of_nat (length (text_encode message)) <= max_arguments w ->
  exists encrypted w2 cs',
    encryptMessage message sessionKey conversationId w cs = (inr encrypted, w2, cs')
    /\ counters_ok cs'
    /\ timestamp encrypted = Some (now w)
    /\ sequenceNumber encrypted = Some (fst (getSequenceNumber conversationId cs))
    /\ (exists n, nonce encrypted = Some n /\ validateNonce n = true)
    /\ forall w', snd (decryptMessage encrypted sessionKey w')
                  = inr (text_decode (text_encode message)).
Proof.
  intros Hm Hnow Hok Hargs Hfits. unfold encryptMessage, generateNonce.
  pose proof (random_values 12 w) as (Hivb & Hivl & Hn1).
  pose proof (random_values_engine 12 w) as He1.
  destruct (getRandomValues 12 w) as [ivBytes w1] eqn:Hiv.
  pose proof (random_values 16 w1) as (Hnbb & Hnbl & Hn2).
  pose proof (random_values_engine 16 w1) as He2.
  destruct (getRandomValues 16 w1) as [nonceBytes w2] eqn:Hnb.
  pose proof (sequence_number_positive conversationId cs Hok) as Hseq.
  pose proof (sequence_counters_stay_ok conversationId cs Hok) as Hok'.
  destruct (getSequenceNumber conversationId cs) as [sq cs'] eqn:Hsq.
  cbn [fst snd] in *.
  assert (Hlimit : max_arguments w2 = max_arguments w) by congruence.
  rewrite Hlimit.
  rewrite (spread_within _ nonceBytes) by (rewrite Hnbl; exact Hargs).
  pose proof (nonce_of_16_bytes_valid nonceBytes Hnbb Hnbl) as Hvalid.
  rewrite Hvalid. cbn [negb].
  destruct (slices_of_gcm sessionKey ivBytes (text_encode message))
    as (Hs1 & Hs2 & Hl1 & Hl2).
  rewrite (spread_within _ (slice_but_last16 _)) by (rewrite Hl1; exact Hfits).
  rewrite (spread_within _ ivBytes) by (rewrite Hivl; lia).
  rewrite (spread_within _ (slice_last16 _)) by (rewrite Hl2; lia).
  eexists _, _, _. split; [reflexivity|]. split; [exact Hok'|].
  split; [simpl; congruence|]. split; [reflexivity|].
  split; [eexists; split; [reflexivity|exact Hvalid]|].
  intros w'. unfold decryptMessage, replay_fields_missing. cbn [nonce timestamp sequenceNumber
    ciphertext iv tag truthy_opt].
  assert (Hts : truthy_number (now w2) = true).
  { unfold truthy_number. apply negb_true_iff, Z.eqb_neq. congruence. }
  assert (Hsn : truthy_number sq = true).
  { unfold truthy_number. apply negb_true_iff, Z.eqb_neq. lia. }
  assert (Hnn : truthy_string (base64_of_bytes nonceBytes) = true).
  { unfold validateNonce in Hvalid. apply andb_true_iff in Hvalid. destruct Hvalid as [_ Hp].
    destruct (base64_of_bytes nonceBytes); [discriminate|reflexivity]. }
  rewrite Hts, Hsn, Hnn. cbn [negb orb default from_option id]. rewrite Hvalid. cbn [negb].
  pose proof (text_encode_is_bytes message Hm) as Hpb.
  rewrite Hs1, Hs2.
  unfold bytes_of_base64, base64_of_bytes.
  rewrite !atob_base64_encode
    by (try exact Hivb; try apply be_bytes_bytes; apply gctr_bytes, Hpb).
  unfold AesGcm.decrypt. rewrite gcm_decrypt_pair, gctr_involutive. reflexivity.
Qed.

(** A plaintext with more bytes than the engine takes arguments: the spread
    of the ciphertext throws, after the sequence number has been counted. *)
Lemma encrypt_beyond_limit (message : jsstring) (sessionKey : list Z)
    (conversationId : jsstring) (w : World) (cs : counters) :
  16 <= max_arguments w ->
  max_arguments w < Z.of_nat (length (text_encode message)) ->
  fst (fst (encryptMessage message sessionKey conversationId w cs)) = inl RangeError
  /\ snd (encryptMessage message sessionKey conversationId w cs)
     = snd (getSequenceNumber conversationId cs).
Proof.
  intros Hargs Hlong. unfold encryptMessage, generateNonce.
  pose proof (random_values 12 w) as (Hivb & Hivl & Hn1).
  pose proof (random_values_engine 12 w) as He1.
  destruct (getRandomValues 12 w) as [ivBytes w1] eqn:Hiv.
  pose proof (random_values 16 w1) as (Hnbb & Hnbl & Hn2).
  pose proof (random_values_engine 16 w1) as He2.
  destruct (getRandomValues 16 w1) as [nonceBytes w2] eqn:Hnb.
  destruct (getSequenceNumber conversationId cs) as [sq cs'] eqn:Hsq.
  cbn [fst snd] in *.
  assert (Hlimit : max_arguments w2 = max_arguments w) by congruence.
  rewrite Hlimit.
  rewrite (spread_within _ nonceBytes) by (rewrite Hnbl; exact Hargs).
  rewrite (nonce_of_16_bytes_valid nonceBytes Hnbb Hnbl). cbn [negb].
  destruct (slices_of_gcm sessionKey ivBytes (text_encode message))
    as (_ & _ & Hl1 & _).
  rewrite (spread_beyond _ (slice_but_last16 _)) by (rewrite Hl1; exact Hlong).
  split; reflexivity.
Qed.

(** The outcome of [decryptMessage] on a record whose replay triple passes the
    two tests is a function of [ciphertext], [iv], [tag] and the key. *)
Lemma decrypt_reads_payload (encrypted : EncryptedMessage) (sessionKey : list Z)
    (w : World) :
  triple_passes encrypted ->
  snd (decryptMessage encrypted sessionKey w)
  = match bytes_of_base64 (iv encrypted), bytes_of_base64 (ciphertext encrypted),
          bytes_of_base64 (tag encrypted) with
    | Some ivBytes, Some ciphertextBytes, Some tagBytes =>
        match AesGcm.decrypt sessionKey ivBytes (ciphertextBytes ++ tagBytes) with
        | Some decrypted => inr (text_decode decrypted)
        | None => inl FailedToDecrypt
        end
    | _, _, _ => inl InvalidCharacter
    end.
Proof.
  intros (n & t & q & Hn & Ht & Hq & Hn0 & Ht0 & Hq0 & Hv).
  unfold decryptMessage, replay_fields_missing. rewrite Hn, Ht, Hq.
  cbn [truthy_opt default from_option id].
  replace (truthy_string n) with true by (destruct n; [congruence|reflexivity]).
  unfold truthy_number.
  apply Z.eqb_neq in Ht0, Hq0. rewrite Ht0, Hq0, Hv. cbn [negb orb].
  destruct (bytes_of_base64 (iv encrypted)); [|reflexivity].
  destruct (bytes_of_base64 (ciphertext encrypted)); [|reflexivity].
  destruct (bytes_of_base64 (tag encrypted)); [|reflexivity].
  destruct (AesGcm.decrypt _ _ _); reflexivity.
Qed.

(** C3, as amended. For every key, every conversation id and every plaintext
    that is a well-formed string (code units in range, no lone surrogate) and
    does not start with U+FEFF, in a state the module can be in, with a clock
    that does not read 0 and an engine that takes sixteen arguments in a call:
    when the UTF-8 encoding of the plaintext has no more bytes than the engine
    takes arguments, [decryptMessage] run on what [encryptMessage] returns
    gives the plaintext back, whatever the decoder's clock; when it has more,
    [encryptMessage] throws a [RangeError] and there is nothing to decrypt. *)
Theorem encrypt_decrypt_round_trip
    (message : jsstring) (sessionKey : list Z) (conversationId : jsstring)
    (w : World) (cs : counters) (w' : World) :
  well_formed message = true -> no_bom message = true ->
  now w <> 0 -> counters_ok cs -> 16 <= max_arguments w ->
  (Z.of_nat (length (text_encode message)) <= max_arguments w ->
   decrypt_encrypted message sessionKey conversationId w cs w' = Some (inr message))
  /\ (max_arguments w < Z.of_nat (length (text_encode message)) ->
      fst (fst (encryptMessage message sessionKey conversationId w cs)) = inl RangeError
      /\ decrypt_encrypted message sessionKey conversationId w cs w' = None).
Proof.
  intros Hwf Hb Hnow Hok Hargs. split.
  - intros Hfits.
    destruct (decrypt_of_encrypt message sessionKey conversationId w cs
                (well_formed_is_jsstring _ Hwf) Hnow Hok Hargs Hfits)
      as (encrypted & w2 & cs' & Henc & _ & _ & _ & _ & Hdec).
    unfold decrypt_encrypted. rewrite Henc, Hdec, text_decode_encode by assumption.
    reflexivity.
  - intros Hlong.
    destruct (encrypt_beyond_limit message sessionKey conversationId w cs Hargs Hlong)
      as [Hthrown _].
    unfold decrypt_encrypted.
    destruct (encryptMessage message sessionKey conversationId w cs) as [[r w2] cs'].
    cbn [fst] in Hthrown. subst r. split; reflexivity.
Qed.

Lemma counters_ok_empty : counters_ok ∅.
Proof. intros id n H. rewrite lookup_empty in H. discriminate. Qed.

Lemma encrypt_decrypt_round_trip_witness :
  decrypt_encrypted (lit "hello") session_key conversation_id world0 ∅ world0
  = Some (inr (lit "hello")).
Proof.
  apply (encrypt_decrypt_round_trip (lit "hello") session_key conversation_id world0 ∅
           world0).
  - reflexivity.
  - reflexivity.
  - discriminate.
  - apply counters_ok_empty.
  - vm_compute. discriminate.
  - vm_compute. discriminate.
Defined.

Lemma sample_fits (message : jsstring) :
  Z.of_nat (length (text_encode message)) <= 65536 ->
  16 <= max_arguments world0
  /\ Z.of_nat (length (text_encode message)) <= max_arguments world0.
Proof. intros H. split; [vm_compute; discriminate|exact H]. Qed.

(** C3 as stated fails on three kinds of plaintext. A lone surrogate comes
    back as U+FFFD, since [TextEncoder] writes the replacement character for
    it; a plaintext that starts with U+FEFF comes back without it, since
    [TextDecoder] drops a leading byte order mark; and a plaintext of 65537
    letters, in an engine that takes 65536 arguments in a call, does not come
    back at all: [encryptMessage] throws a [RangeError] when it spreads the
    ciphertext. *)
Lemma round_trip_alters_plaintext :
  decrypt_encrypted [0xD800] session_key conversation_id world0 ∅ world0
  = Some (inr [0xFFFD])
  /\ decrypt_encrypted (0xFEFF :: lit "hi") session_key conversation_id world0 ∅ world0
     = Some (inr (lit "hi"))
  /\ well_formed long_message = true
  /\ no_bom long_message = true
  /\ Z.of_nat (length (text_encode long_message)) = 65537
  /\ max_arguments world0 = 65536
  /\ fst (fst (encryptMessage long_message session_key conversation_id world0 ∅))
     = inl RangeError
  /\ decrypt_encrypted long_message session_key conversation_id world0 ∅ world0 = None.
Proof.
  split; [|split].
  - destruct (sample_fits [0xD800] ltac:(vm_compute; discriminate)) as [Ha Hf].
    destruct (decrypt_of_encrypt [0xD800] session_key conversation_id world0 ∅
                eq_refl ltac:(discriminate) counters_ok_empty Ha Hf)
      as (encrypted & w2 & cs' & Henc & _ & _ & _ & _ & Hdec).
    unfold decrypt_encrypted. rewrite Henc, Hdec. reflexivity.
  - destruct (sample_fits (0xFEFF :: lit "hi") ltac:(vm_compute; discriminate))
      as [Ha Hf].
    destruct (decrypt_of_encrypt (0xFEFF :: lit "hi") session_key conversation_id world0 ∅
                eq_refl ltac:(discriminate) counters_ok_empty Ha Hf)
      as (encrypted & w2 & cs' & Henc & _ & _ & _ & _ & Hdec).
    unfold decrypt_encrypted. rewrite Henc, Hdec. reflexivity.
  - assert (Hlen : Z.of_nat (length (text_encode long_message)) = 65537)
      by (vm_compute; reflexivity).
    split; [vm_compute; reflexivity|]. split; [reflexivity|].
    split; [exact Hlen|]. split; [reflexivity|].
    destruct (encrypt_beyond_limit long_message session_key conversation_id world0 ∅)
      as [Hthrown _].
    { vm_compute. discriminate. }
    { rewrite Hlen. vm_compute. reflexivity. }
    unfold decrypt_encrypted.
    destruct (encryptMessage long_message session_key conversation_id world0 ∅)
      as [[r w2] cs'].
    cbn [fst] in Hthrown. subst r. split; reflexivity.
Qed.

(** C9, as amended. Two records that agree on [ciphertext], [iv] and [tag],
    each with a replay triple that passes the decoder's two tests (a nonce
    that is there, not empty and of valid format, a timestamp and a sequence
    number that are there and not 0), have the same outcome under
    [decryptMessage], whatever the clocks: the same plaintext or the same
    error. Nothing of the triple enters the AES-GCM call. *)
Theorem replay_triple_not_authenticated
    (r1 r2 : EncryptedMessage) (sessionKey : list Z) (w1 w2 : World) :
  ciphertext r1 = ciphertext r2 -> iv r1 = iv r2 -> tag r1 = tag r2 ->
  triple_passes r1 -> triple_passes r2 ->
  snd (decryptMessage r1 sessionKey w1) = snd (decryptMessage r2 sessionKey w2).
Proof.
  intros Hc Hi Ht H1 H2.
  rewrite (decrypt_reads_payload r1 sessionKey w1 H1).
  rewrite (decrypt_reads_payload r2 sessionKey w2 H2).
  rewrite Hc, Hi, Ht. reflexivity.
Qed.

Lemma sample_encrypted_decrypts (n : jsstring) (t q : Z) (w : World) :
  n <> [] -> t <> 0 -> q <> 0 -> validateNonce n = true ->
  snd (decryptMessage (with_triple sample_encrypted (Some n) (Some t) (Some q))
         session_key w) = inr (lit "hi").
Proof.
  intros Hn Ht Hq Hv.
  destruct (sample_fits (lit "hi") ltac:(vm_compute; discriminate)) as [Ha Hf].
  destruct (decrypt_of_encrypt (lit "hi") session_key conversation_id world0 ∅
              eq_refl ltac:(discriminate) counters_ok_empty Ha Hf)
    as (encrypted & w2 & cs' & Henc & _ & Hts & Hsq & (n0 & Hn0 & Hv0) & Hdec).
  assert (Hs : sample_encrypted = encrypted).
  { unfold sample_encrypted. rewrite Henc. reflexivity. }
  specialize (Hdec w).
  rewrite decrypt_reads_payload in Hdec.
  2:{ exists n0, (now world0), (fst (getSequenceNumber conversation_id ∅)).
      repeat split; try assumption; try discriminate.
      unfold validateNonce in Hv0. intros ->. discriminate. }
  rewrite decrypt_reads_payload.
  2:{ exists n, t, q. repeat split; assumption. }
  rewrite Hs. exact Hdec.
Qed.

Lemma replay_triple_not_authenticated_witness :
  snd (decryptMessage (with_triple sample_encrypted (Some sample_nonce) (Some 1) (Some 7))
         session_key world0)
  = snd (decryptMessage
           (with_triple sample_encrypted (Some (lit "QkJCQkJCQkJCQkJCQkJCQg=="))
              (Some 1700000000000) (Some 2))
           session_key world0).
Proof.
  apply (replay_triple_not_authenticated
           (with_triple sample_encrypted (Some sample_nonce) (Some 1) (Some 7))
           (with_triple sample_encrypted (Some (lit "QkJCQkJCQkJCQkJCQkJCQg=="))
              (Some 1700000000000) (Some 2))
           session_key world0 world0); try reflexivity.
  - exists sample_nonce, 1, 7. repeat split; try discriminate.
  - exists (lit "QkJCQkJCQkJCQkJCQkJCQg=="), 1700000000000, 2.
    repeat split; try discriminate.
Defined.

(** C9 as stated fails when one of the two records has a field that is there
    and falsy. The two records below agree on [ciphertext], [iv] and [tag]
    and on a nonce of valid format; all three fields of the triple are there in
    both. With sequence number 1 the record decrypts; with sequence number 0
    [decryptMessage] throws the missing-fields error. *)
Lemma zero_sequence_breaks_decryption :
  snd (decryptMessage
         (with_triple sample_encrypted (Some sample_nonce) (Some 1700000000000) (Some 1))
         session_key world0) = inr (lit "hi")
  /\ snd (decryptMessage
            (with_triple sample_encrypted (Some sample_nonce) (Some 1700000000000) (Some 0))
            session_key world0) = inl MissingReplayFields
  /\ validateNonce sample_nonce = true.
Proof.
  split; [|split; reflexivity].
  apply sample_encrypted_decrypts; try discriminate. reflexivity.
Qed.

End MessageCodec.

(** ** Stable sorting *)

Section SortFacts.
Import JsArray.
Context {A : Type}.
Variable key : A -> Z.

Lemma insert_sorted_perm (x : A) (l : list A) : Permutation (insert_sorted key x l) (x :: l).
Proof.
  induction l as [|y l IH]; simpl; [reflexivity|].
  destruct (key x <=? key y); [reflexivity|].
  rewrite IH. apply perm_swap.
Qed.

Lemma sort_by_perm (l : list A) : Permutation (sort_by key l) l.
Proof.
  induction l as [|x l IH]; simpl; [reflexivity|].
  rewrite insert_sorted_perm, IH. reflexivity.
Qed.

Lemma insert_sorted_sorted (x : A) (l : list A) :
  StronglySorted (fun a b => key a <= key b) l ->
  StronglySorted (fun a b => key a <= key b) (insert_sorted key x l).
Proof.
  induction 1 as [|y l Hs IH Hy]; simpl; [repeat constructor|].
  destruct (key x <=? key y) eqn:Hxy.
  - apply Z.leb_le in Hxy. constructor; [constructor; assumption|].
    constructor; [exact Hxy|].
    eapply Forall_impl; [exact Hy|]. intros z Hz. simpl in Hz. lia.
  - apply Z.leb_gt in Hxy. constructor; [exact IH|].
    rewrite insert_sorted_perm. constructor; [lia|exact Hy].
Qed.

Lemma sort_by_sorted (l : list A) :
  StronglySorted (fun a b => key a <= key b) (sort_by key l).
Proof.
  induction l as [|x l IH]; simpl; [constructor|]. apply insert_sorted_sorted, IH.
Qed.

(** A list that is in order already is left as it is. *)
Lemma sort_by_id (l : list A) :
  StronglySorted (fun a b => key a <= key b) l -> sort_by key l = l.
Proof.
  induction 1 as [|x l Hs IH Hx]; [reflexivity|]. simpl. rewrite IH.
  destruct l as [|y l']; [reflexivity|]. simpl.
  apply Forall_cons in Hx. destruct Hx as [Hxy _].
  replace (key x <=? key y) with true by (symmetry; apply Z.leb_le; exact Hxy).
  reflexivity.
Qed.

Lemma strictly_sorted_unique (l1 l2 : list A) :
  StronglySorted (fun a b => key a < key b) l1 ->
  StronglySorted (fun a b => key a < key b) l2 ->
  Permutation l1 l2 -> l1 = l2.
Proof.
  intros H1. revert l2. induction H1 as [|x l1 Hs IH Hx]; intros l2 H2 Hp.
  - apply Permutation_nil in Hp. congruence.
  - destruct H2 as [|y l2 Hs2 Hy].
    + symmetry in Hp. apply Permutation_nil in Hp. discriminate.
    + assert (Hxy : x = y).
      { assert (Hin1 : In x (y :: l2)).
        { apply (Permutation_in _ Hp). left. reflexivity. }
        assert (Hin2 : In y (x :: l1)).
        { apply (Permutation_in _ (Permutation_sym Hp)). left. reflexivity. }
        destruct Hin1 as [->|Hin1]; [reflexivity|].
        destruct Hin2 as [->|Hin2]; [reflexivity|].
        rewrite List.Forall_forall in Hx, Hy.
        specialize (Hx _ Hin2). specialize (Hy _ Hin1). simpl in *. lia. }
      subst y. f_equal. apply IH; [exact Hs2|].
      apply (Permutation_cons_inv Hp).
Qed.

Lemma sorted_distinct_strict (l : list A) :
  StronglySorted (fun a b => key a <= key b) l -> NoDup (map key l) ->
  StronglySorted (fun a b => key a < key b) l.
Proof.
  induction 1 as [|x l Hs IH Hx]; intros Hn; [constructor|].
  simpl in Hn. apply NoDup_cons in Hn. destruct Hn as [Hnx Hn].
  constructor; [apply IH, Hn|].
  rewrite List.Forall_forall in Hx. apply List.Forall_forall. intros y Hy.
  specialize (Hx y Hy). simpl in Hx.
  assert (key x <> key y); [|lia].
  intros Heq. apply Hnx. rewrite Heq. apply list_elem_of_In, in_map, Hy.
Qed.

(** With pairwise distinct keys the outcome does not depend on the order the
    elements come in. *)
Lemma sort_by_perm_invariant (l1 l2 : list A) :
  Permutation l1 l2 -> NoDup (map key l1) -> sort_by key l1 = sort_by key l2.
Proof.
  intros Hp Hn. apply strictly_sorted_unique.
  - apply sorted_distinct_strict; [apply sort_by_sorted|].
    rewrite (sort_by_perm l1). exact Hn.
  - apply sorted_distinct_strict; [apply sort_by_sorted|].
    rewrite (sort_by_perm l2), <- Hp. exact Hn.
  - rewrite !sort_by_perm. exact Hp.
Qed.

End SortFacts.
(** ** Runs of the gate *)

Section GateRuns.
Import Js ReplayProtection GateLayers RelayRuns Samples.

(** An accepted request that names a conversation leaves its sequence number
    in the tracker under both keys. *)
Lemma gate_accept_tracks (g g' : Gate) (db : list MessageModel.Message) (now : Z)
    (req : Request) :
  replayProtection g db now req = (Next, g') ->
  names_conversation req = true ->
  sequenceTracking g' !! conversation_key (userId req) (default [] (recipientId req))
    = Some (default 0 (sequenceNumber req))
  /\ sequenceTracking g' !! conversation_key (default [] (recipientId req)) (userId req)
     = Some (default 0 (sequenceNumber req)).
Proof.
  unfold replayProtection. intros Hr Hn.
  destruct (fields_missing req); [discriminate|].
  destruct (_ <? -60000); [discriminate|].
  destruct (MAX_NONCE_AGE <? _); [discriminate|].
  destruct (bool_decide _); [discriminate|].
  rewrite names_conversation_truthy, Hn in Hr.
  destruct (lookup_last _ _ _ _) as [last tracking].
  destruct (_ <=? last); [discriminate|].
  injection Hr as <-. simpl. split.
  - rewrite lookup_insert. case_decide; [reflexivity|]. apply lookup_insert_eq.
  - apply lookup_insert_eq.
Qed.


Lemma gate_accept_tracking (g g' : Gate) (db : list MessageModel.Message) (now : Z)
    (req : Request) :
  replayProtection g db now req = (Next, g') ->
  sequenceTracking g'
  = if names_conversation req
    then <[conversation_key (default [] (recipientId req)) (userId req)
             := default 0 (sequenceNumber req)]>
           (<[conversation_key (userId req) (default [] (recipientId req))
                := default 0 (sequenceNumber req)]>
              (snd (lookup_last (sequenceTracking g) db (userId req)
                      (default [] (recipientId req)))))
    else sequenceTracking g.
Proof.
  unfold replayProtection. intros Hr.
  destruct (fields_missing req); [discriminate|].
  destruct (_ <? -60000); [discriminate|].
  destruct (MAX_NONCE_AGE <? _); [discriminate|].
  destruct (bool_decide _); [discriminate|].
  rewrite names_conversation_truthy in Hr.
  destruct (names_conversation req).
  - destruct (lookup_last _ _ _ _) as [last tracking].
    destruct (_ <=? last); [discriminate|].
    injection Hr as <-. reflexivity.
  - injection Hr as <-. reflexivity.
Qed.

Lemma concerns_names (a b : jsstring) (req : Request) :
  a <> [] -> b <> [] -> concerns a b req = true ->
  names_conversation req = true
  /\ (conversation_key (userId req) (default [] (recipientId req)) = conversation_key a b
      \/ conversation_key (userId req) (default [] (recipientId req)) = conversation_key b a).
Proof.
  intros Ha Hb Hc. unfold concerns in Hc. unfold names_conversation.
  apply orb_true_iff in Hc.
  destruct Hc as [Hc|Hc]; apply andb_true_iff in Hc; destruct Hc as [Hu Hr];
    apply bool_decide_eq_true in Hu; apply bool_decide_eq_true in Hr;
    rewrite Hu, Hr; simpl.
  - split; [|left; reflexivity].
    rewrite !bool_decide_eq_false_2 by assumption. reflexivity.
  - split; [|right; reflexivity].
    rewrite !bool_decide_eq_false_2 by assumption. reflexivity.
Qed.

Lemma key_concerns (a b : jsstring) (req : Request) :
  no_hyphen a = true -> no_hyphen b = true ->
  names_conversation req = true ->
  conversation_key a b = conversation_key (userId req) (default [] (recipientId req))
  \/ conversation_key a b = conversation_key (default [] (recipientId req)) (userId req) ->
  concerns a b req = true.
Proof.
  intros Ha Hb Hn Hk. unfold names_conversation in Hn.
  apply andb_true_iff in Hn. destruct Hn as [_ Hn].
  destruct (recipientId req) as [r|] eqn:Er; [|discriminate]. simpl in Hk.
  unfold concerns. rewrite Er. apply orb_true_iff.
  destruct Hk as [Hk|Hk]; apply conversation_key_split in Hk; try assumption;
    destruct Hk as [-> ->].
  - left. rewrite !bool_decide_eq_true_2 by reflexivity. reflexivity.
  - right. rewrite !bool_decide_eq_true_2 by reflexivity. reflexivity.
Qed.

(** One request at the gate, seen from the conversation between [a] and [b]:
    either it brings a sequence number through, above the one tracked, which
    the tracker then holds; or it brings none, and what the tracker holds for
    the conversation stays. *)
Lemma gate_step_at (a b : jsstring) (g : Gate) (db : list MessageModel.Message) (now : Z)
    (req : Request) :
  no_hyphen a = true -> no_hyphen b = true -> a <> [] -> b <> [] ->
  paired (sequenceTracking g) ->
  (exists q, accepted_here a b g (Arrive db now req) = [q]
      /\ sequenceTracking (snd (replayProtection g db now req)) !! conversation_key a b
         = Some q
      /\ (forall v, sequenceTracking g !! conversation_key a b = Some v -> v < q))
  \/ (accepted_here a b g (Arrive db now req) = []
      /\ forall v, sequenceTracking g !! conversation_key a b = Some v ->
           sequenceTracking (snd (replayProtection g db now req)) !! conversation_key a b
           = Some v).
Proof.
  intros Ha Hb Ha0 Hb0 Hp. unfold accepted_here.
  destruct (replayProtection g db now req) as [o g'] eqn:Hr. cbn [fst snd].
  destruct o as [|status why].
  - destruct (gate_accept_records _ _ _ _ _ Hr)
      as (n & ts & sq & En & Et & Es & _ & _ & _ & _ & _).
    pose proof (gate_accept_tracking _ _ _ _ _ Hr) as Htr.
    rewrite Es in *. cbn [default from_option id] in Htr.
    destruct (concerns a b req) eqn:Hc.
    + left. exists sq. split; [reflexivity|].
      destruct (concerns_names a b req Ha0 Hb0 Hc) as [Hn Hk].
      destruct (gate_accept_tracks _ _ _ _ _ Hr Hn) as [H1 H2]. rewrite Es in H1, H2.
      cbn [default from_option id] in H1, H2.
      assert (Hacc : accepts g db now req = true).
      { pose proof (gate_outcome g db now req) as Ho. rewrite Hr in Ho. simpl in Ho.
        destruct (accepts g db now req); [reflexivity|discriminate]. }
      unfold accepts in Hacc. rewrite Hn in Hacc.
      apply andb_true_iff in Hacc. destruct Hacc as [_ Hex].
      unfold sequence_exceeds in Hex. rewrite Es in Hex. apply Z.ltb_lt in Hex.
      unfold last_seen in Hex.
      assert (Hkey : conversation_key a b
                     = conversation_key (userId req) (default [] (recipientId req))
                     \/ conversation_key a b
                        = conversation_key (default [] (recipientId req)) (userId req)).
      { unfold concerns in Hc. apply orb_true_iff in Hc.
        destruct Hc as [Hc|Hc]; apply andb_true_iff in Hc; destruct Hc as [Hu Hrc];
          apply bool_decide_eq_true in Hu; apply bool_decide_eq_true in Hrc;
          rewrite Hu, Hrc; simpl; [left|right]; reflexivity. }
      split.
      * destruct Hkey as [-> | ->]; assumption.
      * intros v Hv.
        assert (Hv' : sequenceTracking g
                        !! conversation_key (userId req) (default [] (recipientId req))
                      = Some v).
        { unfold concerns in Hc. apply orb_true_iff in Hc.
          destruct Hc as [Hc|Hc]; apply andb_true_iff in Hc; destruct Hc as [Hu Hrc];
            apply bool_decide_eq_true in Hu; apply bool_decide_eq_true in Hrc;
            rewrite Hu, Hrc; simpl.
          - exact Hv.
          - rewrite (Hp b a Hb Ha). exact Hv. }
        rewrite Hv' in Hex. exact Hex.
    + right. split; [reflexivity|]. intros v Hv. rewrite Htr.
      destruct (names_conversation req) eqn:Hn; [|exact Hv].
      rewrite !lookup_insert. repeat case_decide.
      * exfalso. assert (concerns a b req = true); [|congruence].
        apply key_concerns; auto.
      * exfalso. assert (concerns a b req = true); [|congruence].
        apply key_concerns; auto.
      * apply lookup_last_keeps_tracked; assumption.
  - right. split; [reflexivity|]. intros v Hv.
    destruct (gate_rejection_state _ _ _ _ _ _ _ Hr) as [->| ->]; [exact Hv|].
    simpl. apply lookup_last_keeps_tracked; assumption.
Qed.

(** Over a run, from a tracker that holds one value for the two directions:
    the sequence numbers let through for a conversation increase, and all lie
    above what the tracker held for it at the start. *)
Lemma accepted_sequences_sorted (a b : jsstring) (es : list event) (g : Gate) :
  no_hyphen a = true -> no_hyphen b = true -> a <> [] -> b <> [] ->
  paired (sequenceTracking g) ->
  StronglySorted Z.lt (accepted_sequences a b es g)
  /\ forall v, sequenceTracking g !! conversation_key a b = Some v ->
       Forall (Z.lt v) (accepted_sequences a b es g).
Proof.
  intros Ha Hb Ha0 Hb0. revert g. induction es as [|e es IH]; intros g Hp.
  - split; [constructor|]. intros. constructor.
  - cbn [accepted_sequences].
    assert (Hp' : paired (sequenceTracking (handle g e))).
    { destruct e as [now|db now req]; simpl; [exact Hp|]. apply gate_tracking_paired, Hp. }
    destruct (IH (handle g e) Hp') as [Hs Hbound].
    destruct e as [now|db now req].
    + simpl. split; [exact Hs|]. intros v Hv. apply Hbound. exact Hv.
    + destruct (gate_step_at a b g db now req Ha Hb Ha0 Hb0 Hp)
        as [(q & -> & Hq & Hlt)|[-> Hkeep]].
      * cbn [handle] in *. specialize (Hbound q Hq). split.
        -- simpl. constructor; assumption.
        -- intros v Hv. specialize (Hlt v Hv). simpl. constructor; [exact Hlt|].
           eapply Forall_impl; [exact Hbound|]. intros x Hx. simpl in Hx. lia.
      * cbn [handle] in *. simpl. split; [exact Hs|].
        intros v Hv. apply Hbound, Hkeep, Hv.
Qed.


Lemma object_id_string_nonempty (s : jsstring) :
  MessageModel.object_id_string s = true -> s <> [].
Proof. intros H ->. discriminate. Qed.

(** X1. Whatever run of sweeps and requests the gate sees, each request handled
    to its answer before the next arrives, the sequence numbers it lets
    through for the conversation between two users are strictly increasing,
    the two directions taken together. *)
Theorem accepted_sequences_increase (a b : jsstring) (es : list event) (g : Gate) :
  MessageModel.object_id_string a = true -> MessageModel.object_id_string b = true ->
  Forall (fun e => event_well_formed e = true) es ->
  reachable g ->
  StronglySorted Z.lt (accepted_sequences a b es g).
Proof.
  intros Ha Hb _ Hg.
  apply accepted_sequences_sorted.
  - apply object_id_string_no_hyphen, Ha.
  - apply object_id_string_no_hyphen, Hb.
  - apply object_id_string_nonempty, Ha.
  - apply object_id_string_nonempty, Hb.
  - apply reachable_paired, Hg.
Qed.

(** A request between the two peers of a request the gate has let through,
    with a sequence number that is not larger, is answered 400. *)
Lemma later_sequence_rejected
    (g g' : Gate) (db : list MessageModel.Message) (now : Z) (req : Request)
    (db2 : list MessageModel.Message) (now2 : Z) (req2 : Request) (q2 : Z) :
  replayProtection g db now req = (Next, g') ->
  names_conversation req = true ->
  concerns (userId req) (default [] (recipientId req)) req2 = true ->
  sequenceNumber req2 = Some q2 ->
  q2 <= default 0 (sequenceNumber req) ->
  fst (replayProtection g' db2 now2 req2) = Reject 400 (first_failure g' now2 req2)
  /\ (carried req2 = true -> in_window now2 req2 = true -> nonce_fresh g' req2 = true ->
      fst (replayProtection g' db2 now2 req2) = Reject 400 InvalidSequence).
Proof.
  intros Hr Hn Hc Hq2 Hle.
  destruct (gate_accept_tracks _ _ _ _ _ Hr Hn) as [H1 H2].
  assert (Hne : userId req <> [] /\ default [] (recipientId req) <> []).
  { unfold names_conversation in Hn. apply andb_true_iff in Hn. destruct Hn as [Hu Hrc].
    apply negb_true_iff, bool_decide_eq_false in Hu. split; [exact Hu|].
    destruct (recipientId req) as [r|]; [|discriminate].
    apply negb_true_iff, bool_decide_eq_false in Hrc. exact Hrc. }
  destruct Hne as [Hu0 Hr0].
  destruct (concerns_names _ _ req2 Hu0 Hr0 Hc) as [Hn2 Hk].
  assert (Hseen : last_seen g' db2 (userId req2) (default [] (recipientId req2))
                  = default 0 (sequenceNumber req)).
  { unfold last_seen. destruct Hk as [-> | ->]; [rewrite H1|rewrite H2]; reflexivity. }
  assert (Hex : sequence_exceeds g' db2 req2 (default [] (recipientId req2)) = false).
  { unfold sequence_exceeds. rewrite Hq2, Hseen. apply Z.ltb_ge. exact Hle. }
  assert (Hacc : accepts g' db2 now2 req2 = false).
  { unfold accepts. rewrite Hn2, Hex. apply andb_false_r. }
  rewrite gate_outcome, Hacc. split; [reflexivity|].
  intros Hca Hw Hf. unfold first_failure. rewrite Hca, Hw, Hf. simpl.
  unfold ahead_of_window. unfold in_window in Hw.
  destruct (timestamp req2) as [ts|]; [|discriminate].
  apply andb_true_iff in Hw. destruct Hw as [_ Hw]. apply Z.leb_le in Hw.
  replace (now2 + 60000 <? ts) with false by (symmetry; apply Z.ltb_ge; lia).
  reflexivity.
Qed.

(** X2. After the gate has let a request through, it holds the request's sequence
    number for both directions of the conversation: a request of either peer
    to the other that arrives afterwards with a sequence number that is not
    larger is not let through, and when it passes the first three layers the
    answer is the invalid-sequence error, whatever the store holds. *)
Theorem accepted_sequence_binds_both_directions
    (g g' : Gate) (db : list MessageModel.Message) (now : Z) (req : Request)
    (db2 : list MessageModel.Message) (now2 : Z) (req2 : Request) (q2 : Z) :
  ids_well_formed req = true -> store_well_formed db = true ->
  replayProtection g db now req = (Next, g') ->
  names_conversation req = true ->
  concerns (userId req) (default [] (recipientId req)) req2 = true ->
  sequenceNumber req2 = Some q2 ->
  q2 <= default 0 (sequenceNumber req) ->
  fst (replayProtection g' db2 now2 req2) = Reject 400 (first_failure g' now2 req2)
  /\ (carried req2 = true -> in_window now2 req2 = true -> nonce_fresh g' req2 = true ->
      fst (replayProtection g' db2 now2 req2) = Reject 400 InvalidSequence).
Proof.
  intros _ _ Hr Hn Hc Hq2 Hle.
  exact (later_sequence_rejected g g' db now req db2 now2 req2 q2 Hr Hn Hc Hq2 Hle).
Qed.

Lemma accepted_sequence_binds_both_directions_witness :
  fst (replayProtection gate_after_edge_request [] clock
         {| userId := bob; nonce := Some (lit "QkJCQkJCQkJCQkJCQkJCQg==");
            timestamp := Some clock; sequenceNumber := Some 1;
            recipientId := Some alice |})
  = Reject 400 InvalidSequence.
Proof.
  apply (accepted_sequence_binds_both_directions empty_gate gate_after_edge_request []
           clock request_at_window_edge [] clock
           {| userId := bob; nonce := Some (lit "QkJCQkJCQkJCQkJCQkJCQg==");
              timestamp := Some clock; sequenceNumber := Some 1;
              recipientId := Some alice |} 1); first [reflexivity | simpl; lia].
Defined.

(** X3. Two sweeps one after the other do what one sweep at the later of the two
    times does: sweeping twice at one time changes nothing, and the order of
    two sweeps does not matter. *)
Theorem sweeps_compose (t1 t2 : Z) (g : Gate) :
  sweep t2 (sweep t1 g) = sweep (Z.max t1 t2) g
  /\ sweep t1 (sweep t1 g) = sweep t1 g
  /\ sweep t2 (sweep t1 g) = sweep t1 (sweep t2 g).
Proof.
  assert (H : forall u1 u2, sweep u2 (sweep u1 g) = sweep (Z.max u1 u2) g).
  { intros u1 u2. unfold sweep. simpl. f_equal.
    rewrite map_filter_filter. apply map_filter_ext. intros n e _. simpl. lia. }
  split; [apply H|]. split.
  - rewrite H, Z.max_id. reflexivity.
  - rewrite !H, Z.max_comm. reflexivity.
Qed.


Lemma accepted_sequences_increase_witness :
  StronglySorted Z.lt
    (accepted_sequences alice bob
       [Arrive [] clock request_at_window_edge;
        Sweep (clock + 1);
        Arrive [] (clock + 2)
          {| userId := bob; nonce := Some (lit "QkJCQkJCQkJCQkJCQkJCQg==");
             timestamp := Some clock; sequenceNumber := Some 1;
             recipientId := Some alice |};
        Arrive [] (clock + 3)
          {| userId := bob; nonce := Some (lit "Q0NDQ0NDQ0NDQ0NDQ0NDQw==");
             timestamp := Some clock; sequenceNumber := Some 2;
             recipientId := Some alice |}]
       empty_gate).
Proof.
  apply (accepted_sequences_increase alice bob); [reflexivity|reflexivity| |].
  - repeat constructor.
  - apply reachable_empty.
Defined.

Lemma insert_size_le (m : gmap jsstring Z) (k : jsstring) (v : Z) :
  (size m <= size (<[k := v]> m))%nat.
Proof.
  destruct (m !! k) as [x|] eqn:Hk.
  - rewrite <- (insert_delete_id m k x Hk) at 1.
    rewrite <- (insert_delete_eq m k v).
    rewrite !map_size_insert_None by apply lookup_delete_eq. lia.
  - rewrite map_size_insert_None by exact Hk. lia.
Qed.

Lemma lookup_last_size (tracking : gmap jsstring Z) (db : list MessageModel.Message)
    (s r : jsstring) :
  (size tracking <= size (snd (lookup_last tracking db s r)))%nat.
Proof.
  unfold lookup_last. destruct (tracking !! conversation_key s r); simpl; [lia|].
  etransitivity; [|apply insert_size_le]. apply insert_size_le.
Qed.

(** X4. The sizes [getReplayProtectionStats] reports, event by event: the tracker
    never loses an entry, whatever arrives; the nonce cache gains exactly one
    entry with a request let through, keeps its size with a rejected one, and
    does not grow with a sweep. *)
Theorem gate_sizes (g : Gate) (e : event) :
  event_well_formed e = true ->
  (size (sequenceTracking g) <= size (sequenceTracking (handle g e)))%nat
  /\ getReplayProtectionStats (handle g e)
     = (match e with
        | Sweep now => size (nonceCache (sweep now g))
        | Arrive db now req =>
            match fst (replayProtection g db now req) with
            | Next => S (size (nonceCache g))
            | Reject _ _ => size (nonceCache g)
            end
        end, size (sequenceTracking (handle g e)), 300000)
  /\ (size (nonceCache (handle g e)) <= S (size (nonceCache g)))%nat
  /\ (forall now, e = Sweep now ->
        (size (nonceCache (handle g e)) <= size (nonceCache g))%nat).
Proof.
  intros _.
  assert (Hcache : size (nonceCache (handle g e))
                   = match e with
                     | Sweep now => size (nonceCache (sweep now g))
                     | Arrive db now req =>
                         match fst (replayProtection g db now req) with
                         | Next => S (size (nonceCache g))
                         | Reject _ _ => size (nonceCache g)
                         end
                     end).
  { destruct e as [now|db now req]; [reflexivity|]. cbn [handle].
    destruct (replayProtection g db now req) as [o g'] eqn:Hr. cbn [fst snd].
    destruct o as [|st why].
    - destruct (gate_accept_records _ _ _ _ _ Hr)
        as (n & ts & sq & En & Et & Es & _ & _ & _ & Hfresh & _).
      rewrite (gate_accept_inserts _ _ _ _ _ Hr), En. cbn [default from_option id].
      apply map_size_insert_None, Hfresh.
    - destruct (gate_rejection_state _ _ _ _ _ _ _ Hr) as [->| ->]; reflexivity. }
  assert (Hsweep : forall now, (size (nonceCache (sweep now g)) <= size (nonceCache g))%nat).
  { intros now. unfold sweep. simpl. apply map_subseteq_size, map_filter_subseteq. }
  split; [|split; [|split]].
  - destruct e as [now|db now req]; [simpl; lia|]. cbn [handle].
    destruct (replayProtection g db now req) as [o g'] eqn:Hr. cbn [snd].
    destruct o as [|st why].
    + rewrite (gate_accept_tracking _ _ _ _ _ Hr).
      destruct (names_conversation req); [|lia].
      etransitivity; [apply lookup_last_size|].
      etransitivity; [|apply insert_size_le]. apply insert_size_le.
    + destruct (gate_rejection_state _ _ _ _ _ _ _ Hr) as [->| ->]; [lia|].
      simpl. apply lookup_last_size.
  - unfold getReplayProtectionStats. rewrite Hcache. reflexivity.
  - rewrite Hcache. destruct e as [now|db now req].
    + specialize (Hsweep now). lia.
    + destruct (fst (replayProtection g db now req)); lia.
  - intros now ->. apply Hsweep.
Qed.

Lemma gate_sizes_witness :
  getReplayProtectionStats
    (handle empty_gate (Arrive [stored_message] clock request_with_next_sequence))
  = (1%nat, 2%nat, 300000).
Proof.
  destruct (gate_sizes empty_gate (Arrive [stored_message] clock request_with_next_sequence)
              eq_refl) as (_ & Hstats & _).
  rewrite Hstats. reflexivity.
Defined.

End GateRuns.

(** ** Runs of the send route over the store *)

Section StoreRuns.
Import Js MessageModel RelayRuns Samples.

Lemma validate_well_stored (now : Z) (c : Candidate) (m : Message) :
  validate now c = Some m -> well_stored m = true /\ timestamp_valid now (timestamp m) = true.
Proof.
  unfold validate.
  destruct (c_recipientId c) as [r|], (c_ciphertext c) as [ct|], (c_iv c) as [i|],
    (c_tag c) as [t|], (c_timestamp c) as [ts|], (c_sequenceNumber c) as [sq|],
    (c_nonce c) as [n|]; try discriminate.
  destruct (_ && _) eqn:Hv; [|discriminate]. intros Heq. injection Heq as <-.
  do 7 (apply andb_true_iff in Hv; destruct Hv as [Hv ?]).
  unfold well_stored. simpl.
  match goal with H : sequence_valid sq = true |- _ =>
    unfold sequence_valid in H; apply andb_true_iff in H; destruct H as [Hsq _] end.
  split; [|assumption].
  repeat match goal with H : ?x = true |- context [?x] => rewrite H end.
  reflexivity.
Qed.

(** What a successful [save] has checked. *)
Lemma save_appends (db db' : list Message) (now : Z) (c : Candidate) (m : Message) :
  save db now c = inr (m, db') ->
  db' = db ++ [m]
  /\ validate now c = Some m
  /\ ~ In (nonce m) (map nonce db)
  /\ (forall m', In m' db -> between (senderId m) (recipientId m) m' = true ->
                 sequenceNumber m' < sequenceNumber m).
Proof.
  unfold save. destruct (validate now c) as [m0|]; [|discriminate].
  destruct (sequence_hook db m0) eqn:Hh; simpl; [|discriminate].
  destruct (nonce_taken db (nonce m0)) eqn:Ht; [discriminate|].
  intros Heq. injection Heq as <- <-.
  split; [reflexivity|]. split; [reflexivity|]. split.
  - rewrite <- nonce_taken_spec, Ht. discriminate.
  - intros m' Hin Hb. unfold sequence_hook in Hh.
    destruct (last_sequence_bound db _ _ m' Hin Hb) as (last & Hl & Hle).
    rewrite Hl in Hh. apply negb_true_iff, Z.leb_gt in Hh. lia.
Qed.

Lemma between_same (a b : jsstring) (m m' : Message) :
  between a b m = true -> between a b m' = true ->
  between (senderId m) (recipientId m) m' = true.
Proof.
  unfold between. intros H H'.
  apply orb_true_iff in H. apply orb_true_iff in H'. apply orb_true_iff.
  destruct H as [H|H]; apply andb_true_iff in H; destruct H as [H1 H2];
    apply bool_decide_eq_true in H1; apply bool_decide_eq_true in H2;
    destruct H' as [H'|H']; apply andb_true_iff in H'; destruct H' as [H3 H4];
    apply bool_decide_eq_true in H3; apply bool_decide_eq_true in H4;
    rewrite H1, H2, H3, H4;
    [left|right|right|left]; rewrite !bool_decide_eq_true_2 by reflexivity; reflexivity.
Qed.

Lemma sorted_snoc (l : list Z) (y : Z) :
  StronglySorted Z.lt l -> Forall (fun x => x < y) l -> StronglySorted Z.lt (l ++ [y]).
Proof.
  induction 1 as [|x l Hs IH Hx]; intros Hy; simpl.
  - constructor; constructor.
  - apply Forall_cons in Hy. destruct Hy as [Hxy Hy]. constructor; [apply IH, Hy|].
    apply Forall_app. split; [exact Hx|]. constructor; [exact Hxy|constructor].
Qed.

Lemma save_keeps_store_ok (db db' : list Message) (now : Z) (c : Candidate) (m : Message) :
  store_ok db -> save db now c = inr (m, db') -> store_ok db'.
Proof.
  intros (Hnd & Hws & Hseq) Hs.
  destruct (save_appends _ _ _ _ _ Hs) as (-> & Hv & Hn & Hlt).
  split; [|split].
  - rewrite map_app. simpl. apply NoDup_app. split; [exact Hnd|]. split.
    + intros x Hx Hx'. apply list_elem_of_In in Hx.
      apply list_elem_of_In in Hx'. destruct Hx' as [<-|[]]. auto.
    + apply NoDup_singleton.
  - apply Forall_app. split; [exact Hws|]. constructor; [|constructor].
    apply (validate_well_stored now c m Hv).
  - intros a b. unfold conversation_sequences. rewrite List.filter_app, map_app. simpl.
    destruct (between a b m) eqn:Hb; simpl; [|rewrite app_nil_r; apply Hseq].
    apply sorted_snoc; [apply Hseq|].
    apply Forall_map, List.Forall_forall. intros m' Hin. apply filter_In in Hin.
    destruct Hin as [Hin Hb']. apply Hlt; [exact Hin|].
    apply (between_same a b); assumption.
Qed.

Lemma send_keeps_store_ok (g : ReplayProtection.Gate) (db : list Message) (now : Z)
    (req : MessagesRoute.SendRequest) :
  store_ok db -> store_ok (snd (MessagesRoute.send g db now req)).
Proof.
  intros Hok. unfold MessagesRoute.send.
  destruct (ReplayProtection.replayProtection g db now (MessagesRoute.gate_request req))
    as [[|st why] g']; [|exact Hok].
  unfold MessagesRoute.send_handler.
  destruct (_ || _); [exact Hok|].
  destruct (save db now (MessagesRoute.candidate req)) as [e|[m db']] eqn:Hs; [exact Hok|].
  simpl. apply (save_keeps_store_ok db db' now _ m Hok Hs).
Qed.


Lemma send_run_store_ok (xs : list (Z * MessagesRoute.SendRequest))
    (s : ReplayProtection.Gate * list Message) :
  store_ok (snd s) -> store_ok (snd (send_run xs s)).
Proof.
  unfold send_run. revert s. induction xs as [|x xs IH]; intros s Hok; [exact Hok|].
  simpl. apply IH. unfold send_step.
  pose proof (send_keeps_store_ok (fst s) (snd s) (fst x) (snd x) Hok) as H.
  destruct (MessagesRoute.send (fst s) (snd s) (fst x) (snd x)) as [[r g'] db'].
  exact H.
Qed.

(** The ids stored are those of the request. *)
Lemma validate_ids (now : Z) (c : Candidate) (m : Message) :
  validate now c = Some m ->
  senderId m = c_senderId c /\ c_recipientId c = Some (recipientId m)
  /\ recipientId m <> [].
Proof.
  unfold validate.
  destruct (c_recipientId c) as [r|], (c_ciphertext c) as [ct|], (c_iv c) as [i|],
    (c_tag c) as [t|], (c_timestamp c) as [ts|], (c_sequenceNumber c) as [sq|],
    (c_nonce c) as [n|]; try discriminate.
  destruct (_ && _) eqn:Hv; [|discriminate]. intros Heq. injection Heq as <-.
  do 7 (apply andb_true_iff in Hv; destruct Hv as [Hv ?]).
  simpl. repeat split. intros ->. discriminate.
Qed.

Lemma send_keeps_well_formed (g : ReplayProtection.Gate) (db : list Message) (now : Z)
    (req : MessagesRoute.SendRequest) :
  send_well_formed req = true -> GateLayers.store_well_formed db = true ->
  GateLayers.store_well_formed (snd (MessagesRoute.send g db now req)) = true.
Proof.
  intros Hreq Hdb. unfold MessagesRoute.send.
  destruct (ReplayProtection.replayProtection g db now (MessagesRoute.gate_request req))
    as [[|st why] g']; [|exact Hdb].
  unfold MessagesRoute.send_handler.
  destruct (_ || _); [exact Hdb|].
  destruct (save db now (MessagesRoute.candidate req)) as [e|[m db']] eqn:Hs; [exact Hdb|].
  simpl. destruct (save_appends _ _ _ _ _ Hs) as (-> & Hv & _).
  destruct (validate_ids _ _ _ Hv) as (Hsender & Hrecipient & Hne).
  unfold GateLayers.store_well_formed. rewrite forallb_app. cbn [forallb].
  unfold GateLayers.store_well_formed in Hdb. rewrite Hdb. cbn [andb].
  unfold send_well_formed, GateLayers.ids_well_formed in Hreq. simpl in Hreq, Hsender,
    Hrecipient.
  rewrite Hrecipient in Hreq. rewrite Hsender.
  apply andb_true_iff in Hreq. destruct Hreq as [Hu Hr]. rewrite Hu. cbn [andb].
  rewrite bool_decide_eq_false_2 in Hr by exact Hne. cbn [orb] in Hr. rewrite Hr.
  reflexivity.
Qed.

Lemma send_run_well_formed (xs : list (Z * MessagesRoute.SendRequest))
    (s : ReplayProtection.Gate * list Message) :
  Forall (fun x => send_well_formed (snd x) = true) xs ->
  GateLayers.store_well_formed (snd s) = true ->
  GateLayers.store_well_formed (snd (send_run xs s)) = true.
Proof.
  unfold send_run. intros Hxs. revert s.
  induction Hxs as [|x xs Hx _ IH]; intros s Hdb; [exact Hdb|].
  simpl. apply IH. unfold send_step.
  pose proof (send_keeps_well_formed (fst s) (snd s) (fst x) (snd x) Hx Hdb) as H.
  destruct (MessagesRoute.send (fst s) (snd s) (fst x) (snd x)) as [[r g'] db'].
  exact H.
Qed.

(** X5. Over any run of requests to [/messages/send], each handled to its answer
    before the next arrives, and whatever the gate holds in memory, the store
    keeps what it has: no nonce is stored twice, every message is as the
    schema wants it, its ids are ObjectIds, and the sequence numbers stored
    for a conversation, its two directions together, increase strictly in the
    order of insertion. *)
Theorem send_run_keeps_store (xs : list (Z * MessagesRoute.SendRequest))
    (g : ReplayProtection.Gate) (db : list Message) :
  Forall (fun x => send_well_formed (snd x) = true) xs ->
  GateLayers.store_well_formed db = true ->
  store_ok db ->
  let db' := snd (send_run xs (g, db)) in
  NoDup (map nonce db')
  /\ Forall (fun m => well_stored m = true) db'
  /\ GateLayers.store_well_formed db' = true
  /\ forall a b, StronglySorted Z.lt (conversation_sequences a b db').
Proof.
  intros Hxs Hdb Hok db'.
  destruct (send_run_store_ok xs (g, db) Hok) as (Hnd & Hws & Hseq).
  split; [exact Hnd|]. split; [exact Hws|]. split; [|exact Hseq].
  apply (send_run_well_formed xs (g, db) Hxs Hdb).
Qed.

Lemma store_ok_nil : store_ok [].
Proof.
  split; [constructor|]. split; [constructor|]. intros a b. constructor.
Qed.

Lemma send_run_keeps_store_witness :
  let db' := snd (send_run [(clock, request_reusing_nonce);
                            (clock + 1, request_reusing_nonce)]
                    (ReplayProtection.empty_gate, [])) in
  NoDup (map nonce db')
  /\ Forall (fun m => well_stored m = true) db'
  /\ GateLayers.store_well_formed db' = true
  /\ forall a b, StronglySorted Z.lt (conversation_sequences a b db').
Proof.
  apply (send_run_keeps_store [(clock, request_reusing_nonce);
                               (clock + 1, request_reusing_nonce)]
           ReplayProtection.empty_gate []).
  - repeat constructor.
  - reflexivity.
  - apply store_ok_nil.
Defined.

End StoreRuns.

(** ** The send route: gate, then handler *)

Section SendRoute.
Import Js ReplayProtection GateLayers RelayRuns Samples MoreSamples.

(** A request with the nonce and timestamp of one the gate has let through is
    not let through, whatever sweeps and requests came in between on a clock
    that does not go back. *)
Lemma replay_not_accepted (g g1 : Gate) (db : list MessageModel.Message) (t0 : Z)
    (req : Request) (es : list event) (db2 : list MessageModel.Message) (t2 : Z)
    (req2 : Request) :
  replayProtection g db t0 req = (Next, g1) ->
  clock_monotone t0 es -> last_time t0 es <= t2 ->
  nonce req2 = nonce req -> timestamp req2 = timestamp req ->
  accepts (run es g1) db2 t2 req2 = false.
Proof.
  intros Hacc Hmono Hlater Hn Ht.
  destruct (gate_accept_records _ _ _ _ _ Hacc)
    as (n & ts & sq & En & Et & Es & Hn0 & Hts0 & Hwin & Hfresh & Hin).
  pose proof (last_time_monotone _ _ Hmono) as Ht0.
  assert (Hinv : (exists e, nonceCache (run es g1) !! n = Some e /\ e_timestamp e = ts)
                 \/ ts + MAX_NONCE_AGE < last_time t0 es).
  { apply cached_or_expired; [exact Hmono|]. left. eexists. split; [exact Hin|reflexivity]. }
  unfold accepts.
  destruct (carried req2); [|reflexivity]. simpl.
  destruct (in_window t2 req2) eqn:Hw; [|reflexivity]. simpl.
  unfold in_window in Hw. rewrite Ht, Et in Hw.
  apply andb_true_iff in Hw. destruct Hw as [Hw1 _]. apply Z.leb_le in Hw1.
  unfold MAX_NONCE_AGE in Hinv.
  destruct Hinv as [(e & He & _)|Hexp]; [|lia].
  unfold nonce_fresh. rewrite Hn, En, He.
  rewrite bool_decide_eq_false_2 by discriminate. reflexivity.
Qed.

Lemma send_rejected (g : Gate) (db : list MessageModel.Message) (now : Z)
    (req : MessagesRoute.SendRequest) :
  accepts g db now (MessagesRoute.gate_request req) = false ->
  exists why g',
    MessagesRoute.send g db now req
    = (MessagesRoute.BadRequest (error_text why), g', db).
Proof.
  intros Ha. unfold MessagesRoute.send.
  pose proof (gate_outcome g db now (MessagesRoute.gate_request req)) as Ho.
  rewrite Ha in Ho.
  destruct (replayProtection g db now (MessagesRoute.gate_request req)) as [o g'].
  simpl in Ho. subst o. eauto.
Qed.

(** X6. When the gate lets a request through and the handler then refuses it (a
    field of the message is missing, or the document does not validate), the
    store is as it was, yet the gate has recorded the nonce: on a clock that
    does not go back, every request that arrives later with that nonce and
    timestamp is answered 400 by the gate and stores nothing, the corrected
    request included. *)
Theorem refused_request_burns_its_nonce
    (g g' : Gate) (db db' : list MessageModel.Message) (now : Z)
    (req : MessagesRoute.SendRequest) (r : MessagesRoute.reply)
    (es : list event) (db2 : list MessageModel.Message) (now2 : Z)
    (req2 : MessagesRoute.SendRequest) :
  send_well_formed req = true -> send_well_formed req2 = true ->
  store_well_formed db = true -> store_well_formed db2 = true ->
  Forall (fun e => event_well_formed e = true) es ->
  MessagesRoute.send g db now req = (r, g', db') ->
  fst (replayProtection g db now (MessagesRoute.gate_request req)) = Next ->
  MessagesRoute.status r <> 201 ->
  clock_monotone now es -> last_time now es <= now2 ->
  MessagesRoute.nonce req2 = MessagesRoute.nonce req ->
  MessagesRoute.timestamp req2 = MessagesRoute.timestamp req ->
  db' = db
  /\ MessagesRoute.status (fst (fst (MessagesRoute.send (run es g') db2 now2 req2))) = 400
  /\ snd (MessagesRoute.send (run es g') db2 now2 req2) = db2.
Proof.
  intros _ _ _ _ _ Hs Hg Hst Hmono Hlater Hn Ht.
  unfold MessagesRoute.send in Hs.
  destruct (replayProtection g db now (MessagesRoute.gate_request req)) as [o g1] eqn:Hr.
  simpl in Hg. subst o.
  assert (Hdb : db' = db /\ g' = g1).
  { unfold MessagesRoute.send_handler in Hs.
    destruct (_ || _); [injection Hs as _ <- <-; split; reflexivity|].
    destruct (MessageModel.save db now (MessagesRoute.candidate req)) as [e|[m db1]].
    - injection Hs as _ <- <-. split; reflexivity.
    - injection Hs as <- _ _. simpl in Hst. congruence. }
  destruct Hdb as [-> ->]. split; [reflexivity|].
  assert (Ha : accepts (run es g1) db2 now2 (MessagesRoute.gate_request req2) = false).
  { apply (replay_not_accepted g g1 db now (MessagesRoute.gate_request req) es);
      try assumption. }
  destruct (send_rejected _ _ _ _ Ha) as (why & g2 & ->). split; reflexivity.
Qed.

Lemma refused_request_burns_its_nonce_witness :
  MessagesRoute.status
    (fst (fst (MessagesRoute.send (run [Sweep (clock + 1)] gate_after_incomplete_request)
                 [] (clock + 2) request_completed))) = 400.
Proof.
  apply (refused_request_burns_its_nonce empty_gate gate_after_incomplete_request [] []
           clock request_without_ciphertext
           (MessagesRoute.BadRequest (lit "Missing required fields"))
           [Sweep (clock + 1)] [] (clock + 2) request_completed);
    try reflexivity.
  - repeat constructor.
  - discriminate.
  - simpl. unfold clock. lia.
  - simpl. unfold clock. lia.
Defined.

End SendRoute.

(** ** From the chat window to the relay *)

Section SendPath.
Import Js MessageEncryption ReplayProtection GateLayers RelayRuns ChatWindow Samples MoreSamples.

(** What [send_message] puts in the request. *)
Lemma send_message_request (A B message : jsstring) (key : list Z) (w : World)
    (cs : counters) (req : MessagesRoute.SendRequest) :
  fst (fst (send_message A B message key w cs)) = Some req ->
  MessagesRoute.userId req = A
  /\ MessagesRoute.recipientId req = Some B
  /\ MessagesRoute.sequenceNumber req
     = Some (getCurrentSequenceNumber (A ++ lit "-" ++ B) cs + 1)
  /\ MessagesRoute.timestamp req = Some (now w)
  /\ exists n, MessagesRoute.nonce req = Some n /\ validateNonce n = true.
Proof.
  unfold send_message, encryptMessage, generateNonce.
  destruct (getRandomValues 12 w) as [ivBytes w1] eqn:Hiv.
  destruct (getRandomValues 16 w1) as [nonceBytes w2] eqn:Hnb.
  assert (Hnow : now w2 = now w).
  { unfold getRandomValues in Hiv, Hnb. injection Hiv as _ <-. injection Hnb as _ <-.
    reflexivity. }
  destruct (Encoding.base64_of_spread (max_arguments w2) nonceBytes) as [n|];
    [|discriminate].
  unfold getSequenceNumber, getCurrentSequenceNumber.
  destruct (validateNonce n) eqn:Hv; cbn [negb]; [|discriminate].
  destruct (Encoding.base64_of_spread _ (slice_but_last16 _)); [|discriminate].
  destruct (Encoding.base64_of_spread _ ivBytes); [|discriminate].
  destruct (Encoding.base64_of_spread _ (slice_last16 _)); [|discriminate].
  cbn [fst]. intros Heq. injection Heq as <-. simpl. rewrite Hnow.
  repeat split; try reflexivity. eexists. split; [reflexivity|exact Hv].
Qed.


(** X7. Each peer numbers its messages on its own, from its own counter for
    [`${me}-${peer}`], and the relay holds one last-seen number for the two
    directions. So once the relay has let a message of A to B through, a
    message of B to A that arrives afterwards and whose sender's counter
    does not stand above A's (a first message, or the first after a reload,
    counts from 0) is answered 400 and not stored; when nothing else is wrong
    with it, the answer is the invalid-sequence error. The two ids are
    ObjectIds and the counters safe integers. *)
Theorem peers_share_one_sequence_at_the_relay
    (A B mA mB : jsstring) (kA kB : list Z) (wA wB : World) (csA csB : counters)
    (reqA reqB : MessagesRoute.SendRequest)
    (g : Gate) (db db2 : list MessageModel.Message) (t t2 : Z) :
  MessageModel.object_id_string A = true -> MessageModel.object_id_string B = true ->
  store_well_formed db = true -> store_well_formed db2 = true ->
  fst (fst (send_message A B mA kA wA csA)) = Some reqA ->
  fst (fst (send_message B A mB kB wB csB)) = Some reqB ->
  counters_ok csA -> counters_ok csB ->
  safe_integer (getCurrentSequenceNumber (A ++ lit "-" ++ B) csA + 1) = true ->
  getCurrentSequenceNumber (B ++ lit "-" ++ A) csB
    <= getCurrentSequenceNumber (A ++ lit "-" ++ B) csA ->
  fst (replayProtection g db t (MessagesRoute.gate_request reqA)) = Next ->
  let g' := snd (replayProtection g db t (MessagesRoute.gate_request reqA)) in
  MessagesRoute.status (fst (fst (MessagesRoute.send g' db2 t2 reqB))) = 400
  /\ snd (MessagesRoute.send g' db2 t2 reqB) = db2
  /\ (t2 - 300000 <= MessageEncryption.now wB <= t2 + 60000 ->
      nonce_fresh g' (MessagesRoute.gate_request reqB) = true ->
      MessageEncryption.now wB <> 0 ->
      fst (fst (MessagesRoute.send g' db2 t2 reqB))
      = MessagesRoute.BadRequest (lit "Replay attack detected: invalid sequence number")).
Proof.
  intros HidA HidB _ _ HrA HrB _ _ _ Hcs Hacc g'.
  assert (HA : A <> []) by (intros ->; discriminate).
  assert (HB : B <> []) by (intros ->; discriminate).
  destruct (send_message_request _ _ _ _ _ _ _ HrA) as (Au & Ar & Aq & At & nA & An & AvA).
  destruct (send_message_request _ _ _ _ _ _ _ HrB) as (Bu & Br & Bq & Bt & nB & Bn & BvB).
  assert (Hr : replayProtection g db t (MessagesRoute.gate_request reqA) = (Next, g')).
  { unfold g'. destruct (replayProtection g db t (MessagesRoute.gate_request reqA)).
    simpl in *. subst. reflexivity. }
  assert (Hn : names_conversation (MessagesRoute.gate_request reqA) = true).
  { unfold names_conversation. simpl. rewrite Au, Ar.
    rewrite !bool_decide_eq_false_2 by assumption. reflexivity. }
  assert (Hc : concerns (userId (MessagesRoute.gate_request reqA))
                 (default [] (recipientId (MessagesRoute.gate_request reqA)))
                 (MessagesRoute.gate_request reqB) = true).
  { unfold concerns. simpl. rewrite Au, Ar, Bu, Br. simpl.
    apply orb_true_iff. right.
    rewrite !bool_decide_eq_true_2 by reflexivity. reflexivity. }
  destruct (later_sequence_rejected g g' db t (MessagesRoute.gate_request reqA)
              db2 t2 (MessagesRoute.gate_request reqB)
              (getCurrentSequenceNumber (B ++ lit "-" ++ A) csB + 1) Hr Hn Hc)
    as [Hrej Hseq].
  { simpl. exact Bq. }
  { cbn [MessagesRoute.gate_request sequenceNumber]. rewrite Aq.
    cbn [default from_option id]. lia. }
  unfold MessagesRoute.send.
  destruct (replayProtection g' db2 t2 (MessagesRoute.gate_request reqB)) as [o g2].
  simpl in Hrej, Hseq. subst o. split; [reflexivity|]. split; [reflexivity|].
  intros Hw Hf Hnow.
  assert (Hrej : Reject 400 (first_failure g' t2 (MessagesRoute.gate_request reqB))
                 = Reject 400 InvalidSequence).
  { apply Hseq; [| |exact Hf].
    - unfold carried. simpl. rewrite Bn, Bt, Bq.
      apply andb_true_iff. split.
      + apply negb_true_iff, bool_decide_eq_false. intros ->. discriminate.
      + apply negb_true_iff, Z.eqb_neq. exact Hnow.
    - unfold in_window. simpl. rewrite Bt.
      apply andb_true_iff. split; apply Z.leb_le; lia. }
  injection Hrej as ->. reflexivity.
Qed.

Lemma peers_share_one_sequence_at_the_relay_witness :
  fst (fst (MessagesRoute.send
              (snd (replayProtection empty_gate [] clock
                      (MessagesRoute.gate_request alice_request)))
              [] (clock + 2000) bob_request))
  = MessagesRoute.BadRequest (lit "Replay attack detected: invalid sequence number").
Proof.
  assert (HA : fst (fst (send_message alice bob (lit "hello") session_key world0 ∅))
               = Some alice_request) by (vm_compute; reflexivity).
  assert (HB : fst (fst (send_message bob alice (lit "hi") session_key world_of_bob ∅))
               = Some bob_request) by (vm_compute; reflexivity).
  assert (Hcs : getCurrentSequenceNumber (bob ++ lit "-" ++ alice) ∅
                <= getCurrentSequenceNumber (alice ++ lit "-" ++ bob) ∅)
    by (vm_compute; discriminate).
  assert (Hacc : fst (replayProtection empty_gate [] clock
                        (MessagesRoute.gate_request alice_request)) = Next)
    by (vm_compute; reflexivity).
  assert (Hsafe : safe_integer
                    (getCurrentSequenceNumber (alice ++ lit "-" ++ bob) ∅ + 1) = true)
    by (vm_compute; reflexivity).
  assert (Hok : counters_ok ∅)
    by (intros id n Hn; rewrite lookup_empty in Hn; discriminate).
  apply (proj2 (proj2 (peers_share_one_sequence_at_the_relay alice bob (lit "hello")
                         (lit "hi") session_key session_key world0 world_of_bob ∅ ∅
                         alice_request bob_request empty_gate [] [] clock (clock + 2000)
                         eq_refl eq_refl eq_refl eq_refl HA HB Hok Hok Hsafe Hcs Hacc))).
  - simpl. unfold clock. lia.
  - vm_compute. reflexivity.
  - simpl. unfold clock. lia.
Defined.

End SendPath.

(** ** The client's counters, nonces and records *)

Section ClientCodec.
Import Js Encoding MessageEncryption Samples.

Lemma current_after_next (id : jsstring) (cs : counters) :
  getCurrentSequenceNumber id (snd (getSequenceNumber id cs)) = fst (getSequenceNumber id cs)
  /\ fst (getSequenceNumber id cs) = getCurrentSequenceNumber id cs + 1.
Proof.
  unfold getCurrentSequenceNumber, getSequenceNumber. cbn [fst snd].
  rewrite lookup_insert_eq. split; [|reflexivity].
  unfold truthy_number. destruct (_ =? 0) eqn:H0; [|reflexivity].
  apply Z.eqb_eq in H0. simpl. lia.
Qed.

Lemma current_of_other (id id' : jsstring) (cs : counters) :
  id' <> id ->
  getCurrentSequenceNumber id' (snd (getSequenceNumber id cs)) = getCurrentSequenceNumber id' cs
  /\ getCurrentSequenceNumber id' (resetSequenceCounter id cs) = getCurrentSequenceNumber id' cs.
Proof.
  intros Hne. unfold getCurrentSequenceNumber, getSequenceNumber, resetSequenceCounter.
  cbn [snd]. rewrite lookup_insert_ne by congruence.
  rewrite lookup_delete_ne by congruence. split; reflexivity.
Qed.

Lemma current_after_calls (id : jsstring) (cs : counters) (k : nat) :
  getCurrentSequenceNumber id (Nat.iter k (fun c => snd (getSequenceNumber id c)) cs)
  = getCurrentSequenceNumber id cs + Z.of_nat k.
Proof.
  induction k as [|k IH]; [simpl; lia|].
  rewrite Nat.iter_succ. destruct (current_after_next id (Nat.iter k (fun c => snd (getSequenceNumber id c)) cs))
    as [-> ->]. rewrite IH. lia.
Qed.

(** X8. As long as it stays a safe integer, the counter of a conversation
    counts up by one with every call, whatever it held, and leaves the
    counters of other conversations alone; the number last handed out is what
    [getCurrentSequenceNumber] reads. After [resetSequenceCounter] the
    numbering starts again at 1, so numbers handed out before are handed out
    again. *)
Theorem sequence_counter_counts (id id' : jsstring) (cs : counters) (k : nat) :
  counters_ok cs ->
  safe_integer (getCurrentSequenceNumber id cs + Z.of_nat k + 1) = true ->
  let after := Nat.iter k (fun c => snd (getSequenceNumber id c)) cs in
  fst (getSequenceNumber id after) = getCurrentSequenceNumber id cs + Z.of_nat k + 1
  /\ getCurrentSequenceNumber id (snd (getSequenceNumber id after))
     = fst (getSequenceNumber id after)
  /\ getCurrentSequenceNumber id (resetSequenceCounter id after) = 0
  /\ fst (getSequenceNumber id (resetSequenceCounter id after)) = 1
  /\ (id' <> id ->
      getCurrentSequenceNumber id' after = getCurrentSequenceNumber id' cs
      /\ getCurrentSequenceNumber id' (resetSequenceCounter id after)
         = getCurrentSequenceNumber id' cs).
Proof.
  intros _ _ after.
  destruct (current_after_next id after) as [H1 H2].
  assert (Hreset : getCurrentSequenceNumber id (resetSequenceCounter id after) = 0).
  { unfold getCurrentSequenceNumber, resetSequenceCounter. rewrite lookup_delete_eq.
    reflexivity. }
  split; [rewrite H2; unfold after; rewrite current_after_calls; reflexivity|].
  split; [exact H1|]. split; [exact Hreset|]. split.
  - destruct (current_after_next id (resetSequenceCounter id after)) as [_ ->].
    rewrite Hreset. reflexivity.
  - intros Hne.
    assert (Hk : getCurrentSequenceNumber id' after = getCurrentSequenceNumber id' cs).
    { unfold after. clear -Hne. induction k as [|k IH]; [reflexivity|]. rewrite Nat.iter_succ.
      destruct (current_of_other id id' (Nat.iter k (fun c => snd (getSequenceNumber id c)) cs))
        as [-> _]; [|exact IH]. exact Hne. }
    split; [exact Hk|].
    destruct (current_of_other id id' after Hne) as [_ ->]. exact Hk.
Qed.

Lemma sequence_counter_counts_witness :
  let after := Nat.iter 3 (fun c => snd (getSequenceNumber conversation_id c)) ∅ in
  fst (getSequenceNumber conversation_id after)
  = getCurrentSequenceNumber conversation_id ∅ + Z.of_nat 3 + 1
  /\ getCurrentSequenceNumber conversation_id (snd (getSequenceNumber conversation_id after))
     = fst (getSequenceNumber conversation_id after)
  /\ getCurrentSequenceNumber conversation_id (resetSequenceCounter conversation_id after) = 0
  /\ fst (getSequenceNumber conversation_id (resetSequenceCounter conversation_id after)) = 1
  /\ (alice <> conversation_id ->
      getCurrentSequenceNumber alice after = getCurrentSequenceNumber alice ∅
      /\ getCurrentSequenceNumber alice (resetSequenceCounter conversation_id after)
         = getCurrentSequenceNumber alice ∅).
Proof.
  exact (sequence_counter_counts conversation_id alice ∅ 3 counters_ok_empty eq_refl).
Defined.


Lemma alphabet_is_pattern (c : Z) : b64_alphabet c = MessageModel.pattern_char c.
Proof.
  unfold b64_alphabet, b64_index, MessageModel.pattern_char.
  destruct (65 <=? c) eqn:H1, (c <=? 90) eqn:H2; cbn [andb orb];
    try reflexivity;
    destruct (97 <=? c) eqn:H3, (c <=? 122) eqn:H4; cbn [andb orb];
    try reflexivity;
    destruct (48 <=? c) eqn:H5, (c <=? 57) eqn:H6; cbn [andb orb];
    try reflexivity;
    destruct (c =? 43) eqn:H7; cbn [orb]; try reflexivity;
    destruct (c =? 47); reflexivity.
Qed.

Lemma drop_alphabet_is_pattern (s : jsstring) :
  drop_alphabet s = MessageModel.drop_pattern_chars s.
Proof.
  induction s as [|c s IH]; [reflexivity|]. simpl.
  rewrite alphabet_is_pattern, IH. reflexivity.
Qed.

Lemma validate_nonce_schema (s : jsstring) :
  validateNonce s = MessageModel.nonce_valid s.
Proof.
  unfold validateNonce, MessageModel.nonce_valid, nonce_pattern.
  destruct s as [|c t]; [reflexivity|].
  rewrite alphabet_is_pattern, drop_alphabet_is_pattern. reflexivity.
Qed.

(** X9. The client's [validateNonce] and the validators of the schema's [nonce]
    field decide alike on every string; both refuse the empty string and
    every string shorter than 16. *)
Theorem client_and_schema_agree_on_nonces (s : jsstring) :
  validateNonce s = MessageModel.nonce_valid s
  /\ ((length s < 16)%nat -> validateNonce s = false).
Proof.
  split; [apply validate_nonce_schema|].
  - intros Hl. unfold validateNonce.
    replace (16 <=? Z.of_nat (length s)) with false by (symmetry; apply Z.leb_gt; lia).
    reflexivity.
Qed.

Lemma base64_of_16_bytes (bs : list Z) :
  length bs = 16%nat -> length (base64_of_bytes bs) = 24%nat.
Proof.
  intros Hl. unfold base64_of_bytes, base64_encode.
  destruct (sextets_length bs) as (k & Hk).
  rewrite length_app, length_map.
  destruct Hk as [(H1 & _)|[(H1 & H2 & H3)|(H1 & _)]]; try lia.
  rewrite H2, H3. simpl. lia.
Qed.

Lemma generated_nonce_core (w : World) :
  16 <= max_arguments w ->
  exists n,
    fst (generateNonce w) = Some n
    /\ n = base64_of_bytes (fst (getRandomValues 16 w))
    /\ validateNonce n = true
    /\ length n = 24%nat
    /\ drawn (snd (generateNonce w)) = (drawn w + 16)%nat
    /\ now (snd (generateNonce w)) = now w
    /\ random (snd (generateNonce w)) = random w
    /\ max_arguments (snd (generateNonce w)) = max_arguments w.
Proof.
  intros Hargs. destruct (random_values 16 w) as (Hb & Hl & Hn).
  unfold generateNonce.
  assert (Hw : snd (getRandomValues 16 w)
               = {| now := now w; random := random w; drawn := (drawn w + 16)%nat;
                    max_arguments := max_arguments w |}) by reflexivity.
  destruct (getRandomValues 16 w) as [nonceBytes w'] eqn:Hg. cbn [fst snd] in *.
  subst w'. cbn [max_arguments].
  rewrite spread_within by (rewrite Hl; exact Hargs).
  eexists. split; [reflexivity|]. split; [reflexivity|].
  split; [apply nonce_of_16_bytes_valid; assumption|].
  split; [apply base64_of_16_bytes, Hl|]. repeat split; reflexivity.
Qed.

(** X10. In an engine that takes sixteen arguments in a call, [generateNonce]
    draws sixteen values and returns their base 64: a string of 24 characters
    that passes [validateNonce] and the schema's validators and that [atob]
    reads back as the sixteen bytes. In an engine that takes fewer it throws. *)
Theorem generated_nonce (w : World) :
  let bs := fst (getRandomValues 16 w) in
  (16 <= max_arguments w ->
   exists n,
     fst (generateNonce w) = Some n
     /\ n = base64_of_bytes bs
     /\ length n = 24%nat
     /\ validateNonce n = true
     /\ MessageModel.nonce_valid n = true
     /\ atob n = Some bs)
  /\ (max_arguments w < 16 -> fst (generateNonce w) = None)
  /\ drawn (snd (generateNonce w)) = (drawn w + 16)%nat
  /\ now (snd (generateNonce w)) = now w.
Proof.
  intros bs. destruct (random_values 16 w) as (Hb & Hl & Hn). fold bs in Hb, Hl.
  split; [|split].
  - intros Hargs.
    destruct (generated_nonce_core w Hargs) as (n & Hg & Hn64 & Hv & Hlen & _).
    exists n. fold bs in Hn64.
    split; [exact Hg|]. split; [exact Hn64|]. split; [exact Hlen|].
    split; [exact Hv|]. split; [rewrite <- validate_nonce_schema; exact Hv|].
    rewrite Hn64. apply atob_base64_encode, Hb.
  - intros Hfew. unfold generateNonce.
    destruct (getRandomValues 16 w) as [nonceBytes w'] eqn:Hg. cbn [fst].
    assert (Hw : max_arguments w' = max_arguments w).
    { unfold getRandomValues in Hg. injection Hg as _ <-. reflexivity. }
    subst bs. cbn [fst] in Hl.
    apply spread_beyond. rewrite Hw, Hl. lia.
  - unfold generateNonce.
    destruct (getRandomValues 16 w) as [nonceBytes w'] eqn:Hg. cbn [snd].
    unfold getRandomValues in Hg. injection Hg as _ <-. split; reflexivity.
Qed.

Lemma generated_nonce_witness :
  exists n,
    fst (generateNonce world0) = Some n
    /\ n = base64_of_bytes (fst (getRandomValues 16 world0))
    /\ length n = 24%nat
    /\ validateNonce n = true
    /\ MessageModel.nonce_valid n = true
    /\ atob n = Some (fst (getRandomValues 16 world0)).
Proof.
  apply (proj1 (generated_nonce world0)). vm_compute. discriminate.
Defined.

(** The record [encryptMessage] returns, field by field. *)
Lemma encrypt_message_fields (message : jsstring) (key : list Z) (id : jsstring)
    (w : World) (cs : counters) :
  is_jsstring message = true ->
  16 <= max_arguments w ->
  Z.of_nat (length (text_encode message)) <= max_arguments w ->
  let ivBytes := fst (getRandomValues 12 w) in
  let c := AesGcm.gctr (AesGcm.aes256 key)
             (AesGcm.inc32 (AesGcm.j0 (AesGcm.aes256 key) ivBytes)) (text_encode message) in
  exists enc w2,
    encryptMessage message key id w cs = (inr enc, w2, snd (getSequenceNumber id cs))
    /\ bytes_of_base64 (iv enc) = Some ivBytes
    /\ bytes_of_base64 (ciphertext enc) = Some c
    /\ bytes_of_base64 (tag enc) = Some (AesGcm.tag (AesGcm.aes256 key) ivBytes c)
    /\ timestamp enc = Some (now w)
    /\ sequenceNumber enc = Some (getCurrentSequenceNumber id cs + 1)
    /\ (exists n, nonce enc = Some n /\ validateNonce n = true /\ length n = 24%nat)
    /\ drawn w2 = (drawn w + 28)%nat /\ now w2 = now w /\ random w2 = random w.
Proof.
  intros Hm Hargs Hfits ivBytes c. unfold encryptMessage.
  pose proof (random_values 12 w) as (Hivb & Hivl & Hn1).
  fold ivBytes in Hivb, Hivl.
  assert (Hw1 : snd (getRandomValues 12 w)
                = {| now := now w; random := random w; drawn := (drawn w + 12)%nat;
                     max_arguments := max_arguments w |})
    by reflexivity.
  destruct (getRandomValues 12 w) as [iv0 w1] eqn:Hiv. cbn [fst snd] in *.
  subst ivBytes.
  destruct (generated_nonce_core w1) as (n & Hg & _ & Hnv & Hnl & Hnd & Hnn & Hnr & Hna).
  { rewrite Hw1. exact Hargs. }
  destruct (generateNonce w1) as [n0 w2] eqn:Hgen. cbn [fst snd] in *. subst n0.
  destruct (current_after_next id cs) as [_ Hq].
  destruct (getSequenceNumber id cs) as [sq cs'] eqn:Hsq. cbn [fst snd] in *.
  rewrite Hnv. cbn [negb].
  pose proof (text_encode_is_bytes message Hm) as Hpb.
  assert (Hlimit : max_arguments w2 = max_arguments w) by (rewrite Hna, Hw1; reflexivity).
  destruct (slices_of_gcm key iv0 (text_encode message)) as (Hs1 & Hs2 & Hl1 & Hl2).
  rewrite Hlimit.
  rewrite (spread_within _ (slice_but_last16 _)) by (rewrite Hl1; exact Hfits).
  rewrite (spread_within _ iv0) by (rewrite Hivl; lia).
  rewrite (spread_within _ (slice_last16 _)) by (rewrite Hl2; lia).
  rewrite Hs1, Hs2. fold c.
  eexists _, _. split; [reflexivity|]. cbn [iv ciphertext tag timestamp sequenceNumber nonce].
  unfold bytes_of_base64, base64_of_bytes.
  rewrite !atob_base64_encode
    by (try exact Hivb; try apply be_bytes_bytes; apply gctr_bytes, Hpb).
  repeat split; try reflexivity.
  - rewrite Hnn, Hw1. reflexivity.
  - rewrite Hq. reflexivity.
  - exists n. repeat split; assumption.
  - rewrite Hnd, Hw1. simpl. lia.
  - rewrite Hnn, Hw1. reflexivity.
  - rewrite Hnr, Hw1. reflexivity.
Qed.

(** X11. On a string whose UTF-8 encoding has no more bytes than the engine
    takes arguments (sixteen at least), and with a counter that stays a safe
    integer, [encryptMessage] does not throw: it returns
    a record whose [iv] is the base 64 of the twelve bytes drawn first, whose
    [tag] is the base 64 of sixteen bytes, whose [ciphertext] is the base 64
    of as many bytes as the UTF-8 encoding of the message has, whose nonce is
    24 characters long and valid, whose timestamp is the clock's reading and
    whose sequence number is the conversation's counter plus one. It draws 28
    random values and advances that one counter. *)
Theorem encrypt_message_shape (message : jsstring) (key : list Z) (id : jsstring)
    (w : World) (cs : counters) :
  is_jsstring message = true ->
  safe_integer (getCurrentSequenceNumber id cs) = true ->
  safe_integer (getCurrentSequenceNumber id cs + 1) = true ->
  16 <= max_arguments w ->
  Z.of_nat (length (text_encode message)) <= max_arguments w ->
  exists enc w2 ivBytes c t,
    encryptMessage message key id w cs = (inr enc, w2, snd (getSequenceNumber id cs))
    /\ bytes_of_base64 (iv enc) = Some ivBytes /\ length ivBytes = 12%nat
    /\ ivBytes = fst (getRandomValues 12 w)
    /\ bytes_of_base64 (ciphertext enc) = Some c
    /\ length c = length (text_encode message)
    /\ bytes_of_base64 (tag enc) = Some t /\ length t = 16%nat
    /\ c ++ t = AesGcm.encrypt key ivBytes (text_encode message)
    /\ timestamp enc = Some (now w)
    /\ sequenceNumber enc = Some (getCurrentSequenceNumber id cs + 1)
    /\ (exists n, nonce enc = Some n /\ validateNonce n = true /\ length n = 24%nat)
    /\ drawn w2 = (drawn w + 28)%nat.
Proof.
  intros Hm _ _ Hargs Hfits.
  destruct (encrypt_message_fields message key id w cs Hm Hargs Hfits)
    as (enc & w2 & He & Hi & Hc & Ht & Hts & Hsq & Hn & Hd & _).
  exists enc, w2. eexists _, _, _.
  split; [exact He|]. split; [exact Hi|].
  split; [apply (random_values 12 w)|]. split; [reflexivity|].
  split; [exact Hc|]. split; [apply gctr_length|].
  split; [exact Ht|]. split; [apply tag_length|].
  split; [reflexivity|]. repeat split; assumption.
Qed.

Lemma encrypt_message_shape_witness :
  exists enc w2 ivBytes c t,
    encryptMessage (lit "hello") session_key conversation_id world0 ∅
    = (inr enc, w2, snd (getSequenceNumber conversation_id ∅))
    /\ bytes_of_base64 (iv enc) = Some ivBytes /\ length ivBytes = 12%nat
    /\ ivBytes = fst (getRandomValues 12 world0)
    /\ bytes_of_base64 (ciphertext enc) = Some c
    /\ length c = length (text_encode (lit "hello"))
    /\ bytes_of_base64 (tag enc) = Some t /\ length t = 16%nat
    /\ c ++ t = AesGcm.encrypt session_key ivBytes (text_encode (lit "hello"))
    /\ timestamp enc = Some (now world0)
    /\ sequenceNumber enc = Some (getCurrentSequenceNumber conversation_id ∅ + 1)
    /\ (exists n, nonce enc = Some n /\ validateNonce n = true /\ length n = 24%nat)
    /\ drawn w2 = (drawn world0 + 28)%nat.
Proof.
  apply (encrypt_message_shape (lit "hello") session_key conversation_id world0 ∅).
  - reflexivity.
  - reflexivity.
  - reflexivity.
  - vm_compute. discriminate.
  - vm_compute. discriminate.
Defined.

(** The triple of a record [encryptMessage] returned passes the decoder's
    tests when the clock did not read 0 and the counter was not negative. *)
Lemma encrypted_triple_passes (enc : EncryptedMessage) (t q : Z) :
  timestamp enc = Some t -> sequenceNumber enc = Some q ->
  (exists n, nonce enc = Some n /\ validateNonce n = true /\ length n = 24%nat) ->
  t <> 0 -> q <> 0 -> triple_passes enc.
Proof.
  intros Ht Hq (n & Hn & Hv & Hl) Ht0 Hq0. exists n, t, q.
  repeat split; try assumption. intros ->. discriminate.
Qed.

(** X12. A record of [encryptMessage] whose tag is replaced by the base 64 of any
    other sixteen bytes does not decrypt: [decryptMessage] throws its
    decryption error, whatever the clock. *)
Theorem forged_tag_is_rejected (message : jsstring) (key : list Z) (id : jsstring)
    (w : World) (cs : counters) (enc : EncryptedMessage) (w2 : World) (cs' : counters)
    (tag' : jsstring) (t' : list Z) (w' : World) :
  is_jsstring message = true -> now w <> 0 -> counters_ok cs ->
  16 <= max_arguments w ->
  Z.of_nat (length (text_encode message)) <= max_arguments w ->
  encryptMessage message key id w cs = (inr enc, w2, cs') ->
  bytes_of_base64 tag' = Some t' -> length t' = 16%nat ->
  bytes_of_base64 (tag enc) <> Some t' ->
  snd (decryptMessage
         {| ciphertext := ciphertext enc; iv := iv enc; tag := tag';
            timestamp := timestamp enc; sequenceNumber := sequenceNumber enc;
            nonce := nonce enc |} key w') = inl FailedToDecrypt.
Proof.
  intros Hm Hnow Hok Hargs Hfits He Ht' Hl Hne.
  destruct (encrypt_message_fields message key id w cs Hm Hargs Hfits)
    as (enc0 & w0 & He0 & Hi & Hc & Ht & Hts & Hsq & Hn & _).
  rewrite He in He0. injection He0 as <- _ _.
  pose proof (sequence_number_positive id cs Hok) as Hpos.
  destruct (current_after_next id cs) as [_ Hq]. rewrite Hq in Hpos.
  rewrite decrypt_reads_payload.
  2:{ apply (encrypted_triple_passes _ (now w) (getCurrentSequenceNumber id cs + 1));
        try assumption. lia. }
  cbn [iv ciphertext tag]. rewrite Hi, Hc, Ht'.
  unfold AesGcm.decrypt, AesGcm.gcm_decrypt.
  rewrite length_app, Hl.
  replace (length _ + 16 <? 16)%nat with false by (symmetry; apply Nat.ltb_ge; lia).
  replace (length _ + 16 - 16)%nat with
    (length (AesGcm.gctr (AesGcm.aes256 key)
               (AesGcm.inc32 (AesGcm.j0 (AesGcm.aes256 key) (fst (getRandomValues 12 w))))
               (text_encode message))) by lia.
  rewrite firstn_app, firstn_all, Nat.sub_diag, firstn_O, app_nil_r.
  rewrite skipn_app, skipn_all, Nat.sub_diag, skipn_O. cbn [app].
  rewrite bool_decide_eq_false_2; [reflexivity|].
  intros Heq. apply Hne. rewrite Ht, Heq. reflexivity.
Qed.

Lemma forged_tag_is_rejected_witness :
  snd (decryptMessage
         {| MessageEncryption.ciphertext := MessageEncryption.ciphertext sample_encrypted;
            MessageEncryption.iv := MessageEncryption.iv sample_encrypted;
            MessageEncryption.tag := sample_nonce;
            MessageEncryption.timestamp := MessageEncryption.timestamp sample_encrypted;
            MessageEncryption.sequenceNumber :=
              MessageEncryption.sequenceNumber sample_encrypted;
            MessageEncryption.nonce := MessageEncryption.nonce sample_encrypted |}
         session_key world0)
  = inl FailedToDecrypt.
Proof.
  assert (He : encryptMessage (lit "hi") session_key conversation_id world0 ∅
               = (inr sample_encrypted,
                  snd (fst (encryptMessage (lit "hi") session_key conversation_id world0 ∅)),
                  snd (encryptMessage (lit "hi") session_key conversation_id world0 ∅)))
    by (vm_compute; reflexivity).
  apply (forged_tag_is_rejected (lit "hi") session_key conversation_id world0 ∅
           sample_encrypted _ _ sample_nonce (repeat 0 16%nat) world0 eq_refl
           ltac:(discriminate) counters_ok_empty ltac:(vm_compute; discriminate)
           ltac:(vm_compute; discriminate) He).
  - vm_compute. reflexivity.
  - reflexivity.
  - intros H. vm_compute in H. discriminate H.
Defined.

(** X13. The outcome of [decryptMessage], plaintext or error, does not depend on
    the clock: no record is refused for its age. The clock only decides the
    warnings, for a record that has its triple: one for a timestamp ahead of
    the clock, one for a timestamp more than ten minutes behind, never both. *)
Theorem decrypt_outcome_ignores_clock (enc : EncryptedMessage) (key : list Z)
    (w1 w2 : World) :
  snd (decryptMessage enc key w1) = snd (decryptMessage enc key w2)
  /\ (triple_passes enc ->
      fst (decryptMessage enc key w1)
      = let age := now w1 - default 0 (timestamp enc) in
        if age <? 0 then [TimestampInFuture]
        else if 600000 <? age then [MessageOld] else []).
Proof.
  split.
  - unfold decryptMessage.
    destruct (replay_fields_missing enc); [reflexivity|].
    destruct (negb (validateNonce _)); [reflexivity|].
    destruct (bytes_of_base64 (iv enc)); [|reflexivity].
    destruct (bytes_of_base64 (ciphertext enc)); [|reflexivity].
    destruct (bytes_of_base64 (tag enc)); [|reflexivity].
    destruct (AesGcm.decrypt _ _ _); reflexivity.
  - intros (n & t & q & Hn & Ht & Hq & Hn0 & Ht0 & Hq0 & Hv).
    unfold decryptMessage, replay_fields_missing. rewrite Hn, Ht, Hq.
    cbn [truthy_opt default from_option id].
    replace (truthy_string n) with true by (destruct n; [congruence|reflexivity]).
    unfold truthy_number.
    apply Z.eqb_neq in Ht0, Hq0. rewrite Ht0, Hq0, Hv. cbn [negb orb].
    assert (Hw : age_warnings (now w1 - t)
                 = if now w1 - t <? 0 then [TimestampInFuture]
                   else if 600000 <? now w1 - t then [MessageOld] else []).
    { unfold age_warnings. change (10 * 60 * 1000) with 600000.
      destruct (now w1 - t <? 0) eqn:H0; [|reflexivity].
      apply Z.ltb_lt in H0.
      replace (600000 <? now w1 - t) with false by (symmetry; apply Z.ltb_ge; lia).
      reflexivity. }
    rewrite <- Hw.
    destruct (bytes_of_base64 (iv enc)); [|reflexivity].
    destruct (bytes_of_base64 (ciphertext enc)); [|reflexivity].
    destruct (bytes_of_base64 (tag enc)); [|reflexivity].
    destruct (AesGcm.decrypt _ _ _); reflexivity.
Qed.

End ClientCodec.

(** ** The client's side of the key exchange *)

Section ClientKeys.
Import Js Encoding KeyExchange KeyExchangeClient Samples.

Lemma base64_of_32_bytes (bs : list Z) :
  length bs = 32%nat -> length (base64_of_bytes bs) = 44%nat.
Proof.
  intros Hl. unfold base64_of_bytes, base64_encode.
  destruct (sextets_length bs) as (k & Hk).
  rewrite length_app, length_map.
  destruct Hk as [(H1 & _)|[(H1 & _)|(H1 & H2 & H3)]]; try lia.
  rewrite H2, H3. simpl. lia.
Qed.

Lemma sha256_bytes (msg : list Z) : bytes (Sha256.sha256 msg).
Proof.
  unfold Sha256.sha256, bytes. apply Forall_concat, Forall_map, Forall_true.
  intros w. apply be_bytes_bytes.
Qed.

(** X14. The message [sendKeyConfirmation] returns, in an engine that takes 32
    arguments in a call and at a time that is a safe integer, carries the base
    64, 44 characters long, of the SHA-256 of
    [KEY-CONFIRMED-<me>-<recipient>-<time>], which [atob] reads back as the 32
    bytes of the digest; its [publicKey] is the empty string and it has no
    signature. The session key does not enter it: two different keys give the
    same message. *)
Theorem key_confirmation_hash (limit : Z) (k1 k2 : list Z)
    (recipientId myUserId : jsstring) (t1 t2 : Z) :
  32 <= limit -> safe_integer t1 = true ->
  let digest :=
    Sha256.sha256
      (text_encode (lit "KEY-CONFIRMED-" ++ myUserId ++ lit "-" ++ recipientId
                      ++ lit "-" ++ number_to_string t1)) in
  exists m,
    sendKeyConfirmation limit k1 recipientId myUserId t1 t2 = Some m
    /\ sendKeyConfirmation limit k2 recipientId myUserId t1 t2 = Some m
    /\ confirmationHash m = Some (base64_of_bytes digest)
    /\ length (base64_of_bytes digest) = 44%nat
    /\ atob (base64_of_bytes digest) = Some digest
    /\ length digest = 32%nat
    /\ truthy_opt truthy_string (confirmationHash m) = true
    /\ type m = Confirm /\ fromUserId m = myUserId /\ toUserId m = recipientId
    /\ publicKey m = [] /\ signature m = None /\ timestamp m = t2.
Proof.
  intros Hlimit _ digest.
  pose proof (sha256_length
                (text_encode (lit "KEY-CONFIRMED-" ++ myUserId ++ lit "-" ++ recipientId
                                ++ lit "-" ++ number_to_string t1))) as Hl.
  fold digest in Hl.
  pose proof (base64_of_32_bytes digest Hl) as H44.
  unfold sendKeyConfirmation. fold digest.
  rewrite spread_within by (rewrite Hl; exact Hlimit).
  eexists. split; [reflexivity|]. split; [reflexivity|].
  cbn [confirmationHash type fromUserId toUserId publicKey signature timestamp truthy_opt].
  split; [reflexivity|]. split; [exact H44|].
  split; [apply atob_base64_encode, sha256_bytes|]. split; [exact Hl|].
  split.
  - destruct (base64_of_bytes digest); [discriminate|reflexivity].
  - repeat split.
Qed.

Lemma key_confirmation_hash_witness :
  exists m,
    sendKeyConfirmation 65536 session_key bob alice clock (clock + 1) = Some m
    /\ sendKeyConfirmation 65536 shared_secret bob alice clock (clock + 1) = Some m.
Proof.
  destruct (key_confirmation_hash 65536 session_key shared_secret bob alice clock
              (clock + 1) ltac:(vm_compute; discriminate) eq_refl)
    as (m & H1 & H2 & _).
  exists m. split; assumption.
Defined.

(** X15. A session key stored for a user is handed out for one hour, the hour's
    last millisecond included; asked for later, the store answers [null] and
    drops the entry, so it keeps answering [null] whatever the clock then
    reads. Storing replaces what was stored, clearing removes it, and the
    entries of other users are not touched. *)
Theorem session_key_lifetime (u u' : jsstring) (k : list Z) (t t' t'' : Z) (s : sessions) :
  let s1 := storeSessionKey u k t s in
  (t' - t <= 3600000 -> getSessionKey u t' s1 = (Some k, s1))
  /\ (3600000 < t' - t ->
      getSessionKey u t' s1 = (None, delete u s)
      /\ fst (getSessionKey u t'' (snd (getSessionKey u t' s1))) = None)
  /\ fst (getSessionKey u t' (clearSessionKey u s1)) = None
  /\ (u' <> u ->
      fst (getSessionKey u' t' s1) = fst (getSessionKey u' t' s)
      /\ fst (getSessionKey u' t' (clearSessionKey u s)) = fst (getSessionKey u' t' s)
      /\ fst (getSessionKey u' t'' (snd (getSessionKey u t' s)))
         = fst (getSessionKey u' t'' s)).
Proof.
  intros s1. unfold s1, storeSessionKey, clearSessionKey.
  assert (Hnone : forall x m, fst (getSessionKey u x (delete u m)) = None).
  { intros x m. unfold getSessionKey. rewrite lookup_delete_eq. reflexivity. }
  split; [|split; [|split]].
  - intros Hle. unfold getSessionKey. rewrite lookup_insert_eq. cbn [establishedAt key].
    replace (60 * 60 * 1000 <? t' - t) with false by (symmetry; apply Z.ltb_ge; lia).
    reflexivity.
  - intros Hgt.
    assert (Hg : getSessionKey u t'
                   (<[u := {| key := k; userId := u; establishedAt := t |}]> s)
                 = (None, delete u s)).
    { unfold getSessionKey. rewrite lookup_insert_eq. cbn [establishedAt key].
      replace (60 * 60 * 1000 <? t' - t) with true by (symmetry; apply Z.ltb_lt; lia).
      rewrite delete_insert_eq. reflexivity. }
    rewrite Hg. split; [reflexivity|]. apply Hnone.
  - apply Hnone.
  - intros Hne.
    assert (Hother : forall x m m', m' !! u' = m !! u' ->
                       fst (getSessionKey u' x m') = fst (getSessionKey u' x m)).
    { intros x m m' Hm. unfold getSessionKey. rewrite Hm.
      destruct (m !! u') as [e|]; [|reflexivity].
      destruct (_ <? _); reflexivity. }
    split; [apply Hother, lookup_insert_ne; congruence|].
    split; [apply Hother, lookup_delete_ne; congruence|].
    apply Hother. unfold getSessionKey.
    destruct (s !! u) as [e|]; [|reflexivity].
    destruct (_ <? _); [|reflexivity]. cbn [snd]. apply lookup_delete_ne. congruence.
Qed.

Section Pairs.
Variable CryptoKeyPair : Type.

(** X16. An ECDH key pair stored under an exchange id is handed out for ten
    minutes and dropped when asked for later. The timer set at storing deletes
    whatever is under the id when it fires: a pair stored again under the same
    id before that is gone with it, however recent. *)
Theorem ecdh_key_pair_lifetime (id : jsstring) (kp kp2 : CryptoKeyPair) (t t' t2 : Z)
    (m : gmap jsstring (StoredPair CryptoKeyPair)) :
  let m1 := storeEcdhKeyPair CryptoKeyPair id kp t m in
  (t' - t <= 600000 -> getEcdhKeyPair CryptoKeyPair id t' m1 = (Some kp, m1))
  /\ (600000 < t' - t -> getEcdhKeyPair CryptoKeyPair id t' m1 = (None, delete id m))
  /\ fst (getEcdhKeyPair CryptoKeyPair id t' (cleanUp CryptoKeyPair id m1)) = None
  /\ fst (getEcdhKeyPair CryptoKeyPair id t'
            (cleanUp CryptoKeyPair id (storeEcdhKeyPair CryptoKeyPair id kp2 t2 m1))) = None
  /\ fst (getEcdhKeyPair CryptoKeyPair id t' (clearEcdhKeyPair CryptoKeyPair id m1)) = None.
Proof.
  intros m1. unfold m1, storeEcdhKeyPair, cleanUp, clearEcdhKeyPair.
  assert (Hnone : forall x n, fst (getEcdhKeyPair CryptoKeyPair id x (delete id n)) = None).
  { intros x n. unfold getEcdhKeyPair. rewrite lookup_delete_eq. reflexivity. }
  split; [|split; [|split; [|split]]]; try apply Hnone.
  - intros Hle. unfold getEcdhKeyPair. rewrite lookup_insert_eq. cbn [createdAt keyPair].
    replace (10 * 60 * 1000 <? t' - t) with false by (symmetry; apply Z.ltb_ge; lia).
    reflexivity.
  - intros Hgt. unfold getEcdhKeyPair. rewrite lookup_insert_eq. cbn [createdAt keyPair].
    replace (10 * 60 * 1000 <? t' - t) with true by (symmetry; apply Z.ltb_lt; lia).
    rewrite delete_insert_eq. reflexivity.
Qed.

End Pairs.

Section Responses.
Variables PrivateKey PublicKey EcdhPrivateKey EcdhPublicKey : Type.
Variable verify verify' : PublicKey -> list Z -> list Z -> jsstring + bool.
Variable importKey : list Z -> option EcdhPublicKey.
Variable deriveBits : EcdhPublicKey -> EcdhPrivateKey -> option (list Z).


End Responses.

End ClientKeys.

(** ** The relay's table of exchanges *)

Section RelayExchanges.
Import Js KeyExchangeRoutes KeyExchangeListing Samples MoreSamples.















Lemma pending_lookup (me other : jsstring) (t : table) (k : jsstring) (e : Exchange) :
  t !! k = Some e ->
  pending me other t !! k = if pending_for me other e then Some (pending_entry e) else None.
Proof.
  intros He. unfold pending. rewrite lookup_fmap.
  destruct (pending_for me other e) eqn:Hp.
  - rewrite (map_lookup_filter_Some_2 _ _ k e He Hp). reflexivity.
  - rewrite map_lookup_filter_None_2; [reflexivity|].
    right. intros x Hx. rewrite He in Hx. injection Hx as <-. simpl. congruence.
Qed.

Lemma responses_lookup (me other : jsstring) (now : Z) (t : table) (k : jsstring)
    (e : Exchange) :
  t !! k = Some e ->
  fst (responses me other now t) !! k
  = (if negb (is_expired now e) && response_for me other e
     then Some (response_entry e) else None)
  /\ snd (responses me other now t) !! k = if is_expired now e then None else Some e.
Proof.
  intros He. unfold responses. cbn [fst snd]. rewrite lookup_fmap.
  destruct (is_expired now e) eqn:Hx; cbn [negb andb].
  - assert (Hl : filter (fun kv => is_expired now kv.2 = false) t !! k = None).
    { apply map_lookup_filter_None_2. right. intros x Hk. rewrite He in Hk.
      injection Hk as <-. simpl. congruence. }
    split; [|exact Hl].
    rewrite map_lookup_filter_None_2; [reflexivity|]. left. exact Hl.
  - assert (Hl : filter (fun kv => is_expired now kv.2 = false) t !! k = Some e).
    { apply map_lookup_filter_Some_2; [exact He|exact Hx]. }
    split; [|exact Hl].
    destruct (response_for me other e) eqn:Hp.
    + rewrite (map_lookup_filter_Some_2 _ _ k e Hl Hp). reflexivity.
    + rewrite map_lookup_filter_None_2; [reflexivity|].
      right. intros x Hk. rewrite Hl in Hk. injection Hk as <-. simpl. congruence.
Qed.

(** X19. The life of an exchange at the relay. Once A has initiated it, B finds it
    among the pending exchanges of A, with A's public key and signature, and A
    finds no response to it. Once B has responded, it is no longer pending
    for B, and A finds it among the responses, with B's key and signature, as
    long as five minutes have not passed since it was created; after that the
    listing of responses, whoever asks for it, deletes the exchange, and a
    response to it is answered 404. The two readings of the clock in
    [initiate], for the id and for [createdAt], are one reading here, a safe
    integer. *)
Theorem exchange_lifecycle (t : table) (A B pk sg rpk rsg me other : jsstring)
    (ts rts : option Z) (now0 now1 now2 : Z) :
  safe_integer now0 = true ->
  B <> [] -> pk <> [] -> sg <> [] -> rpk <> [] -> rsg <> [] ->
  let xid := A ++ lit "-" ++ B ++ lit "-" ++ number_to_string now0 in
  let t1 := snd (initiate A (Some B) (Some pk) (Some sg) ts now0 t) in
  let t2 := snd (respond B (Some xid) (Some rpk) (Some rsg) rts now1 t1) in
  fst (initiate A (Some B) (Some pk) (Some sg) ts now0 t) = Initiated xid
  /\ pending B A t1 !! xid
     = Some {| p_fromUserId := A; p_toUserId := B; p_publicKey := pk;
               p_signature := sg; p_timestamp := ts; p_createdAt := now0 |}
  /\ fst (responses A B now1 t1) !! xid = None
  /\ fst (respond B (Some xid) (Some rpk) (Some rsg) rts now1 t1) = Responded pk sg
  /\ pending B A t2 !! xid = None
  /\ (now2 - now0 <= 300000 ->
      fst (responses A B now2 t2) !! xid
      = Some {| r_originalPublicKey := pk; r_originalSignature := sg;
                r_responsePublicKey := rpk; r_responseSignature := rsg;
                r_responseTimestamp := rts; r_fromUserId := A; r_toUserId := B |})
  /\ (300000 < now2 - now0 ->
      fst (responses A B now2 t2) !! xid = None
      /\ snd (responses me other now2 t2) !! xid = None
      /\ fst (respond B (Some xid) (Some rpk) (Some rsg) rts now2
                (snd (responses me other now2 t2))) = NotFound).
Proof.
  intros _ HB Hpk Hsg Hrpk Hrsg xid t1 t2.
  assert (Htr : forall s : jsstring, s <> [] -> truthy_opt truthy_string (Some s) = true).
  { intros s Hs. destruct s; [congruence|reflexivity]. }
  assert (Hxid : xid <> []).
  { unfold xid. intros H. apply (f_equal (@length Z)) in H.
    rewrite !length_app in H. simpl in H. lia. }
  assert (Hi : initiate A (Some B) (Some pk) (Some sg) ts now0 t
               = (Initiated xid,
                  <[xid := {| fromUserId := A; toUserId := B; publicKey := pk;
                              signature := sg; timestamp := ts; createdAt := now0;
                              response := None; confirmedBy := None |}]> t)).
  { unfold initiate. rewrite !Htr by assumption. reflexivity. }
  assert (H1 : t1 !! xid = Some {| fromUserId := A; toUserId := B; publicKey := pk;
                                   signature := sg; timestamp := ts; createdAt := now0;
                                   response := None; confirmedBy := None |}).
  { unfold t1. rewrite Hi. apply lookup_insert_eq. }
  assert (Hr : respond B (Some xid) (Some rpk) (Some rsg) rts now1 t1
               = (Responded pk sg,
                  <[xid := {| fromUserId := A; toUserId := B; publicKey := pk;
                              signature := sg; timestamp := ts; createdAt := now0;
                              response :=
                                Some {| responsePublicKey := rpk;
                                        responseSignature := rsg;
                                        responseTimestamp := rts;
                                        respondedBy := B; respondedAt := now1 |};
                              confirmedBy := None |}]> t1)).
  { unfold respond. rewrite !Htr by assumption. cbn [negb orb default from_option Datatypes.id].
    rewrite H1. cbn [fromUserId toUserId].
    rewrite (bool_decide_eq_true_2 (B = B)) by reflexivity.
    rewrite andb_false_r. reflexivity. }
  assert (H2 : t2 !! xid
               = Some {| fromUserId := A; toUserId := B; publicKey := pk;
                         signature := sg; timestamp := ts; createdAt := now0;
                         response :=
                           Some {| responsePublicKey := rpk; responseSignature := rsg;
                                   responseTimestamp := rts; respondedBy := B;
                                   respondedAt := now1 |};
                         confirmedBy := None |}).
  { unfold t2. rewrite Hr. apply lookup_insert_eq. }
  assert (Hhas : truthy_string rpk = true) by (destruct rpk; [congruence|reflexivity]).
  split; [rewrite Hi; reflexivity|]. split.
  { rewrite (pending_lookup _ _ _ _ _ H1). unfold pending_for, has_response.
    cbn [fromUserId toUserId response fmap option_fmap option_map truthy_opt].
    rewrite !bool_decide_eq_true_2 by reflexivity. reflexivity. }
  split.
  { destruct (responses_lookup A B now1 t1 xid _ H1) as [-> _].
    unfold response_for, has_response.
    cbn [fromUserId toUserId response fmap option_fmap option_map truthy_opt].
    rewrite !andb_false_r. reflexivity. }
  split; [rewrite Hr; reflexivity|]. split.
  { rewrite (pending_lookup _ _ _ _ _ H2). unfold pending_for, has_response.
    cbn [fromUserId toUserId response fmap option_fmap option_map truthy_opt
         responsePublicKey].
    rewrite Hhas, andb_false_r. reflexivity. }
  split.
  { intros Hle. destruct (responses_lookup A B now2 t2 xid _ H2) as [-> _].
    unfold is_expired, EXCHANGE_EXPIRY, response_for, has_response.
    cbn [fromUserId toUserId response fmap option_fmap option_map truthy_opt
         responsePublicKey createdAt].
    replace (5 * 60 * 1000 <? now2 - now0) with false by (symmetry; apply Z.ltb_ge; lia).
    rewrite !bool_decide_eq_true_2 by reflexivity. rewrite Hhas. reflexivity. }
  intros Hgt.
  assert (Hexp : is_expired now2
                   {| fromUserId := A; toUserId := B; publicKey := pk;
                      signature := sg; timestamp := ts; createdAt := now0;
                      response :=
                        Some {| responsePublicKey := rpk; responseSignature := rsg;
                                responseTimestamp := rts; respondedBy := B;
                                respondedAt := now1 |};
                      confirmedBy := None |} = true).
  { unfold is_expired, EXCHANGE_EXPIRY. cbn [createdAt]. apply Z.ltb_lt. lia. }
  destruct (responses_lookup A B now2 t2 xid _ H2) as [Ha _].
  destruct (responses_lookup me other now2 t2 xid _ H2) as [_ Hb].
  rewrite Hexp in Ha, Hb. split; [exact Ha|]. split; [exact Hb|].
  unfold respond. rewrite !Htr by assumption. cbn [negb orb default from_option Datatypes.id].
  rewrite Hb. reflexivity.
Qed.

Lemma exchange_lifecycle_witness :
  fst (initiate alice (Some bob) (Some (lit "cHVibGlj")) (Some (lit "c2lnbmF0dXJl"))
         (Some clock) clock ∅)
  = Initiated (alice ++ lit "-" ++ bob ++ lit "-" ++ number_to_string clock).
Proof.
  exact (proj1 (exchange_lifecycle ∅ alice bob (lit "cHVibGlj") (lit "c2lnbmF0dXJl")
                  (lit "cmVzcG9uc2U=") (lit "c2lnbmVk") mallory trent
                  (Some clock) (Some (clock + 1000)) clock (clock + 1000) (clock + 2000)
                  eq_refl
                  ltac:(discriminate) ltac:(discriminate) ltac:(discriminate)
                  ltac:(discriminate) ltac:(discriminate))).
Defined.

End RelayExchanges.

(** ** The listings of messages *)

Section Listings.
Import Js MessageModel MessageQueries Samples.

Lemma sorted_app_le {A} (R : A -> A -> Prop) (l1 l2 : list A) :
  StronglySorted R (l1 ++ l2) -> forall a b, In a l1 -> In b l2 -> R a b.
Proof.
  induction l1 as [|x l1 IH]; intros Hs a b Ha Hb; [destruct Ha|].
  simpl in Hs. apply StronglySorted_inv in Hs. destruct Hs as [Hs Hx].
  destruct Ha as [->|Ha]; [|apply IH; assumption].
  rewrite List.Forall_forall in Hx. apply Hx, in_or_app. right. exact Hb.
Qed.

Lemma firstn_in {A} (n : nat) (l : list A) (x : A) : In x (firstn n l) -> In x l.
Proof.
  intros H. rewrite <- (firstn_skipn n l). apply in_or_app. left. exact H.
Qed.

Lemma sorted_firstn {A} (R : A -> A -> Prop) (n : nat) (l : list A) :
  StronglySorted R l -> StronglySorted R (firstn n l).
Proof.
  intros Hs. revert n. induction Hs as [|x l Hs IH Hx]; intros [|n]; simpl;
    try constructor; [apply IH|].
  rewrite List.Forall_forall in Hx. apply List.Forall_forall. intros y Hy.
  apply Hx. apply (firstn_in _ _ _ Hy).
Qed.

(** X20. [GET /conversation/:userId], asked by a user for another user (both
    ObjectIds), answers with at most 100 messages, all of them stored messages
    between the two users, oldest first. When the conversation has more than
    100 messages it is the oldest that are listed: a message that is left out
    was created no earlier than any message listed. With 100 messages or less
    the whole conversation is listed. *)
Theorem conversation_listing (me other : jsstring) (db : list Message) :
  object_id_string me = true -> object_id_string other = true ->
  GateLayers.store_well_formed db = true ->
  (length (conversation me other db) <= 100)%nat
  /\ (forall m, In m (conversation me other db) ->
        In m db /\ between me other m = true)
  /\ StronglySorted (fun a b => createdAt a <= createdAt b) (conversation me other db)
  /\ (forall m m', In m (conversation me other db) ->
        In m' db -> between me other m' = true ->
        ~ In m' (conversation me other db) -> createdAt m <= createdAt m')
  /\ ((length (List.filter (between me other) db) <= 100)%nat ->
      Permutation (conversation me other db) (List.filter (between me other) db)).
Proof.
  intros _ _ _. unfold conversation.
  set (l := JsArray.sort_by createdAt (List.filter (between me other) db)).
  assert (Hperm : Permutation l (List.filter (between me other) db))
    by apply sort_by_perm.
  assert (Hsorted : StronglySorted (fun a b => createdAt a <= createdAt b) l)
    by apply sort_by_sorted.
  split; [apply firstn_le_length|]. split.
  { intros m Hm. apply firstn_in in Hm.
    apply (Permutation_in _ Hperm), filter_In in Hm. exact Hm. }
  split; [apply sorted_firstn, Hsorted|]. split.
  { intros m m' Hm Hin Hb Hnot.
    assert (Hl : In m' l).
    { apply (Permutation_in _ (Permutation_sym Hperm)), filter_In. split; assumption. }
    rewrite <- (firstn_skipn 100 l) in Hl, Hsorted.
    apply in_app_or in Hl. destruct Hl as [Hl|Hl]; [contradiction|].
    apply (sorted_app_le _ _ _ Hsorted m m' Hm Hl). }
  intros Hlen. rewrite firstn_all2; [exact Hperm|].
  rewrite (Permutation_length Hperm). exact Hlen.
Qed.

Lemma set_add_in (s : list jsstring) (x p : jsstring) :
  In p (set_add s x) <-> In p s \/ p = x.
Proof.
  unfold set_add. destruct (existsb _ s) eqn:He.
  - split; [auto|]. intros [H| ->]; [exact H|].
    apply existsb_exists in He. destruct He as (y & Hy & Hxy).
    apply bool_decide_eq_true in Hxy. subst y. exact Hy.
  - rewrite in_app_iff. simpl. split; intros [H|H]; auto.
    + destruct H as [<-|[]]. auto.
Qed.

Lemma set_add_nodup (s : list jsstring) (x : jsstring) :
  NoDup s -> NoDup (set_add s x).
Proof.
  intros Hs. unfold set_add. destruct (existsb _ s) eqn:He; [exact Hs|].
  apply NoDup_app. split; [exact Hs|]. split; [|apply NoDup_singleton].
  intros y Hy Hy'. apply list_elem_of_In in Hy, Hy'. destruct Hy' as [Hxy|[]].
  subst y.
  assert (existsb (fun z => bool_decide (z = x)) s = true); [|congruence].
  apply existsb_exists. exists x. split; [exact Hy|]. apply bool_decide_eq_true. reflexivity.
Qed.

Lemma fold_set_add (me : jsstring) (l : list Message) (acc : list jsstring) (p : jsstring) :
  (NoDup acc -> NoDup (fold_left (fun u m => set_add u (partner me m)) l acc))
  /\ (In p (fold_left (fun u m => set_add u (partner me m)) l acc)
      <-> In p acc \/ exists m, In m l /\ partner me m = p).
Proof.
  revert acc. induction l as [|m l IH]; intros acc; simpl.
  - split; [auto|]. split; [auto|]. intros [H|(m & [] & _)]. exact H.
  - destruct (IH (set_add acc (partner me m))) as [IH1 IH2]. split.
    + intros Hn. apply IH1, set_add_nodup, Hn.
    + rewrite IH2, set_add_in. split.
      * intros [[H| ->]|(m' & Hm' & Hp)]; eauto.
      * intros [H|(m' & [<-|Hm'] & Hp)]; eauto.
Qed.

Lemma partner_between (me p : jsstring) (m : Message) :
  involves me m = true /\ partner me m = p <-> between me p m = true.
Proof.
  unfold involves, partner, between.
  destruct (bool_decide (senderId m = me)) eqn:Hs.
  - apply bool_decide_eq_true in Hs. simpl. split.
    + intros [_ Hp]. rewrite (bool_decide_eq_true_2 _ Hp). reflexivity.
    + intros H. split; [reflexivity|]. apply orb_true_iff in H.
      destruct H as [H|H]; [apply bool_decide_eq_true in H; exact H|].
      apply andb_true_iff in H. destruct H as [H1 H2].
      apply bool_decide_eq_true in H1, H2. congruence.
  - simpl. split.
    + intros [Hr Hp]. rewrite Hr, (bool_decide_eq_true_2 _ Hp). reflexivity.
    + intros H. apply andb_true_iff in H. destruct H as [H1 H2].
      apply bool_decide_eq_true in H1. rewrite H2. split; [reflexivity|exact H1].
Qed.

(** X21. [GET /conversations] lists every peer once: the users with whom a stored
    message was exchanged, in either direction, and no one else. They are the
    users for whom [GET /conversation/:userId] has something to list. *)
Theorem conversations_listing (me p : jsstring) (db : list Message) :
  object_id_string me = true -> object_id_string p = true ->
  GateLayers.store_well_formed db = true ->
  NoDup (conversations me db)
  /\ (In p (conversations me db) <-> exists m, In m db /\ between me p m = true)
  /\ (In p (conversations me db) <-> conversation me p db <> []).
Proof.
  intros _ _ _. unfold conversations.
  destruct (fold_set_add me (List.filter (involves me) db) [] p) as [Hn Hin].
  assert (Hiff : In p (fold_left (fun u m => set_add u (partner me m))
                         (List.filter (involves me) db) [])
                 <-> exists m, In m db /\ between me p m = true).
  { rewrite Hin. split.
    - intros [[]|(m & Hm & Hp)]. apply filter_In in Hm. destruct Hm as [Hm Hi].
      exists m. split; [exact Hm|]. apply partner_between. split; assumption.
    - intros (m & Hm & Hb). right. apply partner_between in Hb. destruct Hb as [Hi Hp].
      exists m. split; [|exact Hp]. apply filter_In. split; assumption. }
  split; [apply Hn; constructor|]. split; [exact Hiff|].
  rewrite Hiff. unfold conversation.
  pose proof (sort_by_perm createdAt (List.filter (between me p) db)) as Hperm.
  split.
  - intros (m & Hm & Hb) Hnil.
    assert (Hf : In m (List.filter (between me p) db)) by (apply filter_In; split; assumption).
    apply (Permutation_in _ (Permutation_sym Hperm)) in Hf.
    destruct (JsArray.sort_by createdAt (List.filter (between me p) db)); [destruct Hf|].
    discriminate.
  - intros Hne.
    destruct (JsArray.sort_by createdAt (List.filter (between me p) db)) as [|m l] eqn:Hs;
      [contradiction|].
    assert (Hf : In m (List.filter (between me p) db)).
    { apply (Permutation_in _ Hperm). left. reflexivity. }
    apply filter_In in Hf. exists m. exact Hf.
Qed.

Lemma conversation_listing_witness :
  (length (conversation alice bob [stored_message]) <= 100)%nat.
Proof.
  exact (proj1 (conversation_listing alice bob [stored_message] eq_refl eq_refl eq_refl)).
Defined.

Lemma conversations_listing_witness : NoDup (conversations alice [stored_message]).
Proof.
  exact (proj1 (conversations_listing alice bob [stored_message] eq_refl eq_refl eq_refl)).
Defined.

End Listings.

(** ** Encryption and decryption of files *)

Section Files.
Import Js Encoding MessageEncryption FileEncryption Samples MoreSamples.

Lemma chunk_at_bytes (buf : list Z) (i : Z) : bytes buf -> bytes (chunk_at buf i).
Proof.
  intros Hb. unfold chunk_at, slice, bytes in *.
  apply Forall_take, Forall_drop, Hb.
Qed.

Lemma chunk_at_length (buf : list Z) (i : Z) :
  0 <= i ->
  Z.of_nat (length (chunk_at buf i)) <= Z.min (Z.of_nat (length buf)) CHUNK_SIZE.
Proof.
  intros Hi. unfold chunk_at, slice. rewrite length_firstn, length_skipn.
  change CHUNK_SIZE with 1048576. lia.
Qed.

Lemma chunk_at_first (buf : list Z) :
  Z.of_nat (length (chunk_at buf 0)) = Z.min (Z.of_nat (length buf)) CHUNK_SIZE.
Proof.
  unfold chunk_at, slice. rewrite length_firstn, length_skipn.
  change CHUNK_SIZE with 1048576. lia.
Qed.

(** One turn of the loop, in an engine that takes as many arguments as the
    chunk has bytes, pushes a chunk that carries its index and decrypts to its
    bytes. *)
Lemma encrypt_chunk_step (key buf : list Z) (acc : list EncryptedFileChunk) (w : World)
    (i : Z) :
  bytes buf -> 0 <= i -> 16 <= max_arguments w ->
  Z.min (Z.of_nat (length buf)) CHUNK_SIZE <= max_arguments w ->
  exists ch w',
    encrypt_chunk key buf (Some acc, w) i = (Some (acc ++ [ch]), w')
    /\ chunkIndex ch = i
    /\ decrypt_chunk key ch = inr (chunk_at buf i)
    /\ drawn w' = (drawn w + 12)%nat
    /\ max_arguments w' = max_arguments w.
Proof.
  intros Hb Hi Hargs Hfits. unfold encrypt_chunk. cbn [fst snd].
  pose proof (random_values 12 w) as (Hivb & Hivl & _).
  assert (Hd : drawn (snd (getRandomValues 12 w)) = (drawn w + 12)%nat) by reflexivity.
  pose proof (random_values_engine 12 w) as He.
  destruct (getRandomValues 12 w) as [ivBytes w'] eqn:Hiv. cbn [fst snd] in *.
  pose proof (chunk_at_bytes buf i Hb) as Hcb.
  pose proof (chunk_at_length buf i Hi) as Hcl.
  destruct (slices_of_gcm key ivBytes (chunk_at buf i)) as (Hs1 & Hs2 & Hl1 & Hl2).
  rewrite He.
  rewrite (spread_within _ (slice_but_last16 _)) by (rewrite Hl1; lia).
  rewrite (spread_within _ ivBytes) by (rewrite Hivl; lia).
  rewrite (spread_within _ (slice_last16 _)) by (rewrite Hl2; lia).
  eexists _, _. split; [reflexivity|]. split; [reflexivity|].
  split; [|split; [exact Hd|exact He]].
  unfold decrypt_chunk. cbn [iv ciphertext tag].
  rewrite Hs1, Hs2. unfold bytes_of_base64, base64_of_bytes.
  rewrite !atob_base64_encode
    by (try exact Hivb; try apply be_bytes_bytes; apply gctr_bytes, Hcb).
  unfold AesGcm.decrypt. rewrite gcm_decrypt_pair, gctr_involutive. reflexivity.
Qed.

(** One turn on a chunk with more bytes than the engine takes arguments
    leaves the loop, twelve random bytes drawn. *)
Lemma encrypt_chunk_throws (key buf : list Z) (acc : list EncryptedFileChunk) (w : World)
    (i : Z) :
  max_arguments w < Z.of_nat (length (chunk_at buf i)) ->
  fst (encrypt_chunk key buf (Some acc, w) i) = None
  /\ drawn (snd (encrypt_chunk key buf (Some acc, w) i)) = (drawn w + 12)%nat.
Proof.
  intros Hlong. unfold encrypt_chunk. cbn [fst snd].
  assert (Hd : drawn (snd (getRandomValues 12 w)) = (drawn w + 12)%nat) by reflexivity.
  pose proof (random_values_engine 12 w) as He.
  destruct (getRandomValues 12 w) as [ivBytes w'] eqn:Hiv. cbn [fst snd] in *.
  destruct (slices_of_gcm key ivBytes (chunk_at buf i)) as (_ & _ & Hl1 & _).
  rewrite He.
  rewrite (spread_beyond _ (slice_but_last16 _)) by (rewrite Hl1; exact Hlong).
  split; [reflexivity|exact Hd].
Qed.

Lemma encrypt_chunks_after_throw (key buf : list Z) (idx : list Z) (w : World) :
  fold_left (encrypt_chunk key buf) idx (None, w) = (None, w).
Proof. induction idx as [|i idx IH]; [reflexivity|]. simpl. exact IH. Qed.

Lemma encrypt_chunks_fold (key buf : list Z) (idx : list Z)
    (acc : list EncryptedFileChunk) (w : World) :
  bytes buf -> Forall (fun i => 0 <= i) idx -> 16 <= max_arguments w ->
  Z.min (Z.of_nat (length buf)) CHUNK_SIZE <= max_arguments w ->
  exists cs w',
    fold_left (encrypt_chunk key buf) idx (Some acc, w) = (Some (acc ++ cs), w')
    /\ Forall2 (fun i ch => chunkIndex ch = i /\ decrypt_chunk key ch = inr (chunk_at buf i))
         idx cs
    /\ drawn w' = (drawn w + 12 * length idx)%nat.
Proof.
  intros Hb Hidx. revert acc w. induction Hidx as [|i idx Hi _ IH]; intros acc w Hargs Hfits.
  - exists [], w. simpl. rewrite app_nil_r. repeat split; [constructor|lia].
  - simpl.
    destruct (encrypt_chunk_step key buf acc w i Hb Hi Hargs Hfits)
      as (ch & w1 & -> & Hi' & Hd & Hw & He).
    destruct (IH (acc ++ [ch]) w1) as (cs & w' & -> & Hf & Hw'); [rewrite He; assumption..|].
    exists (ch :: cs), w'. rewrite <- app_assoc. split; [reflexivity|].
    split; [constructor; [split; assumption|exact Hf]|]. lia.
Qed.

Lemma decrypt_chunks_all (key buf : list Z) (idx : list Z) (cs : list EncryptedFileChunk) :
  Forall2 (fun i ch => chunkIndex ch = i /\ decrypt_chunk key ch = inr (chunk_at buf i)) idx cs ->
  decrypt_chunks key cs = inr (map (chunk_at buf) idx) /\ map chunkIndex cs = idx.
Proof.
  induction 1 as [|i ch idx cs [Hi Hd] _ [IH1 IH2]]; [split; reflexivity|].
  simpl. rewrite Hd, IH1, Hi, IH2. split; reflexivity.
Qed.

Lemma chunks_concat (buf : list Z) (n : nat) :
  concat (map (chunk_at buf) (map Z.of_nat (seq 0 n)))
  = firstn (Z.to_nat (Z.min (Z.of_nat n * CHUNK_SIZE) (Z.of_nat (length buf)))) buf.
Proof.
  assert (HC : 0 < CHUNK_SIZE) by reflexivity.
  induction n as [|n IH].
  { simpl. rewrite Z.min_l by lia. reflexivity. }
  rewrite seq_S, !map_app, concat_app, IH. simpl. rewrite app_nil_r.
  unfold chunk_at, slice.
  set (C := CHUNK_SIZE) in *. set (len := Z.of_nat (length buf)).
  set (p := Z.of_nat n * C).
  assert (Hp : 0 <= p) by (unfold p; nia).
  replace (Z.of_nat (S n) * C) with (p + C) by (unfold p; lia).
  destruct (Z_le_gt_dec p len) as [Hle|Hgt].
  - rewrite (Z.min_l p len) by lia.
    rewrite take_take_drop. f_equal. lia.
  - rewrite (Z.min_r p len) by lia.
    rewrite (Z.min_r (p + C) len) by lia.
    replace (Z.to_nat (len - p)) with 0%nat by lia. simpl. rewrite app_nil_r. reflexivity.
Qed.

Lemma chunks_cover (buf : list Z) :
  let n := Z.to_nat ((Z.of_nat (length buf) + CHUNK_SIZE - 1) / CHUNK_SIZE) in
  Z.of_nat (length buf) <= Z.of_nat n * CHUNK_SIZE.
Proof.
  intros n. unfold n. assert (HC : 0 < CHUNK_SIZE) by reflexivity.
  set (C := CHUNK_SIZE) in *. set (len := Z.of_nat (length buf)).
  assert (0 <= len) by (unfold len; lia).
  assert (0 <= (len + C - 1) / C) by (apply Z.div_pos; lia).
  rewrite Z2Nat.id by assumption.
  pose proof (Z.div_mod (len + C - 1) C ltac:(lia)).
  pose proof (Z.mod_pos_bound (len + C - 1) C ltac:(lia)). nia.
Qed.

Lemma indices_sorted (n : nat) (a : nat) :
  StronglySorted Z.lt (map Z.of_nat (seq a n)).
Proof.
  revert a. induction n as [|n IH]; intros a; simpl; constructor; [apply IH|].
  apply Forall_map, List.Forall_forall. intros x Hx. apply in_seq in Hx. simpl. lia.
Qed.

Lemma keys_sorted (cs : list EncryptedFileChunk) :
  StronglySorted Z.lt (map chunkIndex cs) ->
  StronglySorted (fun a b => chunkIndex a <= chunkIndex b) cs
  /\ NoDup (map chunkIndex cs).
Proof.
  induction cs as [|c cs IH]; simpl; intros Hs; [split; constructor|].
  apply StronglySorted_inv in Hs. destruct Hs as [Hs Hc]. destruct (IH Hs) as [IH1 IH2].
  split.
  - constructor; [exact IH1|]. rewrite List.Forall_forall in Hc.
    apply List.Forall_forall. intros x Hx. specialize (Hc _ (in_map chunkIndex _ _ Hx)). lia.
  - apply NoDup_cons. split; [|exact IH2]. intros Hin. apply list_elem_of_In in Hin.
    rewrite List.Forall_forall in Hc. specialize (Hc _ Hin). lia.
Qed.

Lemma indices_nonnegative (n : nat) : Forall (fun i => 0 <= i) (map Z.of_nat (seq 0 n)).
Proof. apply Forall_map, List.Forall_forall. intros x _. simpl. lia. Qed.

(** What [encryptFile] returns, chunk by chunk, in an engine that takes as
    many arguments as a chunk of the file has bytes. *)
Lemma encrypt_file_chunks (file : File) (key : list Z) (w : World) :
  bytes (content file) -> 16 <= max_arguments w ->
  Z.min (size file) CHUNK_SIZE <= max_arguments w ->
  let n := Z.to_nat ((size file + CHUNK_SIZE - 1) / CHUNK_SIZE) in
  exists cs w',
    encryptFile file key w
    = (Some {| fileName := name file; fileSize := size file; mimeType := type file;
               chunks := cs;
               totalChunks := (size file + CHUNK_SIZE - 1) / CHUNK_SIZE |}, w')
    /\ Forall2 (fun i ch => chunkIndex ch = i
                            /\ decrypt_chunk key ch = inr (chunk_at (content file) i))
         (map Z.of_nat (seq 0 n)) cs
    /\ drawn w' = (drawn w + 12 * n)%nat.
Proof.
  intros Hb Hargs Hfits n. unfold encryptFile. fold (size file). fold n.
  destruct (encrypt_chunks_fold key (content file) (map Z.of_nat (seq 0 n)) [] w Hb
              (indices_nonnegative n) Hargs Hfits)
    as (cs & w' & -> & Hf & Hd).
  exists cs, w'. split; [reflexivity|]. split; [exact Hf|].
  rewrite length_map, length_seq in Hd. exact Hd.
Qed.

Lemma decrypt_sorted_chunks (key : list Z) (ef : EncryptedFile) (buf : list Z) (idx : list Z)
    (cs : list EncryptedFileChunk) :
  chunks ef = cs ->
  Forall2 (fun i ch => chunkIndex ch = i /\ decrypt_chunk key ch = inr (chunk_at buf i))
    idx cs ->
  StronglySorted Z.lt idx ->
  decryptFile ef key
  = inr {| blob_bytes := concat (map (chunk_at buf) idx);
           blob_type := normalize_type (mimeType ef) |}.
Proof.
  intros <- Hf Hs. destruct (decrypt_chunks_all key buf idx (chunks ef) Hf) as [Hd Hk].
  rewrite <- Hk in Hs. destruct (keys_sorted _ Hs) as [Hle _].
  unfold decryptFile. rewrite (sort_by_id chunkIndex _ Hle), Hd. reflexivity.
Qed.

Lemma firstn_whole (buf : list Z) (m : Z) :
  Z.of_nat (length buf) <= m ->
  firstn (Z.to_nat (Z.min m (Z.of_nat (length buf)))) buf = buf.
Proof.
  intros H. rewrite Z.min_r by exact H. rewrite Nat2Z.id. apply firstn_all.
Qed.

(** X22. In an engine that takes as many arguments in a call as a chunk of the
    file has bytes (the smaller of the file's size and 1 MiB, and sixteen at
    least), [decryptFile] gives back the bytes [encryptFile] was given,
    whatever the key and the random source: as a [Blob] of the file's type. *)
Theorem file_round_trip (file : File) (key : list Z) (w : World) :
  bytes (content file) -> 16 <= max_arguments w ->
  Z.min (size file) 1048576 <= max_arguments w ->
  exists ef,
    fst (encryptFile file key w) = Some ef
    /\ decryptFile ef key
       = inr {| blob_bytes := content file; blob_type := normalize_type (type file) |}.
Proof.
  intros Hb Hargs Hfits.
  destruct (encrypt_file_chunks file key w Hb Hargs Hfits) as (cs & w' & -> & Hf & _).
  cbn [fst]. eexists. split; [reflexivity|].
  erewrite (decrypt_sorted_chunks key _ (content file));
    [|reflexivity|exact Hf|apply indices_sorted].
  cbn [mimeType].
  rewrite chunks_concat, firstn_whole; [reflexivity|]. apply chunks_cover.
Qed.

(** X23. In an engine that takes fewer arguments in a call than the first chunk of
    the file has bytes (the smaller of the file's size and 1 MiB),
    [encryptFile] returns nothing: the spread of the first ciphertext throws a
    [RangeError], twelve random bytes drawn. *)
Theorem file_beyond_engine_limit (file : File) (key : list Z) (w : World) :
  0 <= max_arguments w ->
  max_arguments w < Z.min (size file) 1048576 ->
  fst (encryptFile file key w) = None
  /\ drawn (snd (encryptFile file key w)) = (drawn w + 12)%nat.
Proof.
  intros Hargs Hlong. unfold encryptFile. fold (size file).
  set (n := Z.to_nat ((size file + CHUNK_SIZE - 1) / CHUNK_SIZE)).
  assert (Hn : exists k, n = S k).
  { assert (1 <= (size file + CHUNK_SIZE - 1) / CHUNK_SIZE).
    { apply Z.div_le_lower_bound; [reflexivity|]. change CHUNK_SIZE with 1048576. lia. }
    destruct n as [|k] eqn:En; [|eauto]. unfold n in En. lia. }
  destruct Hn as (k & ->). cbn [seq map fold_left].
  destruct (encrypt_chunk_throws key (content file) [] w 0) as [Hnone Hdrawn].
  { rewrite chunk_at_first. fold (size file). change CHUNK_SIZE with 1048576. exact Hlong. }
  change (Z.of_nat 0) with 0.
  destruct (encrypt_chunk key (content file) (Some [], w) 0) as [c w1]. cbn [fst snd] in *.
  subst c. rewrite encrypt_chunks_after_throw. split; [reflexivity|exact Hdrawn].
Qed.

(** X24. [encryptFile], in an engine that takes as many arguments as a chunk has
    bytes, cuts the file into chunks of 1 MiB, the last one shorter when the
    size is no multiple: it returns as many chunks as that takes, none for an
    empty file, numbered from 0 in their order, each decrypting to its part of
    the file, and draws twelve random bytes per chunk. *)
Theorem encrypted_file_shape (file : File) (key : list Z) (w : World) :
  bytes (content file) -> 16 <= max_arguments w ->
  Z.min (size file) 1048576 <= max_arguments w ->
  let n := Z.to_nat ((size file + 1048576 - 1) / 1048576) in
  exists ef,
    fst (encryptFile file key w) = Some ef
    /\ totalChunks ef = (size file + 1048576 - 1) / 1048576
    /\ (size file <= totalChunks ef * 1048576 < size file + 1048576)
    /\ length (chunks ef) = n
    /\ map chunkIndex (chunks ef) = map Z.of_nat (seq 0 n)
    /\ Forall (fun ch => decrypt_chunk key ch
                          = inr (chunk_at (content file) (chunkIndex ch)))
         (chunks ef)
    /\ fileSize ef = size file /\ fileName ef = name file /\ mimeType ef = type file
    /\ drawn (snd (encryptFile file key w)) = (drawn w + 12 * n)%nat.
Proof.
  intros Hb Hargs Hfits n.
  destruct (encrypt_file_chunks file key w Hb Hargs Hfits) as (cs & w' & He & Hf & Hd).
  change CHUNK_SIZE with 1048576 in *. fold n in Hf, Hd.
  rewrite He. cbn [fst snd]. eexists. split; [reflexivity|].
  cbn [totalChunks chunks fileSize fileName mimeType].
  destruct (decrypt_chunks_all key (content file) _ cs Hf) as [_ Hk].
  split; [reflexivity|]. split.
  { unfold size. pose proof (Z.div_mod (Z.of_nat (length (content file)) + 1048576 - 1)
                               1048576 ltac:(lia)).
    pose proof (Z.mod_pos_bound (Z.of_nat (length (content file)) + 1048576 - 1)
                  1048576 ltac:(lia)). lia. }
  split.
  { rewrite <- (length_map chunkIndex), Hk, length_map, length_seq. reflexivity. }
  split; [exact Hk|]. split.
  { clear -Hf. induction Hf as [|i ch idx cs' [Hi Hdc] _ IH]; constructor; [|exact IH].
    rewrite Hi. exact Hdc. }
  repeat split; try reflexivity. exact Hd.
Qed.

(** X25. [decryptFile] sorts the chunks by their index before it decrypts them:
    with pairwise distinct indices, the chunks may come in any order. *)
Theorem file_chunks_in_any_order (ef ef' : EncryptedFile) (key : list Z) :
  Permutation (chunks ef) (chunks ef') ->
  NoDup (map chunkIndex (chunks ef)) ->
  mimeType ef = mimeType ef' ->
  decryptFile ef key = decryptFile ef' key.
Proof.
  intros Hp Hn Hm. unfold decryptFile.
  rewrite (sort_by_perm_invariant chunkIndex _ _ Hp Hn), Hm. reflexivity.
Qed.

(** X26. [decryptFile] reads neither [totalChunks] nor [fileSize]: of a file that
    [encryptFile] returned, with its last chunks dropped and nothing else
    changed, it returns the beginning of the file, up to the end of the last
    chunk kept, and no error. *)
Theorem truncated_file_decrypts (file : File) (key : list Z) (w : World) (k : nat) :
  bytes (content file) -> 16 <= max_arguments w ->
  Z.min (size file) 1048576 <= max_arguments w ->
  exists ef,
    fst (encryptFile file key w) = Some ef
    /\ decryptFile {| fileName := fileName ef; fileSize := fileSize ef;
                      mimeType := mimeType ef; chunks := firstn k (chunks ef);
                      totalChunks := totalChunks ef |} key
       = inr {| blob_bytes :=
                  firstn (Z.to_nat (Z.min (Z.of_nat k * 1048576) (size file)))
                    (content file);
                blob_type := normalize_type (type file) |}.
Proof.
  intros Hb Hargs Hfits.
  destruct (encrypt_file_chunks file key w Hb Hargs Hfits) as (cs & w' & He & Hf & _).
  rewrite He. cbn [fst]. eexists. split; [reflexivity|].
  cbn [totalChunks chunks fileSize fileName mimeType].
  set (n := Z.to_nat ((size file + CHUNK_SIZE - 1) / CHUNK_SIZE)) in *.
  assert (Hfk : Forall2 (fun i ch => chunkIndex ch = i
                           /\ decrypt_chunk key ch = inr (chunk_at (content file) i))
                  (firstn k (map Z.of_nat (seq 0 n))) (firstn k cs)).
  { apply Forall2_take, Hf. }
  erewrite (decrypt_sorted_chunks key _ (content file));
    [|reflexivity|exact Hfk|apply sorted_firstn, indices_sorted].
  cbn [mimeType]. f_equal. f_equal.
  rewrite firstn_map.
  destruct (Nat.le_gt_cases k n) as [Hle|Hgt].
  - replace (firstn k (seq 0 n)) with (seq 0 k).
    + rewrite chunks_concat. reflexivity.
    + replace n with (k + (n - k))%nat by lia. rewrite seq_app, take_app_length'; [reflexivity|].
      rewrite length_seq. reflexivity.
  - rewrite firstn_all2 by (rewrite length_seq; lia).
    rewrite chunks_concat. pose proof (chunks_cover (content file)) as Hc. fold (size file) in Hc.
    fold n in Hc. cbv zeta in Hc. unfold size in *.
    rewrite !firstn_whole; [reflexivity| |exact Hc].
    change CHUNK_SIZE with 1048576 in Hc. lia.
Qed.

Lemma sample_file_bytes : bytes (content sample_file).
Proof. repeat constructor; unfold byte; lia. Qed.

Lemma sample_file_fits :
  16 <= max_arguments world0 /\ Z.min (size sample_file) 1048576 <= max_arguments world0.
Proof. split; vm_compute; discriminate. Qed.

Lemma file_round_trip_witness :
  exists ef,
    fst (encryptFile sample_file session_key world0) = Some ef
    /\ decryptFile ef session_key
       = inr {| blob_bytes := content sample_file;
                blob_type := normalize_type (type sample_file) |}.
Proof.
  exact (file_round_trip sample_file session_key world0 sample_file_bytes
           (proj1 sample_file_fits) (proj2 sample_file_fits)).
Defined.

Lemma file_beyond_engine_limit_witness :
  fst (encryptFile large_file session_key world0) = None
  /\ drawn (snd (encryptFile large_file session_key world0)) = (drawn world0 + 12)%nat.
Proof.
  apply (file_beyond_engine_limit large_file session_key world0).
  - vm_compute. discriminate.
  - vm_compute. reflexivity.
Defined.

Lemma encrypted_file_shape_witness :
  exists ef,
    fst (encryptFile sample_file session_key world0) = Some ef
    /\ totalChunks ef = 1 /\ length (chunks ef) = 1%nat
    /\ map chunkIndex (chunks ef) = [0].
Proof.
  destruct (encrypted_file_shape sample_file session_key world0 sample_file_bytes
              (proj1 sample_file_fits) (proj2 sample_file_fits))
    as (ef & He & Ht & _ & Hl & Hk & _).
  exists ef. split; [exact He|]. split; [exact Ht|]. split; [exact Hl|exact Hk].
Defined.

Lemma file_chunks_in_any_order_witness :
  decryptFile (file_of [chunk0; chunk1]) session_key
  = decryptFile (file_of [chunk1; chunk0]) session_key.
Proof.
  apply (file_chunks_in_any_order (file_of [chunk0; chunk1]) (file_of [chunk1; chunk0])
           session_key).
  - apply perm_swap.
  - simpl. repeat constructor; simpl; intros H; inversion H as [|? ? ? H']; subst;
      try discriminate; inversion H'.
  - reflexivity.
Defined.

Lemma truncated_file_decrypts_witness :
  exists ef,
    fst (encryptFile sample_file session_key world0) = Some ef
    /\ decryptFile {| fileName := fileName ef; fileSize := fileSize ef;
                      mimeType := mimeType ef; chunks := firstn 0 (chunks ef);
                      totalChunks := totalChunks ef |} session_key
       = inr {| blob_bytes :=
                  firstn (Z.to_nat (Z.min (Z.of_nat 0 * 1048576) (size sample_file)))
                    (content sample_file);
                blob_type := normalize_type (type sample_file) |}.
Proof.
  exact (truncated_file_decrypts sample_file session_key world0 0 sample_file_bytes
           (proj1 sample_file_fits) (proj2 sample_file_fits)).
Defined.

End Files.
